(** * osman / HtmlExport: a shallow embedding of [html_export.py]

    The file has two halves, following the source:

    - [Module Js]: the rendering and interaction engine that
      [HtmlExport._generate_js] emits (projection, hit-testing, the
      gesture handlers).  JavaScript numbers are modelled as exact real
      numbers ([R]); rounding of IEEE-754 doubles, NaN and infinities are
      outside the model.
    - [Module Py]: the ingestion half ([add_points], [add_lines],
      [add_polygons], [_normalize_coords], [_update_bounds], [clear]).
      Python floats are modelled as exact rationals ([Q]). *)

From Stdlib Require Import Reals Lra Lia List Bool Arith ZArith QArith String.
From Stdlib Require Lqa.
Import ListNotations.

Module Js.

Local Open Scope R_scope.

(** ** View state and canvas *)

Record Pixel := mkPixel { pix_x : R; pix_y : R }.

Record LatLng := mkLatLng { ll_lat : R; ll_lng : R }.

(** The closure variables [viewCenter] (a two-element array [lat, lng]) and
    [viewZoom], with the canvas backing size and [window.devicePixelRatio]
    that every transform reads. *)
Record View := mkView {
  viewCenter : R * R;
  viewZoom : R;
  canvas_width : R;
  canvas_height : R;
  devicePixelRatio : R
}.

Definition TILE_SIZE : R := 256.

(** [Math.pow(2, z)] *)
Definition pow2 (z : R) : R := Rpower 2 z.

(** [(1 - Math.log(Math.tan(latRad) + 1 / Math.cos(latRad)) / Math.PI) / 2 * scale],
    for a latitude strictly between the poles, where the argument of
    [Math.log] is positive.  At a pole or beyond the source gets an infinity
    or [NaN], which no real number renders. *)
Definition mercatorY (lat scale : R) : R :=
  let latRad := lat * PI / 180 in
  (1 - ln (tan latRad + 1 / cos latRad) / PI) / 2 * scale.

(** [180 / Math.PI * Math.atan(0.5 * (Math.exp(n) - Math.exp(-n)))] with
    [n = Math.PI - 2 * Math.PI * worldY / scale] *)
Definition inverseMercator (worldY scale : R) : R :=
  let n := PI - 2 * PI * worldY / scale in
  180 / PI * atan (0.5 * (exp n - exp (- n))).

Definition getCenterPixel (v : View) : Pixel :=
  let scale := pow2 (viewZoom v) * TILE_SIZE in
  let x := (snd (viewCenter v) + 180) / 360 * scale in
  let y := mercatorY (fst (viewCenter v)) scale in
  mkPixel x y.

Definition latlngToPixel (v : View) (lat lng : R) : Pixel :=
  let scale := pow2 (viewZoom v) * TILE_SIZE in
  let x := (lng + 180) / 360 * scale in
  let y := mercatorY lat scale in
  let centerPixel := getCenterPixel v in
  let canvasWidth := canvas_width v / devicePixelRatio v in
  let canvasHeight := canvas_height v / devicePixelRatio v in
  mkPixel (x - pix_x centerPixel + canvasWidth / 2)
          (y - pix_y centerPixel + canvasHeight / 2).

Definition pixelToLatLng (v : View) (px py : R) : LatLng :=
  let centerPixel := getCenterPixel v in
  let canvasWidth := canvas_width v / devicePixelRatio v in
  let canvasHeight := canvas_height v / devicePixelRatio v in
  let worldX := px + pix_x centerPixel - canvasWidth / 2 in
  let worldY := py + pix_y centerPixel - canvasHeight / 2 in
  let scale := pow2 (viewZoom v) * TILE_SIZE in
  let lng := worldX / scale * 360 - 180 in
  let lat := inverseMercator worldY scale in
  mkLatLng lat lng.

(** ** Feature data ([mapData]) *)

(** Property mappings are carried through untouched by the engine; they are
    kept as JSON text per key. *)
Definition Properties := list (string * string).

Record PointStyle := mkPointStyle {
  radius : R;
  point_stroke_width : R
}.

Record LineStyle := mkLineStyle {
  stroke_width : R
}.

Record PolygonStyle := mkPolygonStyle {
  polygon_stroke_width : R
}.

Record Point := mkPoint {
  point_lat : R;
  point_lng : R;
  point_properties : Properties;
  point_style : PointStyle
}.

(** A coordinate is the two-element array [[lat, lng]]. *)
Definition Coord := (R * R)%type.

Record Line := mkLine {
  line_coords : list Coord;
  line_properties : Properties;
  line_style : LineStyle
}.

Record Polygon := mkPolygon {
  rings : list (list Coord);
  polygon_properties : Properties;
  polygon_style : PolygonStyle
}.

Record MapData := mkMapData {
  points : list Point;
  lines : list Line;
  polygons : list Polygon
}.

(** ** Comparisons of JavaScript numbers as booleans *)

Definition Rleb (a b : R) : bool := if Rle_dec a b then true else false.
Definition Rltb (a b : R) : bool := if Rlt_dec a b then true else false.
Definition Rgtb (a b : R) : bool := if Rgt_dec a b then true else false.
Definition Reqb (a b : R) : bool := if Req_dec_T a b then true else false.

(** ** Hit-testing *)

(** [Math.sqrt(Math.pow(x - pos.x, 2) + Math.pow(y - pos.y, 2))] *)
Definition pixelDistance (x y : R) (pos : Pixel) : R :=
  sqrt ((x - pix_x pos) ^ 2 + (y - pix_y pos) ^ 2).

(** The test of the first loop of [updateTooltip]. *)
Definition pointHit (v : View) (x y : R) (point : Point) : bool :=
  let pos := latlngToPixel v (point_lat point) (point_lng point) in
  let dist := pixelDistance x y pos in
  Rleb dist (radius (point_style point) + 3).

Definition pointToSegmentDistance (px py x1 y1 x2 y2 : R) : R :=
  let dx := x2 - x1 in
  let dy := y2 - y1 in
  let len2 := dx * dx + dy * dy in
  if Reqb len2 0 then sqrt ((px - x1) ^ 2 + (py - y1) ^ 2)
  else
    let t := ((px - x1) * dx + (py - y1) * dy) / len2 in
    let t := Rmax 0 (Rmin 1 t) in
    let nearX := x1 + t * dx in
    let nearY := y1 + t * dy in
    sqrt ((px - nearX) ^ 2 + (py - nearY) ^ 2).

(** The loop [for (i = 0; i < coords.length - 1; i++)] over consecutive
    pairs, returning at the first segment within tolerance. *)
Fixpoint nearSegments (v : View) (px py tolerance : R) (coords : list Coord)
  : bool :=
  match coords with
  | c1 :: (c2 :: _) as rest =>
      let p1 := latlngToPixel v (fst c1) (snd c1) in
      let p2 := latlngToPixel v (fst c2) (snd c2) in
      let dist :=
        pointToSegmentDistance px py (pix_x p1) (pix_y p1) (pix_x p2) (pix_y p2) in
      if Rleb dist tolerance then true
      else nearSegments v px py tolerance rest
  | _ => false
  end.

Definition isPointNearLine (v : View) (px py : R) (line : Line) : bool :=
  let tolerance := stroke_width (line_style line) / 2 + 5 in
  nearSegments v px py tolerance (line_coords line).

(** One edge of the ray-casting loop: vertex [i] is [pi], vertex [j] is [pj]. *)
Definition edgeCrosses (px py : R) (pi pj : Pixel) : bool :=
  let xi := pix_x pi in let yi := pix_y pi in
  let xj := pix_x pj in let yj := pix_y pj in
  negb (Bool.eqb (Rgtb yi py) (Rgtb yj py)) &&
  Rltb px ((xj - xi) * (py - yi) / (yj - yi) + xi).

(** The body of [for (i = 0, j = ring.length - 1; i < ring.length; j = i++)]:
    [rest] holds the vertices from index [i] on, [prev] is [ring[j]]. *)
Fixpoint pointInRing_loop (px py : R) (rest : list Pixel) (prev : Pixel)
  (inside : bool) : bool :=
  match rest with
  | [] => inside
  | pi :: rest' =>
      pointInRing_loop px py rest' pi
        (if edgeCrosses px py pi prev then negb inside else inside)
  end.

Definition pointInRing (px py : R) (ring : list Pixel) : bool :=
  match ring with
  | [] => false
  | p0 :: _ => pointInRing_loop px py ring (last ring p0) false
  end.

(** [for (let i = 1; i < pixelRings.length; i++) if (pointInRing(...)) return false] *)
Fixpoint insideNoHole (px py : R) (holes : list (list Pixel)) : bool :=
  match holes with
  | [] => true
  | h :: holes' =>
      if pointInRing px py h then false else insideNoHole px py holes'
  end.

Definition projectRing (v : View) (ring : list Coord) : list Pixel :=
  map (fun coord => latlngToPixel v (fst coord) (snd coord)) ring.

Definition isPointInPolygon (v : View) (px py : R) (polygon : Polygon) : bool :=
  match map (projectRing v) (rings polygon) with
  | [] => false
  | outer :: holes =>
      if negb (pointInRing px py outer) then false
      else insideNoHole px py holes
  end.

(** The matched feature, with the index it has in its array (the array
    element is an object reference in the source; the index keeps that
    identity). *)
Inductive Found :=
| FoundPoint (i : nat) (point : Point)
| FoundLine (i : nat) (line : Line)
| FoundPolygon (i : nat) (polygon : Polygon).

(** Which candidate a pass has tested, in the order of testing. *)
Inductive Probe :=
| ProbePoint (i : nat)
| ProbeLine (i : nat)
| ProbePolygon (i : nat).

(** [for (let i = n - 1; i >= 0; i--) { if (test(arr[i])) { found = arr[i]; break; } }]
    with [n] the number of entries still to visit; the second component
    lists the indices tested. *)
Fixpoint scan_down {A : Type} (test : A -> bool) (arr : list A) (n : nat)
  : option (nat * A) * list nat :=
  match n with
  | O => (None, [])
  | S i =>
      match nth_error arr i with
      | Some a =>
          if test a then (Some (i, a), [i])
          else let '(r, t) := scan_down test arr i in (r, i :: t)
      | None => (None, [])
      end
  end.

(** The resolving part of [updateTooltip]: [found] and the tests run. *)
Definition updateTooltip (v : View) (mapData : MapData) (x y : R)
  : option Found * list Probe :=
  let '(fp, tp) :=
    scan_down (pointHit v x y) (points mapData) (List.length (points mapData)) in
  match fp with
  | Some (i, point) => (Some (FoundPoint i point), map ProbePoint tp)
  | None =>
      let '(fl, tl) :=
        scan_down (isPointNearLine v x y) (lines mapData)
                  (List.length (lines mapData)) in
      match fl with
      | Some (i, line) =>
          (Some (FoundLine i line), map ProbePoint tp ++ map ProbeLine tl)
      | None =>
          let '(fg, tg) :=
            scan_down (isPointInPolygon v x y) (polygons mapData)
                      (List.length (polygons mapData)) in
          match fg with
          | Some (i, polygon) =>
              (Some (FoundPolygon i polygon),
               map ProbePoint tp ++ map ProbeLine tl ++ map ProbePolygon tg)
          | None =>
              (None,
               map ProbePoint tp ++ map ProbeLine tl ++ map ProbePolygon tg)
          end
      end
  end.

(** ** Viewport controller *)

Record MouseEvent := mkMouseEvent {
  clientX : R;
  clientY : R;
  deltaY : R
}.

(** The mutable closure state of the page: the view, the gesture flags, and
    the canvas origin that [canvas.getBoundingClientRect()] reports. *)
Record State := mkState {
  view : View;
  rect_left : R;
  rect_top : R;
  isDragging : bool;
  dragStart : option Pixel;
  dragCenterStart : option (R * R);
  touchStartDist : option R;
  touchStartZoom : option R
}.

Definition set_center (v : View) (c : R * R) : View :=
  mkView c (viewZoom v) (canvas_width v) (canvas_height v) (devicePixelRatio v).

Definition set_zoom (v : View) (z : R) : View :=
  mkView (viewCenter v) z (canvas_width v) (canvas_height v) (devicePixelRatio v).

Definition with_view (st : State) (v : View) : State :=
  mkState v (rect_left st) (rect_top st) (isDragging st) (dragStart st)
          (dragCenterStart st) (touchStartDist st) (touchStartZoom st).

Definition onMouseDown (e : MouseEvent) (st : State) : State :=
  mkState (view st) (rect_left st) (rect_top st)
          true (Some (mkPixel (clientX e) (clientY e)))
          (Some (viewCenter (view st)))
          (touchStartDist st) (touchStartZoom st).

(** The assignment to [viewCenter] shared by [onMouseMove] and
    [onTouchMove]: both deltas are read off the current view. *)
Definition panCenter (v : View) (start : R * R) (dx dy : R) : R * R :=
  let cw := canvas_width v / 2 / devicePixelRatio v in
  let ch := canvas_height v / 2 / devicePixelRatio v in
  let startLatLng := pixelToLatLng v cw ch in
  let endLatLng := pixelToLatLng v (cw - dx) (ch - dy) in
  (fst start - (ll_lat endLatLng - ll_lat startLatLng),
   snd start - (ll_lng endLatLng - ll_lng startLatLng)).

(** The dragging branch of [onMouseMove]; the other branch only updates the
    tooltip and leaves the state as it is.  With [dragCenterStart] null the
    source throws before it assigns, which also leaves the state. *)
Definition onMouseMove (e : MouseEvent) (st : State) : State :=
  match isDragging st, dragStart st with
  | true, Some ds =>
      let dx := clientX e - pix_x ds in
      let dy := clientY e - pix_y ds in
      match dragCenterStart st with
      | Some start => with_view st (set_center (view st) (panCenter (view st) start dx dy))
      | None => st
      end
  | _, _ => st
  end.

Definition onMouseUp (st : State) : State :=
  mkState (view st) (rect_left st) (rect_top st) false None None
          (touchStartDist st) (touchStartZoom st).

Definition onMouseLeave (st : State) : State :=
  mkState (view st) (rect_left st) (rect_top st) false (dragStart st)
          (dragCenterStart st) (touchStartDist st) (touchStartZoom st).

(** [while (cond(s)) s = body(s)], by fuel; [None] when the fuel runs out. *)
Fixpoint while_loop (fuel : nat) (cond : R -> bool) (body : R -> R) (s : R)
  : option R :=
  match fuel with
  | O => None
  | S fuel' => if cond s then while_loop fuel' cond body (body s) else Some s
  end.

Definition normalizeLng (fuel : nat) (lng : R) : option R :=
  match while_loop fuel (fun l => Rgtb l 180) (fun l => l - 360) lng with
  | Some lng1 => while_loop fuel (fun l => Rltb l (-180)) (fun l => l + 360) lng1
  | None => None
  end.

(** The two loops of [onWheel] that bring [targetLng] within 180 degrees of
    the view center's longitude. *)
Definition wrapTargetLng (fuel : nat) (centerLng targetLng : R) : option R :=
  match while_loop fuel (fun t => Rgtb (t - centerLng) 180)
                   (fun t => t - 360) targetLng with
  | Some t1 => while_loop fuel (fun t => Rltb (t - centerLng) (-180))
                          (fun t => t + 360) t1
  | None => None
  end.

(** [Math.max(1, Math.min(20, z))] *)
Definition clampZoom (z : R) : R := Rmax 1 (Rmin 20 z).

(** [e.deltaY > 0 ? -0.5 : 0.5] *)
Definition wheelDelta (e : MouseEvent) : R :=
  if Rgtb (deltaY e) 0 then -0.5 else 0.5.

(** The center that [onWheel] derives at the new zoom, before the latitude
    clamp and the longitude normalisation: [(newCenterLat, newCenterLng)]. *)
Definition wheelRawCenter (v : View) (newZoom mouseX mouseY : R)
  (targetLat targetLng : R) : R * R :=
  let canvasWidth := canvas_width v / devicePixelRatio v in
  let canvasHeight := canvas_height v / devicePixelRatio v in
  let scale := pow2 newZoom * TILE_SIZE in
  let targetWorldX := (targetLng + 180) / 360 * scale in
  let targetWorldY := mercatorY targetLat scale in
  let newCenterWorldX := targetWorldX - mouseX + canvasWidth / 2 in
  let newCenterWorldY := targetWorldY - mouseY + canvasHeight / 2 in
  let newCenterLng := newCenterWorldX / scale * 360 - 180 in
  let newCenterLat := inverseMercator newCenterWorldY scale in
  (newCenterLat, newCenterLng).

Definition onWheel (fuel : nat) (e : MouseEvent) (st : State) : option State :=
  let v := view st in
  let mouseX := clientX e - rect_left st in
  let mouseY := clientY e - rect_top st in
  let targetLatLng := pixelToLatLng v mouseX mouseY in
  match wrapTargetLng fuel (snd (viewCenter v)) (ll_lng targetLatLng) with
  | None => None
  | Some targetLng =>
      let delta := wheelDelta e in
      let newZoom := clampZoom (viewZoom v + delta) in
      if Reqb newZoom (viewZoom v) then Some st
      else
        let '(newCenterLat, newCenterLng) :=
          wheelRawCenter v newZoom mouseX mouseY (ll_lat targetLatLng) targetLng in
        let newCenterLat := Rmax (-85) (Rmin 85 newCenterLat) in
        match normalizeLng fuel newCenterLng with
        | None => None
        | Some newCenterLng =>
            Some (with_view st
                    (set_center (set_zoom v newZoom) (newCenterLat, newCenterLng)))
        end
  end.

Definition getTouchDistance (t0 t1 : Pixel) : R :=
  let dx := pix_x t0 - pix_x t1 in
  let dy := pix_y t0 - pix_y t1 in
  sqrt (dx * dx + dy * dy).

Definition setZoom (z : R) (st : State) : State :=
  with_view st (set_zoom (view st) (clampZoom z)).

(** [touches] lists the [(clientX, clientY)] of the active contacts. *)
Definition onTouchStart (touches : list Pixel) (st : State) : State :=
  match touches with
  | [t0] =>
      mkState (view st) (rect_left st) (rect_top st) true (Some t0)
              (Some (viewCenter (view st)))
              (touchStartDist st) (touchStartZoom st)
  | [t0; t1] =>
      mkState (view st) (rect_left st) (rect_top st) false (dragStart st)
              (dragCenterStart st)
              (Some (getTouchDistance t0 t1)) (Some (viewZoom (view st)))
  | _ => st
  end.

(** [Math.log2(x)] for [x > 0].  At 0 the source gets [-Infinity]; the one
    caller, [onTouchMove], treats that case apart. *)
Definition log2 (x : R) : R := ln x / ln 2.

Definition onTouchMove (touches : list Pixel) (st : State) : State :=
  match touches with
  | [t0] =>
      match isDragging st, dragStart st with
      | true, Some ds =>
          let dx := pix_x t0 - pix_x ds in
          let dy := pix_y t0 - pix_y ds in
          match dragCenterStart st with
          | Some start =>
              with_view st (set_center (view st) (panCenter (view st) start dx dy))
          | None => st
          end
      | _, _ => st
      end
  | [t0; t1] =>
      match touchStartDist st with
      | Some d0 =>
          if Reqb d0 0 then st
          else
            let dist := getTouchDistance t0 t1 in
            let scale := dist / d0 in
            let z0 := match touchStartZoom st with Some z => z | None => 0 end in
            (* the contacts coincide: Math.log2(0) is -Infinity, so is the
               sum, and setZoom leaves Math.max(1, -Infinity) = 1 *)
            if Reqb scale 0 then with_view st (set_zoom (view st) 1)
            else setZoom (z0 + log2 scale) st
      | None => st
      end
  | _ => st
  end.

Definition onTouchEnd (st : State) : State :=
  mkState (view st) (rect_left st) (rect_top st) false None
          (dragCenterStart st) None (touchStartZoom st).

(** ** Vocabulary of the statements *)

(** The indices [n-1, n-2, ..., i]. *)
Definition descending (n i : nat) : list nat := rev (seq i (n - i)).

(** The edges that the ray-casting loop visits: vertex [i] paired with its
    cyclic predecessor. *)
Definition ringEdges (ring : list Pixel) : list (Pixel * Pixel) :=
  match ring with
  | [] => []
  | p0 :: _ => combine ring (last ring p0 :: removelast ring)
  end.

(** How many edges the horizontal ray from the query point crosses. *)
Definition crossings (px py : R) (ring : list Pixel) : nat :=
  List.length (filter (fun e => edgeCrosses px py (fst e) (snd e)) (ringEdges ring)).

(** ** Concrete inputs *)

(** An 800x600 canvas at device pixel ratio 1, centered on [c] at zoom [z]. *)
Definition view800 (c : R * R) (z : R) : View := mkView c z 800 600 1.

Definition idle (v : View) : State := mkState v 0 0 false None None None None.

(** Scrolling up (zoom in) with the pointer at [(cx, cy)]. *)
Definition wheelUpAt (cx cy : R) : MouseEvent := mkMouseEvent cx cy (-1).

(** Two markers of radius 8 on the same spot, added in this order. *)
Definition markerA : Point := mkPoint 0 0 [("name"%string, "A"%string)] (mkPointStyle 8 2).
Definition markerB : Point := mkPoint 0 0 [("name"%string, "B"%string)] (mkPointStyle 8 2).
Definition twoMarkers : MapData := mkMapData [markerA; markerB] [] [].

(** The square ring with corners at latitude and longitude [a] and [-a]. *)
Definition squareRing (a : R) : list Coord :=
  [(a, - a); (a, a); (- a, a); (- a, - a)].

Definition polygonPlain : Polygon :=
  mkPolygon [squareRing 10] [] (mkPolygonStyle 2).

(** The same square with a square hole around its center. *)
Definition polygonHoled : Polygon :=
  mkPolygon [squareRing 10; squareRing 5] [] (mkPolygonStyle 2).

(** The idle view centered on (0, 0) at zoom 1. *)
Definition stateOrigin : State := idle (view800 (0, 0) 1).

(** A view whose center was panned one and a half turns west. *)
Definition stateWest : State := idle (view800 (0, -540) 1).



(** A drag in progress: the button went down at the canvas center (400, 300)
    with the view centered on (0, 0). *)
Definition stateDragging : State :=
  mkState (view800 (0, 0) 1) 0 0 true (Some (mkPixel 400 300)) (Some (0, 0))
          None None.

(** A drag that began at the canvas center with the view centered on
    longitude 179; the pointer is now 256 pixels to the right. *)
Definition stateDraggingEast : State :=
  mkState (view800 (0, 179) 1) 0 0 true (Some (mkPixel 400 300)) (Some (0, 179))
          None None.

Definition moveRight256 : MouseEvent := mkMouseEvent 656 300 0.

(** The pointer has moved 10 pixels to the right of where the drag began. *)
Definition moveRight10 : MouseEvent := mkMouseEvent 410 300 0.

(** ** The tile layer *)

(** The cache key [tileZoom + '/' + x + '/' + y], kept as its three
    numbers. *)
Record TileKey := mkTileKey { key_z : Z; key_x : Z; key_y : Z }.

Definition key_eqb (a b : TileKey) : bool :=
  (key_z a =? key_z b)%Z && (key_x a =? key_x b)%Z && (key_y a =? key_y b)%Z.

(** A tile that the loops of [drawTiles] address, with the square that
    [drawImage] puts it into once it is loaded. *)
Record TileDraw := mkTileDraw {
  draw_key : TileKey;
  draw_x : R;
  draw_y : R;
  draw_size : R
}.

(** The values of [i] in [for (let i = a; i <= b; i++)] *)
Definition zrange (a b : Z) : list Z :=
  map (fun i => (a + Z.of_nat i)%Z) (seq 0 (Z.to_nat (b - a + 1))).

(** The two loops of [drawTiles] up to the cache lookup: the tiles that get
    past the range check, in the order of the loops. *)
Definition tileLoop (v : View) (w h : R) : list TileDraw :=
  let centerPixel := getCenterPixel v in
  let tileZoom := Zfloor (viewZoom v) in
  let tileScale := pow2 (IZR tileZoom) in
  let fractionalScale := pow2 (viewZoom v - IZR tileZoom) in
  let scaledTileSize := TILE_SIZE * fractionalScale in
  let centerAtTileZoom :=
    mkPixel (pix_x centerPixel / fractionalScale)
            (pix_y centerPixel / fractionalScale) in
  let halfWidthInTiles := (w / 2) / scaledTileSize in
  let halfHeightInTiles := (h / 2) / scaledTileSize in
  let centerTileX := pix_x centerAtTileZoom / TILE_SIZE in
  let centerTileY := pix_y centerAtTileZoom / TILE_SIZE in
  let startX := Zfloor (centerTileX - halfWidthInTiles - 1) in
  let startY := Zfloor (centerTileY - halfHeightInTiles - 1) in
  let endX := Zceil (centerTileX + halfWidthInTiles + 1) in
  let endY := Zceil (centerTileY + halfHeightInTiles + 1) in
  flat_map
    (fun x =>
       flat_map
         (fun y =>
            if Rltb (IZR x) 0 || Rltb (IZR y) 0
               || Rleb tileScale (IZR x) || Rleb tileScale (IZR y)
            then []
            else
              let tileWorldX := IZR x * TILE_SIZE * fractionalScale in
              let tileWorldY := IZR y * TILE_SIZE * fractionalScale in
              let tileX := tileWorldX - pix_x centerPixel + w / 2 in
              let tileY := tileWorldY - pix_y centerPixel + h / 2 in
              [mkTileDraw (mkTileKey tileZoom x y) tileX tileY scaledTileSize])
         (zrange startY endY))
    (zrange startX endX).

(** The state that [drawTiles] works on: the keys of [tileCache] in the
    order of their insertion, the keys whose image source has been set (the
    requests sent), and the squares drawn. *)
Record Tiles := mkTiles {
  tileCache : list TileKey;
  requested : list TileKey;
  drawn : list TileDraw
}.

(** The rest of the loop body; [loaded] tells whether the image of a key is
    complete with a positive width at this moment. *)
Definition visitTile (loaded : TileKey -> bool) (t : Tiles) (d : TileDraw)
  : Tiles :=
  let fresh := negb (existsb (key_eqb (draw_key d)) (tileCache t)) in
  mkTiles (if fresh then tileCache t ++ [draw_key d] else tileCache t)
          (if fresh then requested t ++ [draw_key d] else requested t)
          (if loaded (draw_key d) then drawn t ++ [d] else drawn t).

Definition drawTiles (loaded : TileKey -> bool) (v : View) (w h : R)
  (t : Tiles) : Tiles :=
  fold_left (visitTile loaded) (tileLoop v w h) t.

(** [drawTiles(w, h)] as [render] calls it. *)
Definition renderTiles (loaded : TileKey -> bool) (v : View) (t : Tiles)
  : Tiles :=
  drawTiles loaded v (canvas_width v / devicePixelRatio v)
            (canvas_height v / devicePixelRatio v) t.

(** The tile coordinates of a location at the integer zoom [z]: the tile
    [(x, y)] of the pyramid holds the locations whose tile coordinates lie
    in [[x, x + 1) x [y, y + 1)]. *)
Definition tileCoords (z : Z) (lat lng : R) : R * R :=
  ((lng + 180) / 360 * pow2 (IZR z), mercatorY lat (pow2 (IZR z))).

(** A run of renderings: each with the view it draws and the images that
    are loaded by then.  The cache starts empty. *)
Definition noTiles : Tiles := mkTiles [] [] [].

Definition renderFrames (frames : list ((TileKey -> bool) * View)) (t : Tiles)
  : Tiles :=
  fold_left (fun t f => renderTiles (fst f) (snd f) t) frames t.

(** The key names a tile of the pyramid. *)
Definition validKey (k : TileKey) : Prop :=
  0 <= IZR (key_x k) < pow2 (IZR (key_z k)) /\
  0 <= IZR (key_y k) < pow2 (IZR (key_z k)).

(** ** Drags *)

(** The center latitude is strictly between the poles, where
    [Math.tan(latRad) + 1 / Math.cos(latRad)] is positive and the projection
    of the center is a number. *)
Definition latitudeValid (st : State) : Prop :=
  -90 < fst (viewCenter (view st)) < 90.

(** The states that a run of pointer moves goes through, the first and the
    last included. *)
Fixpoint dragStates (moves : list MouseEvent) (st : State) : list State :=
  st :: match moves with
        | [] => []
        | e :: moves' => dragStates moves' (onMouseMove e st)
        end.

End Js.

(** * The ingestion half ([class HtmlExport]) *)

Module Py.

Local Open Scope string_scope.
Local Open Scope Q_scope.

(** ** Python values *)

(** The values a caller can put into a feature dict.  Dicts keep insertion
    order and have string keys. *)
#[warnings="-register-all"]
Inductive PyVal :=
| PyNone
| PyBool (b : bool)
| PyInt (z : Z)
| PyFloat (q : Q)
| PyStr (s : string)
| PyList (l : list PyVal)
| PyTuple (l : list PyVal)
| PyDict (d : list (string * PyVal)).

Definition Dict := list (string * PyVal).

Inductive PyErr := IndexError | TypeError | ValueError.

(** [d[k]] for a key that may be absent *)
Fixpoint lookup (k : string) (d : Dict) : option PyVal :=
  match d with
  | [] => None
  | (k', v) :: d' => if String.eqb k k' then Some v else lookup k d'
  end.

(** [d.get(k)] *)
Definition dict_get (d : Dict) (k : string) : PyVal :=
  match lookup k d with
  | Some v => v
  | None => PyNone
  end.

Definition is_none (v : PyVal) : bool :=
  match v with PyNone => true | _ => false end.

(** Python truth value *)
Definition truthy (v : PyVal) : bool :=
  match v with
  | PyNone => false
  | PyBool b => b
  | PyInt z => negb (Z.eqb z 0)
  | PyFloat q => negb (Qeq_bool q 0)
  | PyStr s => negb (String.eqb s "")
  | PyList l => match l with [] => false | _ => true end
  | PyTuple l => match l with [] => false | _ => true end
  | PyDict d => match d with [] => false | _ => true end
  end.

(** [a or b] *)
Definition py_or (a b : PyVal) : PyVal := if truthy a then a else b.

(** [isinstance(v, list)] *)
Definition is_list (v : PyVal) : bool :=
  match v with PyList _ => true | _ => false end.

(** ** Stored data *)

Record Bounds := mkBounds {
  min_lat : Q;
  max_lat : Q;
  min_lng : Q;
  max_lng : Q
}.

(** The feature dicts appended to [_points], [_lines] and [_polygons];
    [style] is the dict that the adding method builds from its keyword
    arguments. *)
Record PointFeature := mkPointFeature {
  pt_lat : Q;
  pt_lng : Q;
  pt_properties : Dict;
  pt_style : Dict
}.

Record LineFeature := mkLineFeature {
  ln_coords : list (Q * Q);
  ln_properties : Dict;
  ln_style : Dict
}.

Record PolygonFeature := mkPolygonFeature {
  pg_rings : list (list (Q * Q));
  pg_properties : Dict;
  pg_style : Dict
}.

(** What [print] is called with. *)
Inductive Diag :=
| PointMissingLatLng (point : Dict)
| LineMissingCoords (line : Dict)
| PolygonMissingCoords (polygon : Dict)
| PolygonNoValidRings (polygon : Dict)
| PolygonTooFewCoords (polygon : Dict).

(** The instance attributes, with the text written to standard output. *)
Record HtmlExport := mkHtmlExport {
  _points : list PointFeature;
  _lines : list LineFeature;
  _polygons : list PolygonFeature;
  _bounds : option Bounds;
  stdout : list Diag
}.

Definition init : HtmlExport := mkHtmlExport [] [] [] None [].

Definition print (d : Diag) (self : HtmlExport) : HtmlExport :=
  mkHtmlExport (_points self) (_lines self) (_polygons self) (_bounds self)
               (stdout self ++ [d]).

(** [min(a, b)] and [max(a, b)] as Python computes them: the first argument
    is kept unless the second compares strictly better. *)
Definition py_min (a b : Q) : Q := if Qlt_le_dec b a then b else a.
Definition py_max (a b : Q) : Q := if Qlt_le_dec a b then b else a.

Definition _update_bounds (bounds : option Bounds) (lat lng : Q) : option Bounds :=
  match bounds with
  | None => Some (mkBounds lat lat lng lng)
  | Some b =>
      Some (mkBounds (py_min (min_lat b) lat) (py_max (max_lat b) lat)
                     (py_min (min_lng b) lng) (py_max (max_lng b) lng))
  end.

Definition update_bounds_self (self : HtmlExport) (lat lng : Q) : HtmlExport :=
  mkHtmlExport (_points self) (_lines self) (_polygons self)
               (_update_bounds (_bounds self) lat lng) (stdout self).

Definition clear (self : HtmlExport) : HtmlExport :=
  mkHtmlExport [] [] [] None (stdout self).

(** [{k: v for k, v in d.items() if k not in keys}] *)
Definition without_keys (keys : list string) (d : Dict) : Dict :=
  filter (fun kv => negb (existsb (String.eqb (fst kv)) keys)) d.

(** The loop [for key in keys: if key in point and point[key] is not None:
    value = point[key]; break], starting from [None]. *)
Fixpoint first_not_none (keys : list string) (point : Dict) : PyVal :=
  match keys with
  | [] => PyNone
  | key :: keys' =>
      match lookup key point with
      | Some v => if is_none v then first_not_none keys' point else v
      | None => first_not_none keys' point
      end
  end.

Section Ingestion.

(** Python's parser of float literals in strings, [float(s)] for a [str];
    [None] stands for [ValueError]. *)
Variable float_of_str : string -> option Q.

(** [float(v)], with the float it returns as the rational it stands for.
    This is what the source computes for a bool, a float, an int within
    [+-2^53], a value that [float] rejects, and a string that reads as a
    finite number.  Beyond that the source rounds an int to the nearest
    float, raises [OverflowError] for an int outside the float range, and
    returns [nan] or an infinity for a string that spells one. *)
Definition py_float (v : PyVal) : PyErr + Q :=
  match v with
  | PyBool b => inr (if b then 1 else 0)
  | PyInt z => inr (inject_Z z)
  | PyFloat q => inr q
  | PyStr s => match float_of_str s with Some q => inr q | None => inl ValueError end
  | _ => inl TypeError
  end.

(** [[float(coord[0]), float(coord[1])]] *)
Definition float_pair (l : list PyVal) : PyErr + (Q * Q) :=
  match l with
  | [] => inl IndexError
  | c0 :: l' =>
      match py_float c0 with
      | inl e => inl e
      | inr f0 =>
          match l' with
          | [] => inl IndexError
          | c1 :: _ =>
              match py_float c1 with
              | inl e => inl e
              | inr f1 => inr (f0, f1)
              end
          end
      end
  end.

(** One iteration of the loop of [_normalize_coords]. *)
Definition normalize_coord (coord : PyVal) : PyErr + (Q * Q) :=
  match coord with
  | PyList l => float_pair l
  | PyTuple l => float_pair l
  | PyDict d =>
      let lat := py_or (py_or (dict_get d "lat") (dict_get d "latitude"))
                       (dict_get d "y") in
      let lng := py_or (py_or (dict_get d "lng") (dict_get d "longitude"))
                       (dict_get d "x") in
      if negb (is_none lat) && negb (is_none lng) then
        match py_float lat with
        | inl e => inl e
        | inr flat =>
            match py_float lng with
            | inl e => inl e
            | inr flng => inr (flat, flng)
            end
        end
      else inr (0, 0)
  | _ => inr (0, 0)
  end.

Fixpoint _normalize_coords (coords : list PyVal) : PyErr + list (Q * Q) :=
  match coords with
  | [] => inr []
  | coord :: coords' =>
      match normalize_coord coord with
      | inl e => inl e
      | inr c =>
          match _normalize_coords coords' with
          | inl e => inl e
          | inr cs => inr (c :: cs)
          end
      end
  end.

(** ** [add_points] *)

Definition lat_keys : list string := ["lat"; "latitude"; "y"].
Definition lng_keys : list string := ["lng"; "longitude"; "lon"; "x"].
Definition point_coord_keys : list string :=
  ["lat"; "latitude"; "lng"; "longitude"; "lon"; "x"; "y"].

Definition append_point (f : PointFeature) (self : HtmlExport) : HtmlExport :=
  mkHtmlExport (_points self ++ [f]) (_lines self) (_polygons self)
               (_bounds self) (stdout self).

(** The loop of [add_points]; the second component is the exception that
    ended it, if one was raised. *)
Fixpoint add_points (style : Dict) (points : list Dict) (self : HtmlExport)
  : HtmlExport * option PyErr :=
  match points with
  | [] => (self, None)
  | point :: points' =>
      let lat := first_not_none lat_keys point in
      let lng := first_not_none lng_keys point in
      if is_none lat || is_none lng then
        add_points style points' (print (PointMissingLatLng point) self)
      else
        let properties := without_keys point_coord_keys point in
        match py_float lat with
        | inl e => (self, Some e)
        | inr flat =>
            match py_float lng with
            | inl e => (self, Some e)
            | inr flng =>
                let self1 :=
                  append_point (mkPointFeature flat flng properties style) self in
                add_points style points' (update_bounds_self self1 flat flng)
            end
        end
  end.

(** ** [add_lines] *)

Definition line_coord_keys : list string :=
  ["coords"; "coordinates"; "path"; "latlngs"].

(** [line.get('coords') or line.get('coordinates') or line.get('path') or
    line.get('latlngs')] *)
Definition line_coords_of (line : Dict) : PyVal :=
  py_or (py_or (py_or (dict_get line "coords") (dict_get line "coordinates"))
               (dict_get line "path"))
        (dict_get line "latlngs").

Definition append_line (f : LineFeature) (self : HtmlExport) : HtmlExport :=
  mkHtmlExport (_points self) (_lines self ++ [f]) (_polygons self)
               (_bounds self) (stdout self).

(** [for coord in coords: self._update_bounds(coord[0], coord[1])] *)
Definition update_bounds_all (coords : list (Q * Q)) (self : HtmlExport)
  : HtmlExport :=
  fold_left (fun s c => update_bounds_self s (fst c) (snd c)) coords self.

Fixpoint add_lines (style : Dict) (lines : list Dict) (self : HtmlExport)
  : HtmlExport * option PyErr :=
  match lines with
  | [] => (self, None)
  | line :: lines' =>
      let coords := line_coords_of line in
      match coords with
      | PyList l =>
          if negb (truthy coords) || (List.length l <? 2)%nat then
            add_lines style lines' (print (LineMissingCoords line) self)
          else
            match _normalize_coords l with
            | inl e => (self, Some e)
            | inr normalized_coords =>
                let properties := without_keys line_coord_keys line in
                let self1 :=
                  append_line (mkLineFeature normalized_coords properties style)
                              self in
                add_lines style lines' (update_bounds_all normalized_coords self1)
            end
      | _ => add_lines style lines' (print (LineMissingCoords line) self)
      end
  end.

(** ** [add_polygons] *)

Definition polygon_coord_keys : list string :=
  ["coords"; "coordinates"; "ring"; "latlngs"].

Definition polygon_coords_of (polygon : Dict) : PyVal :=
  py_or (py_or (py_or (dict_get polygon "coords") (dict_get polygon "coordinates"))
               (dict_get polygon "ring"))
        (dict_get polygon "latlngs").

(** [isinstance(coords[0], list) and len(coords[0]) > 0 and
    isinstance(coords[0][0], list)], for a non-empty [coords] *)
Definition is_multi_ring (coords : list PyVal) : bool :=
  match coords with
  | PyList (PyList _ :: _) :: _ => true
  | _ => false
  end.

(** [[ring for ring in coords if isinstance(ring, list) and len(ring) >= 3]],
    each ring given by its elements *)
Fixpoint valid_rings (coords : list PyVal) : list (list PyVal) :=
  match coords with
  | [] => []
  | PyList ring :: coords' =>
      if (3 <=? List.length ring)%nat then ring :: valid_rings coords'
      else valid_rings coords'
  | _ :: coords' => valid_rings coords'
  end.

(** [[self._normalize_coords(ring) for ring in valid_rings]] *)
Fixpoint normalize_rings (rs : list (list PyVal)) : PyErr + list (list (Q * Q)) :=
  match rs with
  | [] => inr []
  | ring :: rs' =>
      match _normalize_coords ring with
      | inl e => inl e
      | inr r =>
          match normalize_rings rs' with
          | inl e => inl e
          | inr out => inr (r :: out)
          end
      end
  end.

Definition append_polygon (f : PolygonFeature) (self : HtmlExport) : HtmlExport :=
  mkHtmlExport (_points self) (_lines self) (_polygons self ++ [f])
               (_bounds self) (stdout self).

(** [for ring in rings: for coord in ring: self._update_bounds(...)] *)
Definition update_bounds_rings (rs : list (list (Q * Q))) (self : HtmlExport)
  : HtmlExport :=
  fold_left (fun s ring => update_bounds_all ring s) rs self.

(** What one polygon dict leads to, before anything is stored. *)
Inductive PolygonStep :=
| SkipPolygon (d : Diag)
| RaisePolygon (e : PyErr)
| StorePolygon (rs : list (list (Q * Q))).

Definition polygon_step (polygon : Dict) : PolygonStep :=
  let coords := polygon_coords_of polygon in
  match coords with
  | PyList l =>
      if negb (truthy coords) || (List.length l =? 0)%nat then
        SkipPolygon (PolygonMissingCoords polygon)
      else if is_multi_ring l then
        match valid_rings l with
        | [] => SkipPolygon (PolygonNoValidRings polygon)
        | vr =>
            match normalize_rings vr with
            | inl e => RaisePolygon e
            | inr rs => StorePolygon rs
            end
        end
      else if (List.length l <? 3)%nat then
        SkipPolygon (PolygonTooFewCoords polygon)
      else
        match _normalize_coords l with
        | inl e => RaisePolygon e
        | inr r => StorePolygon [r]
        end
  | _ => SkipPolygon (PolygonMissingCoords polygon)
  end.

Fixpoint add_polygons (style : Dict) (polygons : list Dict) (self : HtmlExport)
  : HtmlExport * option PyErr :=
  match polygons with
  | [] => (self, None)
  | polygon :: polygons' =>
      match polygon_step polygon with
      | SkipPolygon d => add_polygons style polygons' (print d self)
      | RaisePolygon e => (self, Some e)
      | StorePolygon rs =>
          let properties := without_keys polygon_coord_keys polygon in
          let self1 :=
            append_polygon (mkPolygonFeature rs properties style) self in
          add_polygons style polygons' (update_bounds_rings rs self1)
      end
  end.

(** ** Vocabulary of the statements *)

(** None of the keys is present with a value other than [None]. *)
Definition unresolvable (keys : list string) (d : Dict) : Prop :=
  forall k, In k keys -> dict_get d k = PyNone.

Definition point_defect (point : Dict) : Prop :=
  unresolvable lat_keys point \/ unresolvable lng_keys point.

(** Both coordinates resolve to values that [float] accepts. *)
Definition point_valid (point : Dict) (lat lng : Q) : Prop :=
  py_float (first_not_none lat_keys point) = inr lat /\
  py_float (first_not_none lng_keys point) = inr lng.

(** The coordinates are missing, not a list, or a list of fewer than two. *)
Definition line_defect (line : Dict) : Prop :=
  forall l, line_coords_of line = PyList l -> (List.length l < 2)%nat.

Definition line_valid (line : Dict) (cs : list (Q * Q)) : Prop :=
  exists l, line_coords_of line = PyList l /\ (2 <= List.length l)%nat /\
            _normalize_coords l = inr cs.

(** No ring of at least three points, with the diagnostic that the source
    prints in each case. *)
Definition polygon_defect (polygon : Dict) (d : Diag) : Prop :=
  (d = PolygonMissingCoords polygon /\
   forall l, polygon_coords_of polygon = PyList l -> l = []) \/
  (d = PolygonNoValidRings polygon /\
   exists l, polygon_coords_of polygon = PyList l /\ is_multi_ring l = true /\
             Forall (fun r => forall ring, r = PyList ring ->
                                           (List.length ring < 3)%nat) l) \/
  (d = PolygonTooFewCoords polygon /\
   exists l, polygon_coords_of polygon = PyList l /\ l <> [] /\
             is_multi_ring l = false /\ (List.length l < 3)%nat).

Definition polygon_valid (polygon : Dict) (rs : list (list (Q * Q))) : Prop :=
  exists l, polygon_coords_of polygon = PyList l /\
    ((is_multi_ring l = true /\ valid_rings l <> [] /\
      normalize_rings (valid_rings l) = inr rs) \/
     (is_multi_ring l = false /\ (3 <= List.length l)%nat /\
      exists r, _normalize_coords l = inr r /\ rs = [r])).

(** What a batch of defective and valid features leaves: the features to
    store and the diagnostics to print, both in batch order. *)
Inductive points_outcome (style : Dict)
  : list Dict -> list PointFeature -> list Diag -> Prop :=
| points_nil : points_outcome style [] [] []
| points_skip point batch fs ds :
    point_defect point -> points_outcome style batch fs ds ->
    points_outcome style (point :: batch) fs (PointMissingLatLng point :: ds)
| points_store point lat lng batch fs ds :
    point_valid point lat lng -> points_outcome style batch fs ds ->
    points_outcome style (point :: batch)
      (mkPointFeature lat lng (without_keys point_coord_keys point) style :: fs) ds.

Inductive lines_outcome (style : Dict)
  : list Dict -> list LineFeature -> list Diag -> Prop :=
| lines_nil : lines_outcome style [] [] []
| lines_skip line batch fs ds :
    line_defect line -> lines_outcome style batch fs ds ->
    lines_outcome style (line :: batch) fs (LineMissingCoords line :: ds)
| lines_store line cs batch fs ds :
    line_valid line cs -> lines_outcome style batch fs ds ->
    lines_outcome style (line :: batch)
      (mkLineFeature cs (without_keys line_coord_keys line) style :: fs) ds.

Inductive polygons_outcome (style : Dict)
  : list Dict -> list PolygonFeature -> list Diag -> Prop :=
| polygons_nil : polygons_outcome style [] [] []
| polygons_skip polygon d batch fs ds :
    polygon_defect polygon d -> polygons_outcome style batch fs ds ->
    polygons_outcome style (polygon :: batch) fs (d :: ds)
| polygons_store polygon rs batch fs ds :
    polygon_valid polygon rs -> polygons_outcome style batch fs ds ->
    polygons_outcome style (polygon :: batch)
      (mkPolygonFeature rs (without_keys polygon_coord_keys polygon) style :: fs) ds.

End Ingestion.

(** The bounds after the coordinates [cs] have been seen, in order. *)
Definition bounds_after (cs : list (Q * Q)) (b : option Bounds) : option Bounds :=
  fold_left (fun b c => _update_bounds b (fst c) (snd c)) cs b.

Definition point_coords (fs : list PointFeature) : list (Q * Q) :=
  map (fun f => (pt_lat f, pt_lng f)) fs.

Definition line_coords (fs : list LineFeature) : list (Q * Q) :=
  flat_map ln_coords fs.

Definition polygon_coords (fs : list PolygonFeature) : list (Q * Q) :=
  flat_map (fun f => List.concat (pg_rings f)) fs.

(** [b'] covers at least what [b] covers. *)
Definition widened (b b' : Bounds) : Prop :=
  min_lat b' <= min_lat b /\ max_lat b <= max_lat b' /\
  min_lng b' <= min_lng b /\ max_lng b <= max_lng b'.

Definition bounds_widen (o o' : option Bounds) : Prop :=
  match o, o' with
  | None, _ => True
  | Some b, Some b' => widened b b'
  | Some _, None => False
  end.

(** [v == 0] for the numeric values *)
Definition is_zero (v : PyVal) : bool :=
  match v with
  | PyInt z => Z.eqb z 0
  | PyFloat q => Qeq_bool q 0
  | PyBool b => negb b
  | _ => false
  end.

(** ** Concrete inputs *)

(** A string parser that accepts nothing; the examples hold no strings. *)
Definition no_strings (s : string) : option Q := None.

Definition point_at (lat lng : Z) : Dict :=
  [("lat", PyInt lat); ("lng", PyInt lng)].

(** [{'lat': 0, 'y': 0, 'lng': 7}] *)
Definition coord_zero_lat : PyVal :=
  PyDict [("lat", PyInt 0); ("y", PyInt 0); ("lng", PyInt 7)].

(** [{'y': 0, 'x': 7}] *)
Definition coord_zero_y : PyVal :=
  PyDict [("y", PyInt 0); ("x", PyInt 7)].

(** ** [_calculate_auto_zoom] and the view that [generate] hands over *)

Definition _calculate_auto_zoom (bounds : Bounds) : Z :=
  let lat_diff := max_lat bounds - min_lat bounds in
  let lng_diff := max_lng bounds - min_lng bounds in
  let max_diff := py_max lat_diff lng_diff in
  if Qeq_bool max_diff 0 then 15%Z
  else if Qlt_le_dec max_diff (1 # 100) then 16%Z
  else if Qlt_le_dec max_diff (5 # 100) then 14%Z
  else if Qlt_le_dec max_diff (1 # 10) then 13%Z
  else if Qlt_le_dec max_diff (1 # 2) then 11%Z
  else if Qlt_le_dec max_diff 1 then 10%Z
  else if Qlt_le_dec max_diff 5 then 8%Z
  else if Qlt_le_dec max_diff 10 then 6%Z
  else if Qlt_le_dec max_diff 50 then 4%Z
  else 2%Z.

(** [{'min_lat': 0, 'max_lat': 0, 'min_lng': 0, 'max_lng': 0}] *)
Definition default_bounds : Bounds := mkBounds 0 0 0 0.

(** The [center], [zoom] and [bounds] that [generate] computes and passes to
    [_generate_html]; [center] and [zoom] are [self._options['center']] and
    [self._options['zoom']]. *)
Definition generate_view (center zoom : PyVal) (self : HtmlExport)
  : PyVal * PyVal * Bounds :=
  let bounds := match _bounds self with Some b => b | None => default_bounds end in
  let center :=
    py_or center
          (PyList [PyFloat ((min_lat bounds + max_lat bounds) / 2);
                   PyFloat ((min_lng bounds + max_lng bounds) / 2)]) in
  let zoom :=
    if is_none zoom then PyInt (_calculate_auto_zoom bounds) else zoom in
  (center, zoom, bounds).

(** ** Sequences of calls *)

(** The mutating methods, as a caller invokes them one after the other; a
    call that raises leaves the instance as it was when the exception
    occurred. *)
Inductive Op :=
| OpAddPoints (style : Dict) (points : list Dict)
| OpAddLines (style : Dict) (lines : list Dict)
| OpAddPolygons (style : Dict) (polygons : list Dict)
| OpClear.

Definition apply_op (float_of_str : string -> option Q) (op : Op)
  (self : HtmlExport) : HtmlExport :=
  match op with
  | OpAddPoints style points => fst (add_points float_of_str style points self)
  | OpAddLines style lines => fst (add_lines float_of_str style lines self)
  | OpAddPolygons style polygons =>
      fst (add_polygons float_of_str style polygons self)
  | OpClear => clear self
  end.

Definition run (float_of_str : string -> option Q) (ops : list Op)
  (self : HtmlExport) : HtmlExport :=
  fold_left (fun s op => apply_op float_of_str op s) ops self.

(** ** More vocabulary *)

(** Every coordinate the instance stores. *)
Definition all_coords (self : HtmlExport) : list (Q * Q) :=
  point_coords (_points self) ++ line_coords (_lines self)
  ++ polygon_coords (_polygons self).

Definition inside (b : Bounds) (c : Q * Q) : Prop :=
  min_lat b <= fst c /\ fst c <= max_lat b /\
  min_lng b <= snd c /\ snd c <= max_lng b.

(** The attributes other than the printed text. *)
Definition stored (self : HtmlExport)
  : list PointFeature * list LineFeature * list PolygonFeature * option Bounds :=
  (_points self, _lines self, _polygons self, _bounds self).

(** Neither a list, a tuple nor a dict. *)
Definition is_junk (v : PyVal) : bool :=
  match v with
  | PyList _ | PyTuple _ | PyDict _ => false
  | _ => true
  end.

(** The span that [_calculate_auto_zoom] looks at. *)
Definition span (b : Bounds) : Q :=
  py_max (max_lat b - min_lat b) (max_lng b - min_lng b).

(** Minima do not exceed maxima. *)
Definition bounds_wf (o : option Bounds) : Prop :=
  forall b, o = Some b -> min_lat b <= max_lat b /\ min_lng b <= max_lng b.

(** The bounds exist and contain each of [cs]. *)
Definition covers (o : option Bounds) (cs : list (Q * Q)) : Prop :=
  forall c, In c cs -> exists b, o = Some b /\ inside b c.

(** The invariant: the bounds are ordered and contain every stored
    coordinate. *)
Definition sound (self : HtmlExport) : Prop :=
  bounds_wf (_bounds self) /\ covers (_bounds self) (all_coords self).

(** ** Features on which an adding method raises *)

Section Raising.

Variable float_of_str : string -> option Q.

(** Both coordinates of the point resolve, and [float] rejects the
    latitude, or accepts it and rejects the longitude. *)
Definition point_raises (point : Dict) (e : PyErr) : Prop :=
  is_none (first_not_none lat_keys point) = false /\
  is_none (first_not_none lng_keys point) = false /\
  (py_float float_of_str (first_not_none lat_keys point) = inl e \/
   (exists q, py_float float_of_str (first_not_none lat_keys point) = inr q) /\
   py_float float_of_str (first_not_none lng_keys point) = inl e).

(** The line has a list of at least two coordinates, one of which
    [_normalize_coords] cannot convert. *)
Definition line_raises (line : Dict) (e : PyErr) : Prop :=
  exists l, line_coords_of line = PyList l /\ (2 <= List.length l)%nat /\
            _normalize_coords float_of_str l = inl e.

Definition polygon_raises (polygon : Dict) (e : PyErr) : Prop :=
  exists l, polygon_coords_of polygon = PyList l /\
    ((is_multi_ring l = true /\
      normalize_rings float_of_str (valid_rings l) = inl e) \/
     (is_multi_ring l = false /\ (3 <= List.length l)%nat /\
      _normalize_coords float_of_str l = inl e)).

End Raising.

(** [{'lat': 'north', 'lng': 0}] *)
Definition point_unparsable : Dict :=
  [("lat", PyStr "north"); ("lng", PyInt 0)].

(** [{'coords': [40.7, -74.0, 40.8, -73.9]}]: the coordinates given flat *)
Definition flat_line : Dict :=
  [("coords", PyList [PyFloat (407 # 10); PyFloat (-740 # 10);
                      PyFloat (408 # 10); PyFloat (-739 # 10)])].

(** [{'lat': 1, 'lng': 2}] *)
Definition coord_dict (lat lng : Z) : PyVal :=
  PyDict [("lat", PyInt lat); ("lng", PyInt lng)].

(** [[{'lat': a, 'lng': a}, {'lat': a, 'lng': a + 1}, {'lat': a + 1, 'lng': a}]] *)
Definition dict_ring (a : Z) : PyVal :=
  PyList [coord_dict a a; coord_dict a (a + 1); coord_dict (a + 1) a].

(** A polygon with an outer ring and [holes] further rings, its coordinates
    in dict form. *)
Definition dict_polygon (holes : nat) : Dict :=
  [("coords", PyList (dict_ring 0 :: repeat (dict_ring 10) holes))].

(** ** GeoJSON *)

(** What [add_geojson] can raise: the exceptions of the adding methods, and
    two that only the walk over the GeoJSON value raises. *)
Inductive GeoErr := Raised (e : PyErr) | AttributeError | KeyError.

(** [v.get(k, default)]; only a dict has the method *)
Definition py_get (v : PyVal) (k : string) (default : PyVal) : GeoErr + PyVal :=
  match v with
  | PyDict d => inr (match lookup k d with Some x => x | None => default end)
  | _ => inl AttributeError
  end.

(** [v[i]] for the index [i], 0 or 1: a dict has no such key *)
Definition subscript (v : PyVal) (i : nat) : GeoErr + PyVal :=
  match v with
  | PyList l | PyTuple l =>
      match nth_error l i with
      | Some x => inr x
      | None => inl (Raised IndexError)
      end
  | PyStr s =>
      match String.get i s with
      | Some c => inr (PyStr (String c EmptyString))
      | None => inl (Raised IndexError)
      end
  | PyDict _ => inl KeyError
  | _ => inl (Raised TypeError)
  end.

(** The values that [for x in v] runs through: the elements of a list or
    tuple, the characters of a string, the keys of a dict. *)
Definition iterate (v : PyVal) : GeoErr + list PyVal :=
  match v with
  | PyList l | PyTuple l => inr l
  | PyStr s =>
      inr (map (fun c => PyStr (String c EmptyString)) (list_ascii_of_string s))
  | PyDict d => inr (map (fun kv => PyStr (fst kv)) d)
  | _ => inl (Raised TypeError)
  end.

(** [v == s] for a string literal [s] *)
Definition str_eq (v : PyVal) (s : string) : bool :=
  match v with
  | PyStr t => String.eqb t s
  | _ => false
  end.

(** [**v] inside a dict display *)
Definition as_mapping (v : PyVal) : GeoErr + Dict :=
  match v with
  | PyDict d => inr d
  | _ => inl (Raised TypeError)
  end.

(** [d[k] = v]: a key that is present keeps its place *)
Fixpoint dict_set (k : string) (v : PyVal) (d : Dict) : Dict :=
  match d with
  | [] => [(k, v)]
  | (k', v') :: d' =>
      if String.eqb k k' then (k, v) :: d' else (k', v') :: dict_set k v d'
  end.

(** [{**d, **extra}] *)
Definition dict_update (d extra : Dict) : Dict :=
  fold_left (fun d kv => dict_set (fst kv) (snd kv) d) extra d.

(** The keyword parameters of the adding methods with their defaults, in the
    order of the style dict that each method builds. *)
Definition point_style_defaults : Dict :=
  [("color", PyStr "#3388ff"); ("radius", PyInt 8); ("stroke", PyStr "#ffffff");
   ("stroke_width", PyInt 2); ("opacity", PyInt 1); ("tooltip_fields", PyNone);
   ("tooltip_template", PyNone); ("label_field", PyNone)].

Definition line_style_defaults : Dict :=
  [("stroke", PyStr "#3388ff"); ("stroke_width", PyInt 3);
   ("stroke_opacity", PyInt 1); ("stroke_dasharray", PyNone);
   ("tooltip_fields", PyNone); ("tooltip_template", PyNone)].

Definition polygon_style_defaults : Dict :=
  [("fill", PyStr "#3388ff"); ("fill_opacity", PyFloat (3 # 10));
   ("stroke", PyStr "#3388ff"); ("stroke_width", PyInt 2);
   ("stroke_opacity", PyInt 1); ("tooltip_fields", PyNone);
   ("tooltip_template", PyNone)].

(** The style dict of a call [method(batch, **kwargs)]: a keyword that is
    not a parameter of the method (or names [self] or the batch, which are
    given already) makes the call raise before its body runs. *)
Definition bind_style (defaults kwargs : Dict) : PyErr + Dict :=
  if forallb (fun kv => existsb (String.eqb (fst kv)) (map fst defaults)) kwargs
  then inr (map (fun kd => (fst kd, match lookup (fst kd) kwargs with
                                    | Some v => v
                                    | None => snd kd
                                    end)) defaults)
  else inl TypeError.

(** [[f(x) for x in l]], stopping at the first exception *)
Fixpoint map_err {A B : Type} (f : A -> GeoErr + B) (l : list A)
  : GeoErr + list B :=
  match l with
  | [] => inr []
  | x :: l' =>
      match f x with
      | inl e => inl e
      | inr y =>
          match map_err f l' with
          | inl e => inl e
          | inr ys => inr (y :: ys)
          end
      end
  end.

(** [[c[1], c[0]]] *)
Definition swap_pair (c : PyVal) : GeoErr + PyVal :=
  match subscript c 1 with
  | inl e => inl e
  | inr c1 =>
      match subscript c 0 with
      | inl e => inl e
      | inr c0 => inr (PyList [c1; c0])
      end
  end.

(** [[[c[1], c[0]] for c in coords]] *)
Definition swap_pairs (coords : PyVal) : GeoErr + PyVal :=
  match iterate coords with
  | inl e => inl e
  | inr cs =>
      match map_err swap_pair cs with
      | inl e => inl e
      | inr l => inr (PyList l)
      end
  end.

(** [[[[c[1], c[0]] for c in ring] for ring in coords]] *)
Definition swap_rings (coords : PyVal) : GeoErr + PyVal :=
  match iterate coords with
  | inl e => inl e
  | inr rings =>
      match map_err swap_pairs rings with
      | inl e => inl e
      | inr l => inr (PyList l)
      end
  end.

(** A [for] loop whose body may raise. *)
Fixpoint for_each {A : Type}
  (body : A -> HtmlExport -> HtmlExport * option GeoErr)
  (items : list A) (self : HtmlExport) : HtmlExport * option GeoErr :=
  match items with
  | [] => (self, None)
  | x :: items' =>
      match body x self with
      | (self', None) => for_each body items' self'
      | r => r
      end
  end.

Section GeoJson.

Variable float_of_str : string -> option Q.

(** [self.add_points(points, **kwargs)] and its two siblings *)
Definition call_add_points (kwargs : Dict) (points : list Dict)
  (self : HtmlExport) : HtmlExport * option GeoErr :=
  match bind_style point_style_defaults kwargs with
  | inl e => (self, Some (Raised e))
  | inr style =>
      let r := add_points float_of_str style points self in
      (fst r, option_map Raised (snd r))
  end.

Definition call_add_lines (kwargs : Dict) (lines : list Dict)
  (self : HtmlExport) : HtmlExport * option GeoErr :=
  match bind_style line_style_defaults kwargs with
  | inl e => (self, Some (Raised e))
  | inr style =>
      let r := add_lines float_of_str style lines self in
      (fst r, option_map Raised (snd r))
  end.

Definition call_add_polygons (kwargs : Dict) (polygons : list Dict)
  (self : HtmlExport) : HtmlExport * option GeoErr :=
  match bind_style polygon_style_defaults kwargs with
  | inl e => (self, Some (Raised e))
  | inr style =>
      let r := add_polygons float_of_str style polygons self in
      (fst r, option_map Raised (snd r))
  end.

(** [self.add_points([{'lng': coord[0], 'lat': coord[1], **properties}],
    **style)] *)
Definition geo_point (style : Dict) (properties coord : PyVal)
  (self : HtmlExport) : HtmlExport * option GeoErr :=
  match subscript coord 0 with
  | inl e => (self, Some e)
  | inr lng =>
      match subscript coord 1 with
      | inl e => (self, Some e)
      | inr lat =>
          match as_mapping properties with
          | inl e => (self, Some e)
          | inr props =>
              call_add_points style
                [dict_update [("lng", lng); ("lat", lat)] props] self
          end
      end
  end.

(** [self.add_lines([{'coords': [[c[1], c[0]] for c in line],
    **properties}], **style)] *)
Definition geo_line (style : Dict) (properties line : PyVal)
  (self : HtmlExport) : HtmlExport * option GeoErr :=
  match swap_pairs line with
  | inl e => (self, Some e)
  | inr coords =>
      match as_mapping properties with
      | inl e => (self, Some e)
      | inr props =>
          call_add_lines style [dict_update [("coords", coords)] props] self
      end
  end.

(** [self.add_polygons([{'coords': [[[c[1], c[0]] for c in ring]
    for ring in poly], **properties}], **style)] *)
Definition geo_polygon (style : Dict) (properties poly : PyVal)
  (self : HtmlExport) : HtmlExport * option GeoErr :=
  match swap_rings poly with
  | inl e => (self, Some e)
  | inr coords =>
      match as_mapping properties with
      | inl e => (self, Some e)
      | inr props =>
          call_add_polygons style [dict_update [("coords", coords)] props] self
      end
  end.

Definition _add_geojson_feature (feature : PyVal) (style : Dict)
  (self : HtmlExport) : HtmlExport * option GeoErr :=
  match py_get feature "geometry" PyNone with
  | inl e => (self, Some e)
  | inr geometry =>
  match py_get feature "properties" (PyDict []) with
  | inl e => (self, Some e)
  | inr properties =>
  if negb (truthy geometry) then (self, None) else
  match py_get geometry "type" PyNone with
  | inl e => (self, Some e)
  | inr geom_type =>
  match py_get geometry "coordinates" PyNone with
  | inl e => (self, Some e)
  | inr coords =>
      if str_eq geom_type "Point" then geo_point style properties coords self
      else if str_eq geom_type "MultiPoint" then
        match iterate coords with
        | inl e => (self, Some e)
        | inr items => for_each (geo_point style properties) items self
        end
      else if str_eq geom_type "LineString" then
        geo_line style properties coords self
      else if str_eq geom_type "MultiLineString" then
        match iterate coords with
        | inl e => (self, Some e)
        | inr items => for_each (geo_line style properties) items self
        end
      else if str_eq geom_type "Polygon" then
        geo_polygon style properties coords self
      else if str_eq geom_type "MultiPolygon" then
        match iterate coords with
        | inl e => (self, Some e)
        | inr items => for_each (geo_polygon style properties) items self
        end
      else (self, None)
  end end end end.

Definition add_geojson (geojson : PyVal) (style_kwargs : Dict)
  (self : HtmlExport) : HtmlExport * option GeoErr :=
  if negb (truthy geojson) then (self, None) else
  match py_get geojson "type" PyNone with
  | inl e => (self, Some e)
  | inr geojson_type =>
      if str_eq geojson_type "FeatureCollection" then
        match py_get geojson "features" (PyList []) with
        | inl e => (self, Some e)
        | inr features =>
            match iterate features with
            | inl e => (self, Some e)
            | inr items =>
                for_each (fun feature => _add_geojson_feature feature style_kwargs)
                         items self
            end
        end
      else if str_eq geojson_type "Feature" then
        _add_geojson_feature geojson style_kwargs self
      else
        _add_geojson_feature
          (PyDict [("type", PyStr "Feature"); ("geometry", geojson);
                   ("properties", PyDict [])])
          style_kwargs self
  end.

(** A GeoJSON position [[x, y, ...]] of numbers, read as latitude [y] and
    longitude [x]. *)
Definition position (c : PyVal) (p : Q * Q) : Prop :=
  exists x y rest,
    c = PyList (x :: y :: rest) /\
    py_float float_of_str x = inr (snd p) /\
    py_float float_of_str y = inr (fst p).

(** A GeoJSON ring: a list of at least three positions. *)
Definition ring_positions (r : PyVal) (ps : list (Q * Q)) : Prop :=
  exists l, r = PyList l /\ (3 <= List.length l)%nat /\ Forall2 position l ps.

End GeoJson.

(** The keys are pairwise different, as in every dict. *)
Definition distinct_keys (d : Dict) : Prop := NoDup (map fst d).

(** None of [keys] is a key of [d]. *)
Definition free_of (keys : list string) (d : Dict) : Prop :=
  Forall (fun kv => existsb (String.eqb (fst kv)) keys = false) d.

(** [{'type': 'Feature', 'geometry': {'type': t, 'coordinates': coords},
    'properties': properties}] *)
Definition geo_feature (t : string) (coords properties : PyVal) : PyVal :=
  PyDict [("type", PyStr "Feature");
          ("geometry", PyDict [("type", PyStr t); ("coordinates", coords)]);
          ("properties", properties)].

(** [[x, y]] *)
Definition xy (x y : Z) : PyVal := PyList [PyInt x; PyInt y].

(** The dict [f] is a GeoJSON Feature whose geometry is a dict of type [t]
    with the coordinates [coords], and whose properties are [properties]. *)
Definition is_feature (f : Dict) (t : string) (coords properties : PyVal)
  : Prop :=
  lookup "type" f = Some (PyStr "Feature") /\
  (exists g, lookup "geometry" f = Some (PyDict g) /\
             lookup "type" g = Some (PyStr t) /\
             lookup "coordinates" g = Some coords) /\
  lookup "properties" f = Some properties.

(** [{'name': 'a'}] *)
Definition named : Dict := [("name", PyStr "a")].

(** [{'type': 'FeatureCollection', 'features': features}] *)
Definition feature_collection (features : list PyVal) : PyVal :=
  PyDict [("type", PyStr "FeatureCollection"); ("features", PyList features)].

(** The geometry types that [_add_geojson_feature] handles. *)
Definition geometry_types : list string :=
  ["Point"; "MultiPoint"; "LineString"; "MultiLineString"; "Polygon";
   "MultiPolygon"].

(** [{'lat': 50, 'name': 'a'}] *)
Definition named_lat : Dict := [("lat", PyInt 50); ("name", PyStr "a")].

(** [[[0, 0], [1, 1]]] *)
Definition two_positions : PyVal := PyList [xy 0 0; xy 1 1].

(** A Point feature followed by a LineString feature. *)
Definition mixed_collection : PyVal :=
  feature_collection
    [geo_feature "Point" (xy (-74) 40) (PyDict named);
     geo_feature "LineString" two_positions (PyDict named)].

(** ** Coordinates that [float] takes over as they are *)

(** [float(v)] involves neither the reading of text (a string may stand for
    [nan] or [inf], which no rational number renders) nor rounding or
    overflow: [v] is not a string, and an int lies within [+-2^53].  A
    [PyFloat] holds a finite float. *)
Definition plain (v : PyVal) : bool :=
  match v with
  | PyStr _ => false
  | PyInt z => (Z.abs z <=? 2 ^ 53)%Z
  | _ => true
  end.

(** The values that [add_points] converts. *)
Definition point_plain (point : Dict) : bool :=
  plain (first_not_none lat_keys point) && plain (first_not_none lng_keys point).

(** The values that [_normalize_coords] converts for one coordinate. *)
Definition coord_plain (coord : PyVal) : bool :=
  match coord with
  | PyList l | PyTuple l => plain (nth 0 l PyNone) && plain (nth 1 l PyNone)
  | PyDict d =>
      plain (py_or (py_or (dict_get d "lat") (dict_get d "latitude"))
                   (dict_get d "y"))
      && plain (py_or (py_or (dict_get d "lng") (dict_get d "longitude"))
                      (dict_get d "x"))
  | _ => true
  end.

Definition line_plain (line : Dict) : bool :=
  match line_coords_of line with
  | PyList l => forallb coord_plain l
  | _ => true
  end.

Definition ring_plain (ring : PyVal) : bool :=
  match ring with
  | PyList l => forallb coord_plain l
  | _ => true
  end.

Definition polygon_plain (polygon : Dict) : bool :=
  match polygon_coords_of polygon with
  | PyList l => if is_multi_ring l then forallb ring_plain l
                else forallb coord_plain l
  | _ => true
  end.

Definition op_plain (op : Op) : bool :=
  match op with
  | OpAddPoints _ points => forallb point_plain points
  | OpAddLines _ lines => forallb line_plain lines
  | OpAddPolygons _ polygons => forallb polygon_plain polygons
  | OpClear => true
  end.

(** The levels that [_calculate_auto_zoom] can return. *)
Definition auto_zoom_values : list Z := [2; 4; 6; 8; 10; 11; 13; 14; 15; 16]%Z.

End Py.

(** * Theory of the engine *)

Module JsTheory.

Import Js.
Local Open Scope R_scope.

(** ** Facts about the spherical Mercator pair *)

Lemma pow2_pos z : 0 < pow2 z.
Proof. unfold pow2, Rpower. apply exp_pos. Qed.

Lemma scale_pos z : 0 < pow2 z * TILE_SIZE.
Proof.
  apply Rmult_lt_0_compat; [apply pow2_pos | unfold TILE_SIZE; lra].
Qed.

Lemma latRad_range lat :
  -90 < lat < 90 -> - (PI / 2) < lat * PI / 180 < PI / 2.
Proof.
  intros [Hl Hu]. pose proof PI_RGT_0 as Hpi. split; nra.
Qed.

Lemma sin_gt_m1 phi : 0 < cos phi -> -1 < sin phi.
Proof.
  intros Hc. pose proof (sin2_cos2 phi) as H. unfold Rsqr in H.
  destruct (Rlt_le_dec (-1) (sin phi)) as [|Hle]; [assumption|].
  exfalso. nra.
Qed.

Lemma sec_plus_tan_pos phi :
  - (PI / 2) < phi < PI / 2 -> 0 < tan phi + 1 / cos phi.
Proof.
  intros [Hl Hu]. pose proof (cos_gt_0 phi Hl Hu) as Hc.
  pose proof (sin_gt_m1 phi Hc) as Hs.
  replace (tan phi + 1 / cos phi) with ((sin phi + 1) / cos phi)
    by (unfold tan; field; lra).
  apply Rdiv_lt_0_compat; lra.
Qed.

(** [sinh (ln (tan phi + sec phi)) = tan phi] *)
Lemma sinh_gudermann phi :
  - (PI / 2) < phi < PI / 2 ->
  0.5 * (exp (ln (tan phi + 1 / cos phi)) - exp (- ln (tan phi + 1 / cos phi)))
  = tan phi.
Proof.
  intros Hphi. pose proof (sec_plus_tan_pos phi Hphi) as Ht.
  destruct Hphi as [Hl Hu]. pose proof (cos_gt_0 phi Hl Hu) as Hc.
  pose proof (sin_gt_m1 phi Hc) as Hs.
  rewrite exp_Ropp, exp_ln by assumption.
  pose proof (sin2_cos2 phi) as H2. unfold Rsqr in H2.
  unfold tan in *.
  assert (Hne : sin phi / cos phi + 1 / cos phi <> 0) by lra.
  apply Rmult_eq_reg_r with (r := 2 * cos phi * (sin phi + 1)); [|nra].
  replace (sin phi / cos phi + 1 / cos phi) with ((sin phi + 1) / cos phi)
    in * by (field; lra).
  field_simplify; [|lra|split; lra].
  nra.
Qed.

Lemma inverseMercator_mercatorY lat scale :
  -90 < lat < 90 -> scale <> 0 ->
  inverseMercator (mercatorY lat scale) scale = lat.
Proof.
  intros Hlat Hs. unfold inverseMercator, mercatorY.
  pose proof PI_RGT_0 as Hpi.
  pose proof (latRad_range lat Hlat) as Hphi.
  set (phi := lat * PI / 180) in *.
  set (t := tan phi + 1 / cos phi).
  replace (PI - 2 * PI * ((1 - ln t / PI) / 2 * scale) / scale) with (ln t)
    by (field; lra).
  subst t. rewrite sinh_gudermann by assumption.
  rewrite atan_tan by assumption.
  subst phi. field. lra.
Qed.

(** ** C1: projection round trip *)

(** C1. For every latitude in (-85,85), longitude in (-180,180) and zoom in
    [1,20], [pixelToLatLng] applied to the pixel that [latlngToPixel] gives
    for (lat, lng), under the same view state, recovers (lat, lng) within
    1e-6 (over the reals the recovery is exact). *)
Theorem projection_round_trip (v : View) (lat lng : R) :
  -85 < lat < 85 -> -180 < lng < 180 -> 1 <= viewZoom v <= 20 ->
  let p := latlngToPixel v lat lng in
  let g := pixelToLatLng v (pix_x p) (pix_y p) in
  Rabs (ll_lat g - lat) < 1 / 1000000 /\ Rabs (ll_lng g - lng) < 1 / 1000000.
Proof.
  intros Hlat Hlng Hz p g.
  pose proof (scale_pos (viewZoom v)) as Hs.
  assert (Hlat' : ll_lat g = lat).
  { subst g p. unfold pixelToLatLng, latlngToPixel. cbn [ll_lat pix_x pix_y].
    match goal with |- inverseMercator ?w _ = _ =>
      replace w with (mercatorY lat (pow2 (viewZoom v) * TILE_SIZE)) by ring end.
    apply inverseMercator_mercatorY; lra. }
  assert (Hlng' : ll_lng g = lng).
  { subst g p. unfold pixelToLatLng, latlngToPixel. cbn [ll_lng pix_x pix_y].
    cbn [getCenterPixel pix_x]. set (s := pow2 (viewZoom v) * TILE_SIZE) in *.
    match goal with |- ?w / s * 360 - 180 = _ =>
      replace w with ((lng + 180) / 360 * s) by ring end.
    field. lra. }
  rewrite Hlat', Hlng'.
  replace (lat - lat) with 0 by ring. replace (lng - lng) with 0 by ring.
  rewrite Rabs_R0. lra.
Qed.

(** ** Reverse scans *)

Lemma descending_step n i : (i <= n)%nat -> descending (S n) i = n :: descending n i.
Proof.
  intros Hle. unfold descending.
  replace (S n - i)%nat with (S (n - i)) by lia.
  rewrite seq_S, rev_app_distr. cbn [rev app].
  replace (i + (n - i))%nat with n by lia. reflexivity.
Qed.

Lemma descending_one n : descending (S n) n = [n].
Proof.
  unfold descending. replace (S n - n)%nat with 1%nat by lia. reflexivity.
Qed.

Lemma scan_down_some {A : Type} (test : A -> bool) (arr : list A) :
  forall n i a t,
    scan_down test arr n = (Some (i, a), t) ->
    (i < n)%nat /\ nth_error arr i = Some a /\ test a = true /\
    (forall j b, (i < j < n)%nat -> nth_error arr j = Some b -> test b = false) /\
    t = descending n i.
Proof.
  induction n as [|n IH]; intros i a t H; cbn [scan_down] in H.
  - discriminate.
  - destruct (nth_error arr n) as [b|] eqn:Hn; [|discriminate].
    destruct (test b) eqn:Hb.
    + inversion H; subst.
      split; [lia|]. split; [exact Hn|]. split; [exact Hb|]. split.
      * intros j c Hj. lia.
      * symmetry. apply descending_one.
    + destruct (scan_down test arr n) as [r t'] eqn:Hs.
      inversion H; subst.
      destruct (IH i a t' eq_refl) as (Hi & Hnth & Ht & Hlater & Htr).
      split; [lia|]. split; [exact Hnth|]. split; [exact Ht|]. split.
      * intros j c Hj Hc.
        destruct (Nat.eq_dec j n) as [->|Hne].
        -- rewrite Hn in Hc. inversion Hc; subst. exact Hb.
        -- apply (Hlater j c); [lia | exact Hc].
      * rewrite descending_step by lia. now rewrite Htr.
Qed.

Lemma scan_down_none {A : Type} (test : A -> bool) (arr : list A) :
  forall n t,
    (n <= List.length arr)%nat ->
    scan_down test arr n = (None, t) ->
    (forall j b, (j < n)%nat -> nth_error arr j = Some b -> test b = false) /\
    t = descending n 0.
Proof.
  induction n as [|n IH]; intros t Hlen H; cbn [scan_down] in H.
  - inversion H; subst. split; [intros j b Hj; lia | reflexivity].
  - destruct (nth_error arr n) as [b|] eqn:Hn.
    + destruct (test b) eqn:Hb; [discriminate|].
      destruct (scan_down test arr n) as [r t'] eqn:Hs.
      inversion H; subst.
      destruct (IH t' ltac:(lia) eq_refl) as (Hall & Htr).
      split.
      * intros j c Hj Hc.
        destruct (Nat.eq_dec j n) as [->|Hne].
        -- rewrite Hn in Hc. inversion Hc; subst. exact Hb.
        -- apply (Hall j c); [lia | exact Hc].
      * rewrite descending_step by lia. now rewrite Htr.
    + apply nth_error_None in Hn. lia.
Qed.

Lemma scan_down_none_all {A : Type} (test : A -> bool) (arr : list A) t :
  scan_down test arr (List.length arr) = (None, t) ->
  (forall a, In a arr -> test a = false) /\ t = descending (List.length arr) 0.
Proof.
  intros H. destruct (scan_down_none test arr _ t (Nat.le_refl _) H) as [Hall Ht].
  split; [|exact Ht].
  intros a Ha. apply In_nth_error in Ha. destruct Ha as [j Hj].
  apply (Hall j a); [|exact Hj].
  apply nth_error_Some. rewrite Hj. discriminate.
Qed.

(** ** C5: hit-test order *)

(** C5. For every query pixel the resolver runs three passes in fixed
    priority order, points, then lines, then polygons.  Each pass tests its
    candidates in reverse insertion order and stops at the first that
    matches, so the latest-added matching candidate wins; the first pass
    with a match decides, and the candidates of later passes are not
    tested. *)
Theorem hit_test_order (v : View) (d : MapData) (x y : R) :
  let np := List.length (points d) in
  let nl := List.length (lines d) in
  let ng := List.length (polygons d) in
  let no_point := forall p, In p (points d) -> pointHit v x y p = false in
  let no_line := forall l, In l (lines d) -> isPointNearLine v x y l = false in
  let no_polygon :=
    forall g, In g (polygons d) -> isPointInPolygon v x y g = false in
  match updateTooltip v d x y with
  | (Some (FoundPoint i p), probes) =>
      nth_error (points d) i = Some p /\ pointHit v x y p = true /\
      (forall j q, (i < j)%nat -> nth_error (points d) j = Some q ->
                   pointHit v x y q = false) /\
      probes = map ProbePoint (descending np i)
  | (Some (FoundLine i l), probes) =>
      no_point /\
      nth_error (lines d) i = Some l /\ isPointNearLine v x y l = true /\
      (forall j q, (i < j)%nat -> nth_error (lines d) j = Some q ->
                   isPointNearLine v x y q = false) /\
      probes = map ProbePoint (descending np 0) ++ map ProbeLine (descending nl i)
  | (Some (FoundPolygon i g), probes) =>
      no_point /\ no_line /\
      nth_error (polygons d) i = Some g /\ isPointInPolygon v x y g = true /\
      (forall j q, (i < j)%nat -> nth_error (polygons d) j = Some q ->
                   isPointInPolygon v x y q = false) /\
      probes = map ProbePoint (descending np 0) ++ map ProbeLine (descending nl 0)
               ++ map ProbePolygon (descending ng i)
  | (None, probes) =>
      no_point /\ no_line /\ no_polygon /\
      probes = map ProbePoint (descending np 0) ++ map ProbeLine (descending nl 0)
               ++ map ProbePolygon (descending ng 0)
  end.
Proof.
  intros np nl ng no_point no_line no_polygon. unfold updateTooltip.
  assert (Hlater : forall (A : Type) (test : A -> bool) (arr : list A) i,
             (forall j b, (i < j < List.length arr)%nat ->
                          nth_error arr j = Some b -> test b = false) ->
             forall j b, (i < j)%nat -> nth_error arr j = Some b -> test b = false).
  { intros A test arr i H j b Hj Hb. apply (H j b); [|exact Hb].
    split; [exact Hj|]. apply nth_error_Some. rewrite Hb. discriminate. }
  destruct (scan_down (pointHit v x y) (points d) (List.length (points d)))
    as [[[i p]|] tp] eqn:Hp.
  - destruct (scan_down_some _ _ _ _ _ _ Hp) as (_ & Hn & Ht & Hl & Htr).
    repeat split; eauto. now rewrite Htr.
  - destruct (scan_down_none_all _ _ _ Hp) as (Hnp & Htp).
    destruct (scan_down (isPointNearLine v x y) (lines d) (List.length (lines d)))
      as [[[i l]|] tl] eqn:Hli.
    + destruct (scan_down_some _ _ _ _ _ _ Hli) as (_ & Hn & Ht & Hl & Htr).
      repeat split; eauto. now rewrite Htp, Htr.
    + destruct (scan_down_none_all _ _ _ Hli) as (Hnl & Htl).
      destruct (scan_down (isPointInPolygon v x y) (polygons d)
                          (List.length (polygons d))) as [[[i g]|] tg] eqn:Hg.
      * destruct (scan_down_some _ _ _ _ _ _ Hg) as (_ & Hn & Ht & Hl & Htr).
        repeat split; eauto. now rewrite Htp, Htl, Htr.
      * destruct (scan_down_none_all _ _ _ Hg) as (Hng & Htg).
        repeat split; eauto. now rewrite Htp, Htl, Htg.
Qed.

(** ** C6: point hit threshold *)

Lemma Rleb_true a b : Rleb a b = true <-> a <= b.
Proof. unfold Rleb. destruct (Rle_dec a b); split; intros; try discriminate; auto; lra. Qed.

Lemma Rleb_false a b : Rleb a b = false <-> b < a.
Proof. unfold Rleb. destruct (Rle_dec a b); split; intros; try discriminate; auto; lra. Qed.

Lemma pixelDistance_self pos : pixelDistance (pix_x pos) (pix_y pos) pos = 0.
Proof.
  unfold pixelDistance.
  replace ((pix_x pos - pix_x pos) ^ 2 + (pix_y pos - pix_y pos) ^ 2) with 0 by ring.
  apply sqrt_0.
Qed.

(** When some point passes the threshold test the point pass finds one, and
    the one it finds was added no earlier. *)
Lemma point_pass_finds (v : View) (d : MapData) (x y : R) i p :
  nth_error (points d) i = Some p -> pointHit v x y p = true ->
  exists j q, (i <= j)%nat /\ pointHit v x y q = true /\
              fst (updateTooltip v d x y) = Some (FoundPoint j q).
Proof.
  intros Hn Hhit. unfold updateTooltip.
  destruct (scan_down (pointHit v x y) (points d) (List.length (points d)))
    as [[[j q]|] tp] eqn:Hp.
  - destruct (scan_down_some _ _ _ _ _ _ Hp) as (Hj & Hq & Ht & Hl & _).
    exists j, q. split; [|split; [exact Ht | reflexivity]].
    destruct (Nat.le_gt_cases i j) as [|Hlt]; [assumption|].
    assert (Hi : (i < List.length (points d))%nat)
      by (apply nth_error_Some; rewrite Hn; discriminate).
    rewrite (Hl i p) in Hhit; [discriminate | lia | exact Hn].
  - destruct (scan_down_none_all _ _ _ Hp) as (Hall & _).
    rewrite (Hall p) in Hhit; [discriminate|].
    eapply nth_error_In; eauto.
Qed.

Lemma found_point_inv (v : View) (d : MapData) (x y : R) j q :
  fst (updateTooltip v d x y) = Some (FoundPoint j q) ->
  nth_error (points d) j = Some q /\ pointHit v x y q = true.
Proof.
  unfold updateTooltip.
  destruct (scan_down (pointHit v x y) (points d) (List.length (points d)))
    as [[[i p]|] tp] eqn:Hp.
  - cbn [fst]. intros H. inversion H; subst.
    destruct (scan_down_some _ _ _ _ _ _ Hp) as (_ & Hn & Ht & _). auto.
  - destruct (scan_down (isPointNearLine v x y) (lines d) (List.length (lines d)))
      as [[[i l]|] tl]; [cbn [fst]; discriminate|].
    destruct (scan_down (isPointInPolygon v x y) (polygons d)
                        (List.length (polygons d))) as [[[i g]|] tg];
      cbn [fst]; discriminate.
Qed.

(** C6. A query exactly at a point's projected center passes that point's
    threshold test (the radius being at least -3, as every drawable radius
    is), so the point pass matches: it returns that point unless a
    later-added point also covers the query.  A query within Euclidean
    pixel distance radius+3 of a point's center matches some point.  A
    query at distance radius+4 or more from every point's center matches no
    point. *)
Theorem point_hit_threshold (v : View) (d : MapData) (x y : R) :
  let center p := latlngToPixel v (point_lat p) (point_lng p) in
  (forall i p,
      nth_error (points d) i = Some p -> -3 <= radius (point_style p) ->
      x = pix_x (center p) -> y = pix_y (center p) ->
      pointHit v x y p = true /\
      (exists j q, (i <= j)%nat /\ pointHit v x y q = true /\
                   fst (updateTooltip v d x y) = Some (FoundPoint j q)) /\
      ((forall j q, (i < j)%nat -> nth_error (points d) j = Some q ->
                    pointHit v x y q = false) ->
       fst (updateTooltip v d x y) = Some (FoundPoint i p))) /\
  (forall i p,
      nth_error (points d) i = Some p ->
      pixelDistance x y (center p) <= radius (point_style p) + 3 ->
      exists j q, (i <= j)%nat /\ pointHit v x y q = true /\
                  fst (updateTooltip v d x y) = Some (FoundPoint j q)) /\
  ((forall p, In p (points d) ->
              radius (point_style p) + 4 <= pixelDistance x y (center p)) ->
   (forall p, In p (points d) -> pointHit v x y p = false) /\
   (forall j q, fst (updateTooltip v d x y) <> Some (FoundPoint j q))).
Proof.
  intros center. split; [|split].
  - intros i p Hn Hr Hx Hy.
    assert (Hhit : pointHit v x y p = true).
    { unfold pointHit. apply Rleb_true. fold (center p).
      rewrite Hx, Hy, pixelDistance_self. lra. }
    split; [exact Hhit|]. split; [eapply point_pass_finds; eauto|].
    intros Hlater.
    destruct (point_pass_finds v d x y i p Hn Hhit) as (j & q & Hij & Hq & Hf).
    destruct (found_point_inv v d x y j q Hf) as (Hjq & _).
    destruct (Nat.eq_dec i j) as [->|Hne].
    + rewrite Hn in Hjq. inversion Hjq; subst. exact Hf.
    + rewrite (Hlater j q) in Hq; [discriminate | lia | exact Hjq].
  - intros i p Hn Hdist. apply (point_pass_finds v d x y i p Hn).
    unfold pointHit. apply Rleb_true. exact Hdist.
  - intros Hfar.
    assert (Hmiss : forall p, In p (points d) -> pointHit v x y p = false).
    { intros p Hp. unfold pointHit. apply Rleb_false. fold (center p).
      specialize (Hfar p Hp). lra. }
    split; [exact Hmiss|].
    intros j q Hf.
    destruct (found_point_inv v d x y j q Hf) as (Hjq & Hq).
    rewrite (Hmiss q) in Hq; [discriminate|].
    eapply nth_error_In; eauto.
Qed.

(** ** C7: polygon hit parity *)

Lemma pointInRing_loop_parity px py rest :
  forall prev inside,
    pointInRing_loop px py rest prev inside =
    xorb inside
         (Nat.odd (List.length
                     (filter (fun e => edgeCrosses px py (fst e) (snd e))
                             (combine rest (prev :: removelast rest))))).
Proof.
  induction rest as [|p rest IH]; intros prev inside.
  - cbn. now rewrite xorb_false_r.
  - cbn [pointInRing_loop]. rewrite IH.
    assert (Hc : combine (p :: rest) (prev :: removelast (p :: rest)) =
                 (p, prev) :: combine rest (p :: removelast rest)).
    { destruct rest; reflexivity. }
    rewrite Hc. cbn [filter fst snd].
    destruct (edgeCrosses px py p prev); cbn [List.length].
    + rewrite Nat.odd_succ, <- Nat.negb_odd.
      destruct inside, (Nat.odd _); reflexivity.
    + reflexivity.
Qed.

Lemma pointInRing_parity px py ring :
  pointInRing px py ring = Nat.odd (crossings px py ring).
Proof.
  unfold pointInRing, crossings, ringEdges. destruct ring as [|p0 ring'].
  - reflexivity.
  - rewrite pointInRing_loop_parity. reflexivity.
Qed.

Lemma insideNoHole_spec px py holes :
  insideNoHole px py holes = true <->
  List.length (filter (pointInRing px py) holes) = 0%nat.
Proof.
  induction holes as [|h holes IH]; cbn [insideNoHole filter].
  - split; reflexivity.
  - destruct (pointInRing px py h); cbn [List.length].
    + split; intros; discriminate.
    + exact IH.
Qed.

(** C7. With each ring tested by ray-casting parity (a ring contains the
    query point when the ray crosses an odd number of its edges): a query
    point inside the projected outer ring and inside exactly one projected
    hole ring reports no polygon match; a query point inside the projected
    outer ring and inside no hole ring reports a match. *)
Theorem polygon_hit_parity (v : View) (px py : R) (polygon : Polygon)
  (outer : list Coord) (holes : list (list Coord)) :
  rings polygon = outer :: holes ->
  let inside ring := pointInRing px py (projectRing v ring) in
  (forall ring, inside ring = Nat.odd (crossings px py (projectRing v ring))) /\
  (inside outer = true -> List.length (filter inside holes) = 1%nat ->
   isPointInPolygon v px py polygon = false) /\
  (inside outer = true -> List.length (filter inside holes) = 0%nat ->
   isPointInPolygon v px py polygon = true).
Proof.
  intros Hr inside.
  assert (Hfilter : List.length (filter (pointInRing px py) (map (projectRing v) holes))
                    = List.length (filter inside holes)).
  { clear Hr. induction holes as [|h holes IH]; [reflexivity|].
    cbn [map filter]. unfold inside at 1.
    destruct (pointInRing px py (projectRing v h)); cbn [List.length]; now rewrite IH. }
  assert (Hpoly : inside outer = true ->
                  isPointInPolygon v px py polygon =
                  insideNoHole px py (map (projectRing v) holes)).
  { intros Ho. unfold isPointInPolygon. rewrite Hr. cbn [map].
    unfold inside in Ho. rewrite Ho. reflexivity. }
  split; [|split].
  - intros ring. apply pointInRing_parity.
  - intros Ho Hone. rewrite (Hpoly Ho).
    destruct (insideNoHole px py (map (projectRing v) holes)) eqn:E; [|reflexivity].
    apply insideNoHole_spec in E. rewrite Hfilter in E. lia.
  - intros Ho Hzero. rewrite (Hpoly Ho).
    apply insideNoHole_spec. now rewrite Hfilter.
Qed.

(** ** The wrap-around loops *)

Lemma Rgtb_true a b : Rgtb a b = true <-> a > b.
Proof. unfold Rgtb. destruct (Rgt_dec a b); split; intros; try discriminate; auto; lra. Qed.

Lemma Rgtb_false a b : Rgtb a b = false <-> a <= b.
Proof. unfold Rgtb. destruct (Rgt_dec a b); split; intros; try discriminate; auto; lra. Qed.

Lemma Rltb_true a b : Rltb a b = true <-> a < b.
Proof. unfold Rltb. destruct (Rlt_dec a b); split; intros; try discriminate; auto; lra. Qed.

Lemma Rltb_false a b : Rltb a b = false <-> b <= a.
Proof. unfold Rltb. destruct (Rlt_dec a b); split; intros; try discriminate; auto; lra. Qed.

Lemma Reqb_true a b : Reqb a b = true <-> a = b.
Proof. unfold Reqb. destruct (Req_dec_T a b); split; intros; try discriminate; auto; lra. Qed.

Lemma Reqb_false a b : Reqb a b = false <-> a <> b.
Proof. unfold Reqb. destruct (Req_dec_T a b); split; intros; try discriminate; auto; lra. Qed.

Lemma while_loop_ext cond cond' body :
  (forall t, cond t = cond' t) ->
  forall fuel s, while_loop fuel cond body s = while_loop fuel cond' body s.
Proof.
  intros Hext. induction fuel as [|fuel IH]; intros s; cbn [while_loop].
  - reflexivity.
  - rewrite Hext, IH. reflexivity.
Qed.

Lemma while_loop_mono cond body :
  forall fuel s r, while_loop fuel cond body s = Some r ->
  forall fuel', (fuel <= fuel')%nat -> while_loop fuel' cond body s = Some r.
Proof.
  induction fuel as [|fuel IH]; intros s r H fuel' Hle; cbn [while_loop] in H.
  - discriminate.
  - destruct fuel' as [|fuel']; [lia|]. cbn [while_loop].
    destruct (cond s); [|exact H]. apply (IH _ _ H). lia.
Qed.

(** [while (t - c > 180) t -= 360] leaves, in at most [n+1] tests when
    [t - c <= 180 + 360 n]. *)
Lemma down_loop_bounded c :
  forall (n : nat) t, t - c <= 180 + 360 * INR n ->
  exists r, while_loop (S n) (fun t => Rgtb (t - c) 180) (fun t => t - 360) t = Some r /\
            r - c <= 180 /\ (-180 < r - c \/ r = t) /\ (t - c <= 180 -> r = t).
Proof.
  induction n as [|n IH]; intros t Ht.
  - cbn [INR] in Ht. exists t. cbn [while_loop].
    assert (Hf : Rgtb (t - c) 180 = false) by (apply Rgtb_false; lra).
    rewrite Hf. repeat split; auto; lra.
  - rewrite S_INR in Ht. cbn [while_loop].
    destruct (Rgtb (t - c) 180) eqn:Hc.
    + apply Rgtb_true in Hc.
      destruct (IH (t - 360)) as (r & Hr & Hle & Hlo & _); [lra|].
      exists r. split; [exact Hr|]. split; [exact Hle|]. split; [|lra].
      left. destruct Hlo as [Hlo|Hlo]; [|rewrite Hlo]; lra.
    + apply Rgtb_false in Hc. exists t. repeat split; auto; lra.
Qed.

Lemma up_loop_bounded c :
  forall (n : nat) t, - 180 - 360 * INR n <= t - c ->
  exists r, while_loop (S n) (fun t => Rltb (t - c) (-180)) (fun t => t + 360) t = Some r /\
            -180 <= r - c /\ (r - c < 180 \/ r = t) /\ (-180 <= t - c -> r = t).
Proof.
  induction n as [|n IH]; intros t Ht.
  - cbn [INR] in Ht. exists t. cbn [while_loop].
    assert (Hf : Rltb (t - c) (-180) = false) by (apply Rltb_false; lra).
    rewrite Hf. repeat split; auto; lra.
  - rewrite S_INR in Ht. cbn [while_loop].
    destruct (Rltb (t - c) (-180)) eqn:Hc.
    + apply Rltb_true in Hc.
      destruct (IH (t + 360)) as (r & Hr & Hle & Hlo & _); [lra|].
      exists r. split; [exact Hr|]. split; [exact Hle|]. split; [|lra].
      left. destruct Hlo as [Hlo|Hlo]; [|rewrite Hlo]; lra.
    + apply Rltb_false in Hc. exists t. repeat split; auto; lra.
Qed.

Lemma wrapTargetLng_mono fuel c t r :
  wrapTargetLng fuel c t = Some r ->
  forall fuel', (fuel <= fuel')%nat -> wrapTargetLng fuel' c t = Some r.
Proof.
  unfold wrapTargetLng. intros H fuel' Hle.
  destruct (while_loop fuel _ _ t) as [t1|] eqn:H1; [|discriminate].
  rewrite (while_loop_mono _ _ _ _ _ H1 fuel' Hle).
  exact (while_loop_mono _ _ _ _ _ H fuel' Hle).
Qed.

(** Both loops of [wrapTargetLng] leave: some fuel suffices, and the result
    is within 180 of [c]; a value already within 180 is returned as it is. *)
Lemma wrapTargetLng_total c t :
  exists fuel r, wrapTargetLng fuel c t = Some r /\
                 -180 <= r - c <= 180 /\ (-180 <= t - c <= 180 -> r = t).
Proof.
  destruct (INR_unbounded ((t - c) / 360)) as [n Hn].
  destruct (down_loop_bounded c n t) as (t1 & H1 & Hle1 & Hlo1 & Hid1); [lra|].
  destruct (INR_unbounded ((c - t1) / 360)) as [m Hm].
  destruct (up_loop_bounded c m t1) as (r & H2 & Hge2 & Hhi2 & Hid2); [lra|].
  exists (S (Nat.max n m)), r. split; [|split].
  - unfold wrapTargetLng.
    rewrite (while_loop_mono _ _ _ _ _ H1 (S (Nat.max n m))) by lia.
    apply (while_loop_mono _ _ _ _ _ H2). lia.
  - split; [exact Hge2|]. destruct Hhi2 as [Hhi2|Hhi2]; [|rewrite Hhi2]; lra.
  - intros [Hlo Hhi]. assert (Ht1 : t1 = t) by (apply Hid1; lra).
    rewrite Hid2; [exact Ht1 | rewrite Ht1; lra].
Qed.

Lemma wrapTargetLng_sound fuel c t r :
  wrapTargetLng fuel c t = Some r ->
  -180 <= r - c <= 180 /\ (-180 <= t - c <= 180 -> r = t).
Proof.
  intros H. destruct (wrapTargetLng_total c t) as (f0 & r0 & H0 & Hr0).
  pose proof (wrapTargetLng_mono _ _ _ _ H (Nat.max fuel f0) ltac:(lia)) as Ha.
  pose proof (wrapTargetLng_mono _ _ _ _ H0 (Nat.max fuel f0) ltac:(lia)) as Hb.
  rewrite Ha in Hb. inversion Hb; subst. exact Hr0.
Qed.

Lemma normalizeLng_wrap fuel lng : normalizeLng fuel lng = wrapTargetLng fuel 0 lng.
Proof.
  unfold normalizeLng, wrapTargetLng.
  rewrite (while_loop_ext (fun l => Rgtb l 180) (fun t => Rgtb (t - 0) 180))
    by (intros t; now rewrite Rminus_0_r).
  destruct (while_loop fuel _ _ lng); [|reflexivity].
  apply while_loop_ext. intros t. now rewrite Rminus_0_r.
Qed.

Lemma normalizeLng_total lng :
  exists fuel r, normalizeLng fuel lng = Some r /\
                 -180 <= r <= 180 /\ (-180 <= lng <= 180 -> r = lng).
Proof.
  destruct (wrapTargetLng_total 0 lng) as (fuel & r & H & Hr & Hid).
  exists fuel, r. rewrite normalizeLng_wrap. rewrite !Rminus_0_r in *. auto.
Qed.

Lemma normalizeLng_sound fuel lng r :
  normalizeLng fuel lng = Some r ->
  -180 <= r <= 180 /\ (-180 <= lng <= 180 -> r = lng).
Proof.
  rewrite normalizeLng_wrap. intros H.
  pose proof (wrapTargetLng_sound _ _ _ _ H) as Hs. rewrite !Rminus_0_r in Hs. exact Hs.
Qed.

Lemma normalizeLng_mono fuel lng r :
  normalizeLng fuel lng = Some r ->
  forall fuel', (fuel <= fuel')%nat -> normalizeLng fuel' lng = Some r.
Proof.
  intros H fuel' Hle. rewrite normalizeLng_wrap in *.
  eapply wrapTargetLng_mono; eauto.
Qed.

(** ** [onWheel] *)

Lemma clampZoom_range z : 1 <= clampZoom z <= 20.
Proof.
  unfold clampZoom. split; [apply Rmax_l|].
  apply Rmax_lub; [lra | apply Rmin_l].
Qed.

Lemma clampZoom_id z : 1 <= z <= 20 -> clampZoom z = z.
Proof.
  intros [Hl Hu]. unfold clampZoom.
  rewrite (Rmin_right 20 z) by lra. apply Rmax_right. lra.
Qed.




(** What [onWheel] computes, with the loops run to their end: [tl] is the
    wrapped target longitude, [nl] the normalised center longitude. *)
Lemma onWheel_spec (e : MouseEvent) (st : State) :
  let v := view st in
  let mouseX := clientX e - rect_left st in
  let mouseY := clientY e - rect_top st in
  let target := pixelToLatLng v mouseX mouseY in
  let newZoom := clampZoom (viewZoom v + wheelDelta e) in
  exists fuel tl,
    -180 <= tl - snd (viewCenter v) <= 180 /\
    (-180 <= ll_lng target - snd (viewCenter v) <= 180 -> tl = ll_lng target) /\
    ((newZoom = viewZoom v /\
      forall fuel', (fuel <= fuel')%nat -> onWheel fuel' e st = Some st) \/
     (newZoom <> viewZoom v /\
      let raw := wheelRawCenter v newZoom mouseX mouseY (ll_lat target) tl in
      exists nl,
        normalizeLng fuel (snd raw) = Some nl /\
        -180 <= nl <= 180 /\ (-180 <= snd raw <= 180 -> nl = snd raw) /\
        forall fuel', (fuel <= fuel')%nat ->
          onWheel fuel' e st =
          Some (with_view st
                  (set_center (set_zoom v newZoom)
                              (Rmax (-85) (Rmin 85 (fst raw)), nl))))).
Proof.
  intros v mouseX mouseY target newZoom.
  destruct (wrapTargetLng_total (snd (viewCenter v)) (ll_lng target))
    as (f1 & tl & Hw & Hr & Hid).
  destruct (Req_dec_T newZoom (viewZoom v)) as [Heq|Hne].
  - exists f1, tl. split; [exact Hr|]. split; [exact Hid|]. left.
    split; [exact Heq|]. intros fuel' Hle. unfold onWheel.
    fold v. fold mouseX. fold mouseY. fold target.
    rewrite (wrapTargetLng_mono _ _ _ _ Hw fuel' Hle).
    fold newZoom. apply Reqb_true in Heq. now rewrite Heq.
  - set (raw := wheelRawCenter v newZoom mouseX mouseY (ll_lat target) tl).
    destruct (normalizeLng_total (snd raw)) as (f2 & nl & Hn & Hnr & Hnid).
    exists (Nat.max f1 f2), tl. split; [exact Hr|]. split; [exact Hid|]. right.
    split; [exact Hne|]. exists nl.
    split; [apply (normalizeLng_mono _ _ _ Hn); lia|].
    split; [exact Hnr|]. split; [exact Hnid|].
    intros fuel' Hle. unfold onWheel.
    fold v. fold mouseX. fold mouseY. fold target.
    rewrite (wrapTargetLng_mono _ _ _ _ Hw fuel') by lia.
    fold newZoom. apply Reqb_false in Hne. rewrite Hne.
    fold raw. destruct raw as [rlat rlng] eqn:Hraw. cbn [fst snd] in *.
    rewrite (normalizeLng_mono _ _ _ Hn fuel') by lia. reflexivity.
Qed.

(** A run of [onWheel] that returns gives the state that every longer run
    gives. *)
Lemma onWheel_mono fuel e st st' :
  onWheel fuel e st = Some st' ->
  forall fuel', (fuel <= fuel')%nat -> onWheel fuel' e st = Some st'.
Proof.
  unfold onWheel. intros H fuel' Hle.
  destruct (wrapTargetLng fuel _ _) as [tl|] eqn:Hw; [|discriminate].
  rewrite (wrapTargetLng_mono _ _ _ _ Hw fuel' Hle).
  destruct (Reqb _ _); [exact H|].
  destruct (wheelRawCenter _ _ _ _ _ _) as [rlat rlng].
  destruct (normalizeLng fuel rlng) as [nl|] eqn:Hn; [|discriminate].
  now rewrite (normalizeLng_mono _ _ _ Hn fuel' Hle).
Qed.

(** ** More on the Mercator pair *)

Lemma half_decimal : 0.5 = / 2.
Proof. lra. Qed.

Lemma cosh_sq n :
  1 + Rsqr (0.5 * (exp n - exp (- n))) = Rsqr (0.5 * (exp n + exp (- n))).
Proof.
  unfold Rsqr. rewrite exp_Ropp, half_decimal.
  pose proof (exp_pos n) as Hp. field. lra.
Qed.

(** [tan phi + sec phi = exp n] at [phi = atan (sinh n)] *)
Lemma gudermann_inv n :
  let phi := atan (0.5 * (exp n - exp (- n))) in
  tan phi + 1 / cos phi = exp n.
Proof.
  intros phi. subst phi. rewrite tan_atan, cos_atan, cosh_sq.
  pose proof (exp_pos n) as Hp. pose proof (exp_pos (- n)) as Hm.
  rewrite sqrt_Rsqr by lra. rewrite exp_Ropp, half_decimal. field. split; nra.
Qed.

Lemma mercatorY_inverseMercator worldY s s' :
  s <> 0 -> mercatorY (inverseMercator worldY s) s' = worldY / s * s'.
Proof.
  intros Hs. unfold mercatorY, inverseMercator.
  pose proof PI_RGT_0 as Hpi.
  set (n := PI - 2 * PI * worldY / s).
  replace (180 / PI * atan (0.5 * (exp n - exp (- n))) * PI / 180)
    with (atan (0.5 * (exp n - exp (- n)))) by (field; lra).
  rewrite (gudermann_inv n), ln_exp. subst n. field. split; lra.
Qed.

Lemma mercatorY_scale lat s s' :
  s <> 0 -> mercatorY lat s' = mercatorY lat s / s * s'.
Proof. intros Hs. unfold mercatorY. field. pose proof PI_RGT_0. split; lra. Qed.

Lemma inverseMercator_decreasing s y1 y2 :
  0 < s -> y1 < y2 -> inverseMercator y2 s < inverseMercator y1 s.
Proof.
  intros Hs Hy. unfold inverseMercator. pose proof PI_RGT_0 as Hpi.
  set (n1 := PI - 2 * PI * y1 / s). set (n2 := PI - 2 * PI * y2 / s).
  assert (Hn : n2 < n1).
  { subst n1 n2. apply Rplus_lt_compat_l, Ropp_lt_contravar.
    unfold Rdiv. apply Rmult_lt_compat_r; [apply Rinv_0_lt_compat; lra | nra]. }
  pose proof (exp_increasing _ _ Hn) as He.
  assert (Hn' : - n1 < - n2) by lra.
  pose proof (exp_increasing _ _ Hn') as He'.
  assert (Hsh : 0.5 * (exp n2 - exp (- n2)) < 0.5 * (exp n1 - exp (- n1))) by lra.
  pose proof (atan_increasing _ _ Hsh) as Ha.
  apply Rmult_lt_compat_l; [|exact Ha].
  apply Rdiv_lt_0_compat; lra.
Qed.

Lemma pow2_1 : pow2 1 = 2.
Proof. unfold pow2. apply Rpower_1. lra. Qed.



(** ** C4: longitude of the view center after a wheel event *)

(** C4 (as the code has it). Every wheel event is handled to the end, and
    when it changes the zoom the view center's longitude afterwards lies in
    the closed interval [-180,180]; an event that cannot change the zoom
    leaves the whole state as it was.  Every run of the handler that returns
    gives this same state. *)
Theorem wheel_longitude_range (e : MouseEvent) (st : State) :
  exists fuel st',
    (forall fuel', (fuel <= fuel')%nat -> onWheel fuel' e st = Some st') /\
    (forall f s, onWheel f e st = Some s -> s = st') /\
    (viewZoom (view st') <> viewZoom (view st) ->
     -180 <= snd (viewCenter (view st')) <= 180) /\
    (viewZoom (view st') = viewZoom (view st) -> st' = st).
Proof.
  destruct (onWheel_spec e st) as (fuel & tl & _ & _ & Hcases).
  assert (Huniq : forall st', (forall fuel', (fuel <= fuel')%nat ->
                                 onWheel fuel' e st = Some st') ->
                  forall f s, onWheel f e st = Some s -> s = st').
  { intros st' Hrun f s Hs.
    pose proof (onWheel_mono _ _ _ _ Hs (Nat.max f fuel) ltac:(lia)) as Ha.
    rewrite (Hrun (Nat.max f fuel)) in Ha by lia. now inversion Ha. }
  destruct Hcases as [[Heq Hrun] | [Hne (nl & _ & Hnl & _ & Hrun)]].
  - exists fuel, st. split; [exact Hrun|]. split; [apply Huniq, Hrun|].
    split; [intros H; now elim H | reflexivity].
  - eexists fuel, _. split; [exact Hrun|]. split; [apply Huniq, Hrun|].
    cbn [view with_view set_center set_zoom viewZoom viewCenter snd]. split.
    + intros _. exact Hnl.
    + intros Heq. now elim Hne.
Qed.

Lemma normalizeLng_m540 : normalizeLng 2 (-540) = Some (-180).
Proof.
  unfold normalizeLng. cbn [while_loop].
  rewrite (proj2 (Rgtb_false (-540) 180)) by lra.
  rewrite (proj2 (Rltb_true (-540) (-180))) by lra.
  rewrite (proj2 (Rltb_false (-540 + 360) (-180))) by lra.
  f_equal. lra.
Qed.

(** Zooming in at the canvas center of a view whose center longitude is
    -540: the zoom changes and the new center longitude is -180. *)
Lemma wheel_west_run :
  exists fuel st',
    onWheel fuel (wheelUpAt 400 300) stateWest = Some st' /\
    viewZoom (view st') <> viewZoom (view stateWest) /\
    snd (viewCenter (view st')) = -180 /\
    ~ (-180 < snd (viewCenter (view st')) <= 180).
Proof.
  destruct (onWheel_spec (wheelUpAt 400 300) stateWest)
    as (fuel & tl & _ & Htl & Hcases).
  cbn [view stateWest idle view800 viewCenter viewZoom snd clientX clientY
       wheelUpAt rect_left rect_top] in Htl, Hcases.
  pose proof (scale_pos 1) as Hs.
  assert (Hz : clampZoom (1 + wheelDelta (wheelUpAt 400 300)) <> 1).
  { unfold wheelDelta, wheelUpAt. cbn [deltaY].
    rewrite (proj2 (Rgtb_false (-1) 0)) by lra.
    rewrite clampZoom_id by lra. lra. }
  destruct Hcases as [[Heq _] | [_ (nl & Hn & _ & _ & Hrun)]]; [now elim Hz|].
  assert (Htl' : tl = -540).
  { rewrite Htl.
    - unfold pixelToLatLng, getCenterPixel, view800.
      cbn [ll_lng pix_x viewCenter viewZoom canvas_width devicePixelRatio snd].
      set (s := pow2 1 * TILE_SIZE) in *. field. lra.
    - unfold pixelToLatLng, getCenterPixel, view800.
      cbn [ll_lng pix_x viewCenter viewZoom canvas_width devicePixelRatio snd].
      set (s := pow2 1 * TILE_SIZE) in *.
      replace ((400 - 0 + (-540 + 180) / 360 * s - 800 / 1 / 2) / s * 360 - 180 - -540)
        with 0 by (field; lra).
      lra. }
  subst tl.
  set (z' := clampZoom (1 + wheelDelta (wheelUpAt 400 300))) in *.
  pose proof (scale_pos z') as Hs'.
  assert (Hraw : forall lat,
             snd (wheelRawCenter (view800 (0, -540) 1) z'
                                 (400 - 0) (300 - 0) lat (-540)) = -540).
  { intros lat. unfold wheelRawCenter, view800.
    cbn [snd canvas_width canvas_height devicePixelRatio].
    set (s' := pow2 z' * TILE_SIZE) in *. field. lra. }
  rewrite Hraw in Hn.
  assert (Hnl : nl = -180).
  { pose proof (normalizeLng_mono _ _ _ Hn (Nat.max fuel 2) ltac:(lia)) as Ha.
    pose proof (normalizeLng_mono _ _ _ normalizeLng_m540 (Nat.max fuel 2)
                                  ltac:(lia)) as Hb.
    rewrite Ha in Hb. now inversion Hb. }
  subst nl.
  eexists fuel, _. split; [apply Hrun; lia|].
  cbn [view with_view set_center set_zoom viewZoom viewCenter snd].
  split; [exact Hz|]. split; [reflexivity|]. lra.
Qed.

(** C4 fails as stated: a wheel event on a view that was panned across the
    antimeridian (center longitude -540) leaves the center at longitude
    -180 exactly, which is outside (-180,180]. *)
Lemma wheel_longitude_half_open_counterexample :
  exists fuel st',
    onWheel fuel (wheelUpAt 400 300) stateWest = Some st' /\
    viewZoom (view st') <> viewZoom (view stateWest) /\
    snd (viewCenter (view st')) = -180 /\
    ~ (-180 < snd (viewCenter (view st')) <= 180).
Proof. exact wheel_west_run. Qed.

(** ** C2: wheel zoom *)




(** ** C3: drag pan *)

(** The longitude that a pointer move installs while dragging: the
    gesture-start longitude plus the pointer's horizontal travel, whatever
    the center of the view at the time of the move. *)
Lemma panCenter_lng (v : View) (start : R * R) (dx dy : R) :
  snd (panCenter v start dx dy)
  = snd start + dx / (pow2 (viewZoom v) * TILE_SIZE) * 360.
Proof.
  pose proof (scale_pos (viewZoom v)) as Hs.
  unfold panCenter, pixelToLatLng. cbn [snd ll_lng].
  set (s := pow2 (viewZoom v) * TILE_SIZE) in *.
  set (cw := canvas_width v / 2 / devicePixelRatio v).
  set (W := canvas_width v / devicePixelRatio v).
  set (cx := pix_x (getCenterPixel v)).
  field. lra.
Qed.

Lemma mercatorY_0 s : mercatorY 0 s = s / 2.
Proof.
  unfold mercatorY. replace (0 * PI / 180) with 0 by (field; pose proof PI_RGT_0; lra).
  rewrite tan_0, cos_0. replace (0 + 1 / 1) with 1 by field.
  rewrite ln_1. field. pose proof PI_RGT_0. lra.
Qed.

(** C3 on a concrete drag.  The button went down at pixel (400, 300) with
    the view centered on (0, 0); the pointer is now at (410, 300).  The
    source moves the center east, so the geographic point that was under
    the initial contact is drawn at x = 390, twenty pixels from the pointer,
    instead of staying under it. *)
Theorem drag_pan_moves_anchor_away :
  let st' := onMouseMove moveRight10 stateDragging in
  let anchor := pixelToLatLng (view stateDragging) 400 300 in
  snd (viewCenter (view st')) = 10 / 512 * 360 /\
  pix_x (latlngToPixel (view st') (ll_lat anchor) (ll_lng anchor)) = 390 /\
  pix_y (latlngToPixel (view st') (ll_lat anchor) (ll_lng anchor)) = 300 /\
  clientX moveRight10 - rect_left stateDragging = 410.
Proof.
  intros st' anchor.
  pose proof (scale_pos 1) as Hs.
  assert (Hs512 : pow2 1 * TILE_SIZE = 512) by (rewrite pow2_1; unfold TILE_SIZE; lra).
  assert (Hlng : snd (viewCenter (view st')) = 10 / 512 * 360).
  { subst st'. unfold onMouseMove, stateDragging, moveRight10.
    cbn [isDragging dragStart dragCenterStart view with_view set_center
         viewCenter clientX clientY pix_x pix_y].
    rewrite panCenter_lng. unfold view800. cbn [viewZoom snd].
    rewrite Hs512. lra. }
  assert (Hlat : fst (viewCenter (view st')) = 0).
  { subst st'. unfold onMouseMove, stateDragging, moveRight10.
    cbn [isDragging dragStart dragCenterStart view with_view set_center
         viewCenter clientX clientY pix_x pix_y fst].
    unfold panCenter. cbn [fst].
    replace (canvas_height (view800 (0, 0) 1) / 2
             / devicePixelRatio (view800 (0, 0) 1) - (300 - 300))
      with (canvas_height (view800 (0, 0) 1) / 2
            / devicePixelRatio (view800 (0, 0) 1)) by lra.
    unfold pixelToLatLng. cbn [ll_lat]. lra. }
  assert (Halng : ll_lng anchor = 0).
  { subst anchor. unfold pixelToLatLng, getCenterPixel, stateDragging, view800.
    cbn [ll_lng view pix_x viewCenter viewZoom canvas_width devicePixelRatio snd].
    rewrite Hs512. lra. }
  assert (Halat : ll_lat anchor = 0).
  { subst anchor. unfold pixelToLatLng, getCenterPixel, stateDragging, view800.
    cbn [ll_lat view pix_y viewCenter viewZoom canvas_height devicePixelRatio fst].
    replace (300 + mercatorY 0 (pow2 1 * TILE_SIZE) - 600 / 1 / 2)
      with (mercatorY 0 (pow2 1 * TILE_SIZE)) by lra.
    apply inverseMercator_mercatorY; lra. }
  split; [exact Hlng|].
  rewrite Halng, Halat.
  assert (Hview : view st' = mkView (fst (viewCenter (view st')),
                                     snd (viewCenter (view st'))) 1 800 600 1).
  { subst st'. unfold onMouseMove, stateDragging, moveRight10.
    cbn [isDragging dragStart dragCenterStart view with_view set_center
         viewCenter clientX clientY pix_x pix_y fst snd].
    unfold view800. cbn [viewZoom canvas_width canvas_height devicePixelRatio].
    reflexivity. }
  rewrite Hview, Hlng, Hlat.
  unfold latlngToPixel, getCenterPixel.
  cbn [viewCenter viewZoom canvas_width canvas_height devicePixelRatio
       fst snd pix_x pix_y].
  rewrite Hs512. unfold moveRight10, stateDragging. cbn [clientX rect_left].
  repeat split; lra.
Qed.

(** The drag handlers assign the center as computed: a pan across the
    antimeridian leaves a longitude beyond 180. *)
Lemma drag_pan_unnormalised :
  snd (viewCenter (view (onMouseMove moveRight256 stateDraggingEast))) = 359.
Proof.
  unfold onMouseMove, stateDraggingEast, moveRight256.
  cbn [isDragging dragStart dragCenterStart view with_view set_center
       viewCenter clientX clientY pix_x pix_y].
  rewrite panCenter_lng. unfold view800. cbn [viewZoom snd].
  rewrite pow2_1. unfold TILE_SIZE. lra.
Qed.

(** ** Concrete hit tests *)

Lemma mercatorY_decreasing s l1 l2 :
  0 < s -> -90 < l1 -> l1 < l2 -> l2 < 90 -> mercatorY l2 s < mercatorY l1 s.
Proof.
  intros Hs H1 H12 H2.
  destruct (Rlt_le_dec (mercatorY l2 s) (mercatorY l1 s)) as [|Hle]; [assumption|].
  exfalso.
  assert (Hi1 : inverseMercator (mercatorY l1 s) s = l1)
    by (apply inverseMercator_mercatorY; lra).
  assert (Hi2 : inverseMercator (mercatorY l2 s) s = l2)
    by (apply inverseMercator_mercatorY; lra).
  destruct Hle as [Hlt|Heq].
  - pose proof (inverseMercator_decreasing s _ _ Hs Hlt) as Hd. lra.
  - rewrite Heq in Hi1. lra.
Qed.

Lemma edgeCrosses_same_side px py pi pj :
  Rgtb (pix_y pi) py = Rgtb (pix_y pj) py -> edgeCrosses px py pi pj = false.
Proof.
  intros H. unfold edgeCrosses. rewrite H.
  now destruct (Rgtb (pix_y pj) py).
Qed.

Lemma edgeCrosses_vertical px py pi pj :
  pix_x pj = pix_x pi -> Rgtb (pix_y pi) py <> Rgtb (pix_y pj) py ->
  edgeCrosses px py pi pj = Rltb px (pix_x pi).
Proof.
  intros Hx Hy. unfold edgeCrosses. rewrite Hx.
  replace ((pix_x pi - pix_x pi) * (py - pix_y pi) / (pix_y pj - pix_y pi) + pix_x pi)
    with (pix_x pi) by (unfold Rdiv; ring).
  destruct (Rgtb (pix_y pi) py), (Rgtb (pix_y pj) py); cbn; try reflexivity;
    now elim Hy.
Qed.

(** The pixel at the middle of the canvas lies inside every square ring
    around the view center. *)
Lemma squareRing_contains_center a :
  0 < a < 90 ->
  pointInRing 400 300 (projectRing (view800 (0, 0) 1) (squareRing a)) = true.
Proof.
  intros [Ha0 Ha90]. pose proof (scale_pos 1) as Hs.
  set (s := pow2 1 * TILE_SIZE) in *.
  pose proof (mercatorY_decreasing s 0 a Hs ltac:(lra) Ha0 Ha90) as HN.
  pose proof (mercatorY_decreasing s (- a) 0 Hs ltac:(lra) ltac:(lra) ltac:(lra)) as HS.
  unfold squareRing, projectRing. cbn [map fst snd].
  unfold latlngToPixel, getCenterPixel, view800.
  cbn [viewCenter viewZoom canvas_width canvas_height devicePixelRatio
       fst snd pix_x pix_y]. fold s.
  set (yN := mercatorY a s) in *. set (yS := mercatorY (- a) s) in *.
  set (y0 := mercatorY 0 s) in *.
  set (xW := (- a + 180) / 360 * s - (0 + 180) / 360 * s + 800 / 1 / 2).
  set (xE := (a + 180) / 360 * s - (0 + 180) / 360 * s + 800 / 1 / 2).
  assert (HxE : 400 < xE) by (subst xE; nra).
  assert (HxW : xW < 400) by (subst xW; nra).
  unfold pointInRing. cbn [last pointInRing_loop].
  assert (HgN : Rgtb (yN - y0 + 600 / 1 / 2) 300 = false) by (apply Rgtb_false; lra).
  assert (HgS : Rgtb (yS - y0 + 600 / 1 / 2) 300 = true) by (apply Rgtb_true; lra).
  rewrite (edgeCrosses_vertical 400 300 (mkPixel xW _) (mkPixel xW _))
    by (cbn [pix_x pix_y]; first [reflexivity | rewrite HgN, HgS; discriminate]).
  cbn [pix_x]. rewrite (proj2 (Rltb_false 400 xW)) by lra.
  rewrite (edgeCrosses_same_side 400 300 (mkPixel xE _) (mkPixel xW _))
    by (cbn [pix_y]; reflexivity).
  rewrite (edgeCrosses_vertical 400 300 (mkPixel xE _) (mkPixel xE _))
    by (cbn [pix_x pix_y]; first [reflexivity | rewrite HgN, HgS; discriminate]).
  cbn [pix_x]. rewrite (proj2 (Rltb_true 400 xE)) by lra.
  rewrite (edgeCrosses_same_side 400 300 (mkPixel xW _) (mkPixel xE _))
    by (cbn [pix_y]; reflexivity).
  reflexivity.
Qed.

Lemma center_pixel c z :
  latlngToPixel (view800 c z) (fst c) (snd c) = mkPixel 400 300.
Proof.
  unfold latlngToPixel, getCenterPixel, view800.
  cbn [viewCenter viewZoom canvas_width canvas_height devicePixelRatio pix_x pix_y].
  f_equal; lra.
Qed.

Lemma markers_hit (p : Point) :
  point_lat p = 0 -> point_lng p = 0 -> -3 <= radius (point_style p) ->
  pointHit (view800 (0, 0) 1) 400 300 p = true.
Proof.
  intros Hlat Hlng Hr. unfold pointHit. rewrite Hlat, Hlng.
  pose proof (center_pixel (0, 0) 1) as Hc. cbn [fst snd] in Hc. cbv zeta.
  rewrite Hc. apply Rleb_true.
  pose proof (pixelDistance_self (mkPixel 400 300)) as Hd.
  cbn [pix_x pix_y] in Hd. rewrite Hd. lra.
Qed.

(** With two markers on one spot the resolver returns the later one, after
    a single test. *)
Lemma twoMarkers_resolve :
  updateTooltip (view800 (0, 0) 1) twoMarkers 400 300
  = (Some (FoundPoint 1 markerB), [ProbePoint 1]).
Proof.
  unfold updateTooltip, twoMarkers. cbn [points List.length scan_down nth_error].
  rewrite (markers_hit markerB) by (cbn; lra). reflexivity.
Qed.

(** ** The theorems at concrete inputs *)

Lemma projection_round_trip_witness :
  let v := view800 (0, 0) 3 in
  let p := latlngToPixel v 45 90 in
  let g := pixelToLatLng v (pix_x p) (pix_y p) in
  Rabs (ll_lat g - 45) < 1 / 1000000 /\ Rabs (ll_lng g - 90) < 1 / 1000000.
Proof.
  apply (projection_round_trip (view800 (0, 0) 3) 45 90);
    unfold view800; cbn [viewZoom]; lra.
Defined.

Lemma hit_test_order_witness :
  nth_error (points twoMarkers) 1 = Some markerB /\
  pointHit (view800 (0, 0) 1) 400 300 markerB = true /\
  [ProbePoint 1] = map ProbePoint (descending (List.length (points twoMarkers)) 1).
Proof.
  pose proof (hit_test_order (view800 (0, 0) 1) twoMarkers 400 300) as H.
  rewrite twoMarkers_resolve in H. cbv zeta in H.
  destruct H as (Hn & Hhit & _ & Hprobes).
  split; [exact Hn|]. split; [exact Hhit | exact Hprobes].
Defined.

Lemma point_hit_threshold_witness :
  let v := view800 (0, 0) 1 in
  let c := latlngToPixel v (point_lat markerA) (point_lng markerA) in
  pointHit v (pix_x c) (pix_y c) markerA = true /\
  exists j q, (0 <= j)%nat /\ pointHit v (pix_x c) (pix_y c) q = true /\
              fst (updateTooltip v twoMarkers (pix_x c) (pix_y c))
              = Some (FoundPoint j q).
Proof.
  intros v c.
  destruct (point_hit_threshold v twoMarkers (pix_x c) (pix_y c)) as (Hat & _ & _).
  destruct (Hat 0%nat markerA) as (Hhit & Hfound & _).
  - reflexivity.
  - cbn [markerA point_style radius]. lra.
  - reflexivity.
  - reflexivity.
  - split; [exact Hhit | exact Hfound].
Defined.

Lemma polygon_hit_parity_witness :
  isPointInPolygon (view800 (0, 0) 1) 400 300 polygonHoled = false /\
  isPointInPolygon (view800 (0, 0) 1) 400 300 polygonPlain = true.
Proof.
  split.
  - destruct (polygon_hit_parity (view800 (0, 0) 1) 400 300 polygonHoled
                                 (squareRing 10) [squareRing 5] eq_refl)
      as (_ & Hone & _).
    apply Hone.
    + apply squareRing_contains_center. lra.
    + cbn [filter]. rewrite squareRing_contains_center by lra. reflexivity.
  - destruct (polygon_hit_parity (view800 (0, 0) 1) 400 300 polygonPlain
                                 (squareRing 10) [] eq_refl)
      as (_ & _ & Hzero).
    apply Hzero.
    + apply squareRing_contains_center. lra.
    + reflexivity.
Defined.

Lemma wheel_longitude_range_witness :
  exists fuel st',
    (forall fuel', (fuel <= fuel')%nat ->
                   onWheel fuel' (wheelUpAt 400 300) stateWest = Some st') /\
    -180 <= snd (viewCenter (view st')) <= 180.
Proof.
  destruct (wheel_longitude_range (wheelUpAt 400 300) stateWest)
    as (fuel & st' & Hrun & Huniq & Hrange & _).
  exists fuel, st'. split; [exact Hrun|].
  apply Hrange.
  destruct wheel_west_run as (f & s & Hs & Hz & _).
  rewrite <- (Huniq f s Hs). exact Hz.
Defined.




End JsTheory.

(** * Theory of the ingestion half *)

Module PyTheory.

Import Py.
Local Open Scope string_scope.
Local Open Scope Q_scope.

(** ** C9: bounds *)

Lemma py_min_le a b : py_min a b <= a /\ py_min a b <= b.
Proof.
  unfold py_min. destruct (Qlt_le_dec b a) as [H|H]; split;
    auto using Qle_refl, Qlt_le_weak.
Qed.

Lemma py_max_ge a b : a <= py_max a b /\ b <= py_max a b.
Proof.
  unfold py_max. destruct (Qlt_le_dec a b) as [H|H]; split;
    auto using Qle_refl, Qlt_le_weak.
Qed.

Lemma widened_refl b : widened b b.
Proof. unfold widened. repeat split; apply Qle_refl. Qed.

Lemma widened_trans b1 b2 b3 : widened b1 b2 -> widened b2 b3 -> widened b1 b3.
Proof.
  unfold widened. intros (A1 & A2 & A3 & A4) (B1 & B2 & B3 & B4).
  repeat split; eapply Qle_trans; eauto.
Qed.

Lemma bounds_widen_refl o : bounds_widen o o.
Proof. destruct o; cbn; [apply widened_refl | exact I]. Qed.

Lemma bounds_widen_trans o1 o2 o3 :
  bounds_widen o1 o2 -> bounds_widen o2 o3 -> bounds_widen o1 o3.
Proof.
  destruct o1 as [b1|], o2 as [b2|], o3 as [b3|]; cbn; try tauto.
  apply widened_trans.
Qed.

Lemma update_bounds_widens o lat lng : bounds_widen o (_update_bounds o lat lng).
Proof.
  destruct o as [b|]; cbn; [|exact I]. unfold widened. cbn.
  repeat split; first [apply py_min_le | apply py_max_ge].
Qed.

(** After one call the bounds exist and contain the coordinate. *)
Lemma update_bounds_covers o lat lng :
  exists b, _update_bounds o lat lng = Some b /\
            min_lat b <= lat /\ lat <= max_lat b /\
            min_lng b <= lng /\ lng <= max_lng b.
Proof.
  destruct o as [b|]; cbn; eexists; (split; [reflexivity|]); cbn;
    repeat split; first [apply py_min_le | apply py_max_ge | apply Qle_refl].
Qed.

Lemma update_bounds_all_widens cs :
  forall self, bounds_widen (_bounds self) (_bounds (update_bounds_all cs self)).
Proof.
  unfold update_bounds_all.
  induction cs as [|c cs IH]; intros self; cbn [fold_left].
  - apply bounds_widen_refl.
  - eapply bounds_widen_trans; [|apply IH]. cbn. apply update_bounds_widens.
Qed.

Lemma update_bounds_rings_widens rs :
  forall self, bounds_widen (_bounds self) (_bounds (update_bounds_rings rs self)).
Proof.
  unfold update_bounds_rings.
  induction rs as [|r rs IH]; intros self; cbn [fold_left].
  - apply bounds_widen_refl.
  - eapply bounds_widen_trans; [|apply IH]. apply update_bounds_all_widens.
Qed.

Section Widening.

Variable float_of_str : string -> option Q.
Variable style : Dict.

Lemma add_points_widens batch :
  forall self,
    bounds_widen (_bounds self)
                 (_bounds (fst (add_points float_of_str style batch self))).
Proof.
  induction batch as [|point batch IH]; intros self; cbn [add_points].
  - apply bounds_widen_refl.
  - destruct (is_none _ || is_none _).
    + eapply bounds_widen_trans; [|apply IH]. apply bounds_widen_refl.
    + destruct (py_float _ _) as [e|flat]; [apply bounds_widen_refl|].
      destruct (py_float _ _) as [e|flng]; [apply bounds_widen_refl|].
      eapply bounds_widen_trans; [|apply IH]. cbn. apply update_bounds_widens.
Qed.

Lemma add_lines_widens batch :
  forall self,
    bounds_widen (_bounds self)
                 (_bounds (fst (add_lines float_of_str style batch self))).
Proof.
  induction batch as [|line batch IH]; intros self; cbn [add_lines].
  - apply bounds_widen_refl.
  - assert (Hskip : forall d, bounds_widen (_bounds self)
              (_bounds (fst (add_lines float_of_str style batch (print d self))))).
    { intros d. eapply bounds_widen_trans; [|apply IH]. apply bounds_widen_refl. }
    destruct (line_coords_of line); try apply Hskip.
    destruct (negb _ || _); [apply Hskip|].
    destruct (_normalize_coords _ _) as [e|cs]; [apply bounds_widen_refl|].
    eapply bounds_widen_trans; [|apply IH].
    eapply bounds_widen_trans; [|apply update_bounds_all_widens].
    apply bounds_widen_refl.
Qed.

Lemma add_polygons_widens batch :
  forall self,
    bounds_widen (_bounds self)
                 (_bounds (fst (add_polygons float_of_str style batch self))).
Proof.
  induction batch as [|polygon batch IH]; intros self; cbn [add_polygons].
  - apply bounds_widen_refl.
  - destruct (polygon_step _ _) as [d|e|rs].
    + eapply bounds_widen_trans; [|apply IH]. apply bounds_widen_refl.
    + apply bounds_widen_refl.
    + eapply bounds_widen_trans; [|apply IH].
      eapply bounds_widen_trans; [|apply update_bounds_rings_widens].
      apply bounds_widen_refl.
Qed.

End Widening.

(** C9 (as the code has it). Every call of [_update_bounds] and every
    adding operation ([add_points], [add_lines], [add_polygons], also one
    ended by an exception) only widens the bounds: [min_lat] and [min_lng]
    never increase, [max_lat] and [max_lng] never decrease.  [clear] is the
    exception: it resets the bounds to [None], and they start afresh from the
    next coordinate. *)
Theorem bounds_widen_under_adds (float_of_str : string -> option Q)
  (style : Dict) (batch : list Dict) (self : HtmlExport) (lat lng : Q) :
  bounds_widen (_bounds self) (_update_bounds (_bounds self) lat lng) /\
  bounds_widen (_bounds self)
               (_bounds (fst (add_points float_of_str style batch self))) /\
  bounds_widen (_bounds self)
               (_bounds (fst (add_lines float_of_str style batch self))) /\
  bounds_widen (_bounds self)
               (_bounds (fst (add_polygons float_of_str style batch self))) /\
  _bounds (clear self) = None.
Proof.
  split; [apply update_bounds_widens|].
  split; [apply add_points_widens|].
  split; [apply add_lines_widens|].
  split; [apply add_polygons_widens | reflexivity].
Qed.

(** C9 fails as stated: after a point at latitude 10 is added, [clear] and
    then a point at latitude 5 leave [max_lat] at 5, below the 10 it had. *)
Lemma bounds_narrow_after_clear_counterexample :
  let s1 := fst (add_points no_strings [] [point_at 10 10] init) in
  let s2 := clear s1 in
  let s3 := fst (add_points no_strings [] [point_at 5 5] s2) in
  exists b1 b3,
    _bounds s1 = Some b1 /\ _bounds s3 = Some b3 /\
    max_lat b3 < max_lat b1 /\ ~ bounds_widen (_bounds s1) (_bounds s3).
Proof.
  cbv zeta. eexists _, _. split; [reflexivity|]. split; [reflexivity|].
  split; [reflexivity|].
  cbn. unfold widened. cbn. intros (_ & H & _). revert H. apply Qlt_not_le.
  reflexivity.
Qed.

(** ** C10: zero coordinates in [_normalize_coords] *)

Lemma is_zero_falsy v : is_zero v = true -> truthy v = false.
Proof.
  destruct v as [|b|z|q|s|l|l|d]; cbn; try discriminate; intros H.
  - destruct b; [discriminate | reflexivity].
  - now rewrite H.
  - now rewrite H.
Qed.

Lemma is_zero_not_none v : is_zero v = true -> is_none v = false.
Proof. destruct v; cbn; try discriminate; reflexivity. Qed.

Lemma py_or_falsy a b : truthy a = false -> py_or a b = b.
Proof. unfold py_or. now intros ->. Qed.

(** C10 (as the code has it). In [_normalize_coords] a dict-form coordinate
    whose ['lat'] is 0, with ['latitude'] absent or falsy and ['y'] absent
    or [None], is treated as missing, and the whole pair becomes
    [[0.0, 0.0]] whatever the longitude is; likewise for ['lng'] with
    ['longitude'] and ['x'].  A list or tuple coordinate is converted entry
    by entry, so a 0 entry stays 0 next to the other entry's value. *)
Theorem normalize_zero_coordinate (float_of_str : string -> option Q) :
  (forall d,
      is_zero (dict_get d "lat") = true ->
      truthy (dict_get d "latitude") = false -> dict_get d "y" = PyNone ->
      normalize_coord float_of_str (PyDict d) = inr (0, 0) /\
      _normalize_coords float_of_str [PyDict d] = inr [(0, 0)]) /\
  (forall d,
      is_zero (dict_get d "lng") = true ->
      truthy (dict_get d "longitude") = false -> dict_get d "x" = PyNone ->
      normalize_coord float_of_str (PyDict d) = inr (0, 0) /\
      _normalize_coords float_of_str [PyDict d] = inr [(0, 0)]) /\
  (forall c0 c1 rest q0 q1,
      py_float float_of_str c0 = inr q0 -> py_float float_of_str c1 = inr q1 ->
      normalize_coord float_of_str (PyList (c0 :: c1 :: rest)) = inr (q0, q1) /\
      normalize_coord float_of_str (PyTuple (c0 :: c1 :: rest)) = inr (q0, q1)) /\
  (forall v, normalize_coord float_of_str (PyList [PyInt 0; PyInt v])
             = inr (0, inject_Z v) /\
             normalize_coord float_of_str (PyList [PyInt v; PyInt 0])
             = inr (inject_Z v, 0)).
Proof.
  split; [|split; [|split]].
  - intros d Hz Hlat Hy.
    assert (H : normalize_coord float_of_str (PyDict d) = inr (0, 0)).
    { cbn [normalize_coord].
      rewrite (py_or_falsy (dict_get d "lat")) by (now apply is_zero_falsy).
      rewrite (py_or_falsy (dict_get d "latitude")) by assumption.
      rewrite Hy. reflexivity. }
    split; [exact H|]. cbn [_normalize_coords]. now rewrite H.
  - intros d Hz Hlng Hx.
    assert (H : normalize_coord float_of_str (PyDict d) = inr (0, 0)).
    { cbn [normalize_coord].
      rewrite (py_or_falsy (dict_get d "lng")) by (now apply is_zero_falsy).
      rewrite (py_or_falsy (dict_get d "longitude")) by assumption.
      rewrite Hx. cbn [is_none negb]. now rewrite andb_false_r. }
    split; [exact H|]. cbn [_normalize_coords]. now rewrite H.
  - intros c0 c1 rest q0 q1 H0 H1. cbn [normalize_coord float_pair].
    rewrite H0, H1. split; reflexivity.
  - intros v. split; reflexivity.
Qed.

(** C10 fails as stated: a zero latitude given under ['y'] (alone, or next
    to a zero ['lat']) is what the chain returns, it is not [None], and the
    pair keeps the longitude 7 instead of becoming [[0.0, 0.0]]. *)
Lemma normalize_zero_last_alias_counterexample :
  normalize_coord no_strings coord_zero_lat = inr (0, inject_Z 7) /\
  normalize_coord no_strings coord_zero_y = inr (0, inject_Z 7) /\
  normalize_coord no_strings coord_zero_lat <> inr (0, 0).
Proof.
  split; [reflexivity|]. split; [reflexivity|]. discriminate.
Qed.

(** ** C8: ingestion skips defective features *)

Lemma first_not_none_unresolvable keys d :
  unresolvable keys d -> first_not_none keys d = PyNone.
Proof.
  unfold unresolvable. induction keys as [|k keys IH]; intros H; cbn [first_not_none].
  - reflexivity.
  - pose proof (H k (or_introl eq_refl)) as Hk. unfold dict_get in Hk.
    assert (IH' : first_not_none keys d = PyNone)
      by (apply IH; intros k' Hk'; apply H; now right).
    destruct (lookup k d) as [v|]; [|exact IH'].
    subst v. exact IH'.
Qed.

Lemma update_bounds_all_fields cs :
  forall self,
    update_bounds_all cs self =
    mkHtmlExport (_points self) (_lines self) (_polygons self)
                 (bounds_after cs (_bounds self)) (stdout self).
Proof.
  unfold update_bounds_all, bounds_after.
  induction cs as [|c cs IH]; intros self; cbn [fold_left].
  - now destruct self.
  - rewrite IH. reflexivity.
Qed.

Lemma update_bounds_rings_fields rs :
  forall self,
    update_bounds_rings rs self =
    mkHtmlExport (_points self) (_lines self) (_polygons self)
                 (bounds_after (List.concat rs) (_bounds self)) (stdout self).
Proof.
  unfold update_bounds_rings.
  induction rs as [|r rs IH]; intros self; cbn [fold_left List.concat].
  - now destruct self.
  - rewrite IH, update_bounds_all_fields. cbn.
    unfold bounds_after. now rewrite fold_left_app.
Qed.

Lemma valid_rings_none l :
  Forall (fun r => forall ring, r = PyList ring -> (List.length ring < 3)%nat) l ->
  valid_rings l = [].
Proof.
  induction 1 as [|r l Hr _ IH]; cbn [valid_rings]; [reflexivity|].
  destruct r; try exact IH.
  specialize (Hr _ eq_refl).
  destruct (Nat.leb_spec 3 (List.length l0)); [lia | exact IH].
Qed.

Lemma is_multi_ring_nonempty l : is_multi_ring l = true -> l <> [].
Proof. destruct l; [discriminate | discriminate]. Qed.

Section Skips.

Variable float_of_str : string -> option Q.
Variable style : Dict.

Lemma point_defect_skipped point :
  point_defect point ->
  is_none (first_not_none lat_keys point) || is_none (first_not_none lng_keys point)
  = true.
Proof.
  intros [H|H]; rewrite (first_not_none_unresolvable _ _ H); cbn [is_none].
  - reflexivity.
  - apply orb_true_r.
Qed.

Lemma point_valid_kept point lat lng :
  point_valid float_of_str point lat lng ->
  is_none (first_not_none lat_keys point) || is_none (first_not_none lng_keys point)
  = false.
Proof.
  intros [Hlat Hlng].
  destruct (first_not_none lat_keys point); try discriminate;
    destruct (first_not_none lng_keys point); try discriminate; reflexivity.
Qed.

Lemma add_points_outcome batch fs ds :
  points_outcome float_of_str style batch fs ds ->
  forall self,
    add_points float_of_str style batch self =
    (mkHtmlExport (_points self ++ fs) (_lines self) (_polygons self)
                  (bounds_after (point_coords fs) (_bounds self))
                  (stdout self ++ ds), None).
Proof.
  induction 1 as [|point batch fs ds Hd _ IH|point lat lng batch fs ds Hv _ IH];
    intros self; cbn [add_points].
  - rewrite !app_nil_r. now destruct self.
  - rewrite (point_defect_skipped _ Hd), IH. cbn.
    now rewrite <- app_assoc.
  - rewrite (point_valid_kept _ _ _ Hv). destruct Hv as [Hlat Hlng].
    rewrite Hlat, Hlng, IH. cbn. now rewrite <- app_assoc.
Qed.

Lemma line_defect_skipped line batch self :
  line_defect line ->
  add_lines float_of_str style (line :: batch) self =
  add_lines float_of_str style batch (print (LineMissingCoords line) self).
Proof.
  intros Hd. cbn [add_lines]. unfold line_defect in Hd.
  destruct (line_coords_of line) as [|b|z|q|s|l|l|d] eqn:E; try reflexivity.
  specialize (Hd l eq_refl).
  destruct (Nat.ltb_spec (List.length l) 2); [|lia].
  now rewrite orb_true_r.
Qed.

Lemma line_valid_stored line cs batch self :
  line_valid float_of_str line cs ->
  add_lines float_of_str style (line :: batch) self =
  add_lines float_of_str style batch
    (update_bounds_all cs
       (append_line (mkLineFeature cs (without_keys line_coord_keys line) style)
                    self)).
Proof.
  intros (l & Hl & Hlen & Hn). cbn [add_lines]. rewrite Hl.
  destruct (Nat.ltb_spec (List.length l) 2); [lia|].
  destruct l as [|c l]; [cbn in Hlen; lia|]. cbn [truthy negb orb].
  now rewrite Hn.
Qed.

Lemma add_lines_outcome batch fs ds :
  lines_outcome float_of_str style batch fs ds ->
  forall self,
    add_lines float_of_str style batch self =
    (mkHtmlExport (_points self) (_lines self ++ fs) (_polygons self)
                  (bounds_after (line_coords fs) (_bounds self))
                  (stdout self ++ ds), None).
Proof.
  induction 1 as [|line batch fs ds Hd _ IH|line cs batch fs ds Hv _ IH];
    intros self.
  - cbn [add_lines]. rewrite !app_nil_r. now destruct self.
  - rewrite (line_defect_skipped _ _ _ Hd), IH. cbn. now rewrite <- app_assoc.
  - rewrite (line_valid_stored _ _ _ _ Hv), IH, update_bounds_all_fields. cbn.
    unfold bounds_after. now rewrite <- app_assoc, fold_left_app.
Qed.

Lemma polygon_defect_step polygon d :
  polygon_defect polygon d -> polygon_step float_of_str polygon = SkipPolygon d.
Proof.
  unfold polygon_defect, polygon_step.
  intros [[-> H] | [[-> (l & Hl & Hm & Hall)] | [-> (l & Hl & Hne & Hm & Hlen)]]].
  - destruct (polygon_coords_of polygon) as [|b|z|q|s|l|l|d'] eqn:E; try reflexivity.
    now rewrite (H l eq_refl).
  - rewrite Hl. pose proof (is_multi_ring_nonempty _ Hm) as Hne.
    destruct l as [|c l]; [now elim Hne|]. cbn [truthy negb orb List.length Nat.eqb].
    rewrite Hm, (valid_rings_none _ Hall). reflexivity.
  - rewrite Hl. destruct l as [|c l]; [now elim Hne|].
    cbn [truthy negb orb List.length Nat.eqb]. rewrite Hm.
    destruct (Nat.ltb_spec (S (List.length l)) 3) as [_|Hge]; [reflexivity|].
    cbn [List.length] in Hlen. lia.
Qed.

Lemma polygon_valid_step polygon rs :
  polygon_valid float_of_str polygon rs ->
  polygon_step float_of_str polygon = StorePolygon rs.
Proof.
  unfold polygon_valid, polygon_step.
  intros (l & Hl & [(Hm & Hvr & Hn) | (Hm & Hlen & r & Hn & ->)]); rewrite Hl.
  - pose proof (is_multi_ring_nonempty _ Hm) as Hne.
    destruct l as [|c l]; [now elim Hne|]. cbn [truthy negb orb List.length Nat.eqb].
    rewrite Hm. destruct (valid_rings (c :: l)) as [|v vr]; [now elim Hvr|].
    now rewrite Hn.
  - destruct l as [|c l]; [cbn in Hlen; lia|].
    cbn [truthy negb orb List.length Nat.eqb]. rewrite Hm.
    destruct (Nat.ltb_spec (S (List.length l)) 3) as [Hlt|_];
      [cbn [List.length] in Hlen; lia|].
    now rewrite Hn.
Qed.

Lemma add_polygons_outcome batch fs ds :
  polygons_outcome float_of_str style batch fs ds ->
  forall self,
    add_polygons float_of_str style batch self =
    (mkHtmlExport (_points self) (_lines self) (_polygons self ++ fs)
                  (bounds_after (polygon_coords fs) (_bounds self))
                  (stdout self ++ ds), None).
Proof.
  induction 1 as [|polygon d batch fs ds Hd _ IH|polygon rs batch fs ds Hv _ IH];
    intros self; cbn [add_polygons].
  - rewrite !app_nil_r. now destruct self.
  - rewrite (polygon_defect_step _ _ Hd), IH. cbn. now rewrite <- app_assoc.
  - rewrite (polygon_valid_step _ _ Hv), IH, update_bounds_rings_fields. cbn.
    unfold bounds_after. now rewrite <- app_assoc, fold_left_app.
Qed.

End Skips.

(** C8 (as the code has it). In a batch whose features are each either
    defective (a point with no resolvable lat/lng, a line with fewer than two
    coordinates, a polygon with no ring of at least three points) or valid
    (with coordinates that [float] and indexing accept), every defective
    feature is skipped with a diagnostic: it adds no feature and changes no
    stored state, and all the valid features of the batch are added, in
    order.  In particular a batch of one defective feature only prints. *)
Theorem ingestion_skips_defects (float_of_str : string -> option Q)
  (style : Dict) (self : HtmlExport) :
  (forall batch fs ds,
      points_outcome float_of_str style batch fs ds ->
      add_points float_of_str style batch self =
      (mkHtmlExport (_points self ++ fs) (_lines self) (_polygons self)
                    (bounds_after (point_coords fs) (_bounds self))
                    (stdout self ++ ds), None)) /\
  (forall batch fs ds,
      lines_outcome float_of_str style batch fs ds ->
      add_lines float_of_str style batch self =
      (mkHtmlExport (_points self) (_lines self ++ fs) (_polygons self)
                    (bounds_after (line_coords fs) (_bounds self))
                    (stdout self ++ ds), None)) /\
  (forall batch fs ds,
      polygons_outcome float_of_str style batch fs ds ->
      add_polygons float_of_str style batch self =
      (mkHtmlExport (_points self) (_lines self) (_polygons self ++ fs)
                    (bounds_after (polygon_coords fs) (_bounds self))
                    (stdout self ++ ds), None)) /\
  (forall point, point_defect point ->
      add_points float_of_str style [point] self =
      (print (PointMissingLatLng point) self, None)) /\
  (forall line, line_defect line ->
      add_lines float_of_str style [line] self =
      (print (LineMissingCoords line) self, None)) /\
  (forall polygon d, polygon_defect polygon d ->
      add_polygons float_of_str style [polygon] self = (print d self, None)).
Proof.
  split; [intros; now apply add_points_outcome|].
  split; [intros; now apply add_lines_outcome|].
  split; [intros; now apply add_polygons_outcome|].
  split; [|split].
  - intros point Hd. cbn [add_points].
    now rewrite (point_defect_skipped _ Hd).
  - intros line Hd. now rewrite (line_defect_skipped _ _ _ _ _ Hd).
  - intros polygon d Hd. cbn [add_polygons].
    now rewrite (polygon_defect_step _ _ _ Hd).
Qed.

(** C8 fails as stated for a batch that holds a feature whose coordinates
    are present but are no numbers.  In the batch of a point at (1, 2), a
    point with the latitude ['north'] and a point at (3, 4), the second
    point has both coordinates and so is not skipped; [float('north')]
    raises [ValueError], which ends the call: the first point stays added
    and the third, a valid one, is never added. *)
Lemma ingestion_stops_at_exception_counterexample :
  let batch := [point_at 1 2; point_unparsable; point_at 3 4] in
  let r := add_points no_strings [] batch init in
  ~ point_defect point_unparsable /\
  point_valid no_strings (point_at 3 4) (inject_Z 3) (inject_Z 4) /\
  snd r = Some ValueError /\
  _points (fst r) = [mkPointFeature (inject_Z 1) (inject_Z 2) [] []] /\
  stdout (fst r) = [] /\
  ~ In (mkPointFeature (inject_Z 3) (inject_Z 4) [] []) (_points (fst r)).
Proof.
  cbv zeta. split; [|split; [|split; [|split; [|split]]]].
  - intros [H|H].
    + specialize (H "lat"%string (or_introl eq_refl)). discriminate H.
    + specialize (H "lng"%string (or_introl eq_refl)). discriminate H.
  - split; reflexivity.
  - reflexivity.
  - reflexivity.
  - reflexivity.
  - intros [H|[]]. discriminate H.
Qed.

(** ** The theorems at concrete inputs *)

Lemma normalize_zero_coordinate_witness :
  normalize_coord no_strings (PyDict [("lat", PyInt 0); ("lng", PyInt 7)])
  = inr (0, 0) /\
  normalize_coord no_strings (PyDict [("lat", PyInt 7); ("lng", PyFloat 0)])
  = inr (0, 0) /\
  normalize_coord no_strings (PyList [PyInt 0; PyInt 7]) = inr (0, inject_Z 7).
Proof.
  destruct (normalize_zero_coordinate no_strings) as (Hlat & Hlng & Hlist & _).
  split; [|split].
  - apply (Hlat [("lat", PyInt 0); ("lng", PyInt 7)]); reflexivity.
  - apply (Hlng [("lat", PyInt 7); ("lng", PyFloat 0)]); reflexivity.
  - apply (Hlist (PyInt 0) (PyInt 7) []); reflexivity.
Defined.

Lemma ingestion_skips_defects_witness :
  add_points no_strings []
             [point_at 1 2; [("name", PyStr "nowhere")]; point_at 3 4] init
  = (mkHtmlExport
       ([] ++ [mkPointFeature (inject_Z 1) (inject_Z 2) [] [];
               mkPointFeature (inject_Z 3) (inject_Z 4) [] []])
       [] []
       (bounds_after [(inject_Z 1, inject_Z 2); (inject_Z 3, inject_Z 4)] None)
       ([] ++ [PointMissingLatLng [("name", PyStr "nowhere")]]), None).
Proof.
  destruct (ingestion_skips_defects no_strings [] init) as (Hpoints & _).
  apply (Hpoints [point_at 1 2; [("name", PyStr "nowhere")]; point_at 3 4]).
  apply (points_store no_strings [] (point_at 1 2) (inject_Z 1) (inject_Z 2)).
  { split; reflexivity. }
  apply points_skip.
  { left. intros k [<-|[<-|[<-|[]]]]; reflexivity. }
  apply (points_store no_strings [] (point_at 3 4) (inject_Z 3) (inject_Z 4)).
  { split; reflexivity. }
  apply points_nil.
Defined.

End PyTheory.

(** * Further properties of the engine *)

Module JsExtra.

Import Js JsTheory.
Local Open Scope R_scope.

(** ** The projection *)

(** X1. Reading a pixel as a geographic position and projecting that
    position gives the pixel back, for every pixel and every view. *)
Theorem pixel_round_trip (v : View) (px py : R) :
  let g := pixelToLatLng v px py in
  latlngToPixel v (ll_lat g) (ll_lng g) = mkPixel px py.
Proof.
  intros g. subst g. pose proof (scale_pos (viewZoom v)) as Hs.
  unfold latlngToPixel, pixelToLatLng. cbn [ll_lat ll_lng].
  set (s := pow2 (viewZoom v) * TILE_SIZE) in *.
  set (W := canvas_width v / devicePixelRatio v).
  set (H := canvas_height v / devicePixelRatio v).
  set (c := getCenterPixel v).
  rewrite mercatorY_inverseMercator by lra.
  f_equal; field; lra.
Qed.

(** X2. The view center is drawn at the middle of the canvas, and the
    middle of the canvas reads back as the view center (its latitude being
    short of the poles). *)
Theorem center_is_canvas_middle (v : View) :
  let W := canvas_width v / devicePixelRatio v in
  let H := canvas_height v / devicePixelRatio v in
  latlngToPixel v (fst (viewCenter v)) (snd (viewCenter v))
  = mkPixel (W / 2) (H / 2) /\
  (-90 < fst (viewCenter v) < 90 ->
   pixelToLatLng v (W / 2) (H / 2)
   = mkLatLng (fst (viewCenter v)) (snd (viewCenter v))).
Proof.
  intros W H. pose proof (scale_pos (viewZoom v)) as Hs. split.
  - unfold latlngToPixel, getCenterPixel. cbn [pix_x pix_y]. fold W H.
    f_equal; ring.
  - intros Hlat. unfold pixelToLatLng, getCenterPixel. cbn [pix_x pix_y]. fold W H.
    set (s := pow2 (viewZoom v) * TILE_SIZE) in *. f_equal.
    + replace (H / 2 + mercatorY (fst (viewCenter v)) s - H / 2)
        with (mercatorY (fst (viewCenter v)) s) by ring.
      apply inverseMercator_mercatorY; lra.
    + field. lra.
Qed.

Lemma center_is_canvas_middle_witness :
  pixelToLatLng (view800 (45, 90) 3) (800 / 1 / 2) (600 / 1 / 2) = mkLatLng 45 90.
Proof.
  apply (proj2 (center_is_canvas_middle (view800 (45, 90) 3))).
  cbn [view800 viewCenter fst]. lra.
Defined.

(** X3. East is to the right and north is up: the pixel column depends on
    the longitude only and grows with it, the pixel row depends on the
    latitude only and shrinks as the latitude grows (between the poles). *)
Theorem projection_orientation (v : View) (lat1 lng1 lat2 lng2 : R) :
  (lng1 < lng2 ->
   pix_x (latlngToPixel v lat1 lng1) < pix_x (latlngToPixel v lat2 lng2)) /\
  (-90 < lat1 -> lat1 < lat2 -> lat2 < 90 ->
   pix_y (latlngToPixel v lat2 lng2) < pix_y (latlngToPixel v lat1 lng1)) /\
  pix_x (latlngToPixel v lat1 lng1) = pix_x (latlngToPixel v lat2 lng1) /\
  pix_y (latlngToPixel v lat1 lng1) = pix_y (latlngToPixel v lat1 lng2).
Proof.
  pose proof (scale_pos (viewZoom v)) as Hs.
  unfold latlngToPixel. cbn [pix_x pix_y].
  set (s := pow2 (viewZoom v) * TILE_SIZE) in *.
  split; [|split; [|split; reflexivity]].
  - intros Hlng.
    assert ((lng1 + 180) / 360 * s < (lng2 + 180) / 360 * s) by nra.
    lra.
  - intros H1 H12 H2.
    pose proof (mercatorY_decreasing s lat1 lat2 Hs H1 H12 H2). lra.
Qed.

Lemma projection_orientation_witness :
  pix_x (latlngToPixel (view800 (0, 0) 3) 10 20)
  < pix_x (latlngToPixel (view800 (0, 0) 3) 50 30) /\
  pix_y (latlngToPixel (view800 (0, 0) 3) 50 30)
  < pix_y (latlngToPixel (view800 (0, 0) 3) 10 20).
Proof.
  destruct (projection_orientation (view800 (0, 0) 3) 10 20 50 30) as (Hx & Hy & _).
  split; [apply Hx | apply Hy]; lra.
Defined.

(** X4. Raising the zoom by [dz] with the center kept scales every offset
    from the middle of the canvas by 2^dz; one zoom level doubles it. *)
Theorem zoom_scales_offsets (v : View) (dz lat lng : R) :
  let W := canvas_width v / devicePixelRatio v in
  let H := canvas_height v / devicePixelRatio v in
  let p := latlngToPixel v lat lng in
  let p' := latlngToPixel (set_zoom v (viewZoom v + dz)) lat lng in
  pix_x p' - W / 2 = pow2 dz * (pix_x p - W / 2) /\
  pix_y p' - H / 2 = pow2 dz * (pix_y p - H / 2) /\
  pow2 1 = 2.
Proof.
  intros W H p p'. subst p p'.
  pose proof (scale_pos (viewZoom v)) as Hs.
  assert (Hpow : pow2 (viewZoom v + dz) = pow2 (viewZoom v) * pow2 dz).
  { unfold pow2. apply Rpower_plus. }
  unfold latlngToPixel, getCenterPixel, set_zoom.
  cbn [viewCenter viewZoom canvas_width canvas_height devicePixelRatio pix_x pix_y].
  fold W H. rewrite Hpow.
  set (s := pow2 (viewZoom v) * TILE_SIZE) in *.
  replace (pow2 (viewZoom v) * pow2 dz * TILE_SIZE) with (s * pow2 dz)
    by (subst s; ring).
  rewrite (mercatorY_scale lat s (s * pow2 dz)) by lra.
  rewrite (mercatorY_scale (fst (viewCenter v)) s (s * pow2 dz)) by lra.
  split; [|split; [|apply pow2_1]]; field; lra.
Qed.

(** ** The viewport controller *)

Lemma log2_2 : log2 2 = 1.
Proof.
  unfold log2. field. pose proof ln_lt_2. lra.
Qed.

Lemma log2_1 : log2 1 = 0.
Proof. unfold log2. rewrite ln_1. field. pose proof ln_lt_2. lra. Qed.

(** X5. Whatever the state before, the zoom is within [1,20] after every
    wheel event and after every [setZoom]; pinch moves keep it there; and
    mouse presses, moves and releases never change it. *)
Theorem zoom_stays_in_range :
  (forall fuel e st st', onWheel fuel e st = Some st' ->
                         1 <= viewZoom (view st') <= 20) /\
  (forall z st, 1 <= viewZoom (view (setZoom z st)) <= 20) /\
  (forall touches st, 1 <= viewZoom (view st) <= 20 ->
                      1 <= viewZoom (view (onTouchMove touches st)) <= 20) /\
  (forall e st, viewZoom (view (onMouseDown e st)) = viewZoom (view st) /\
                viewZoom (view (onMouseMove e st)) = viewZoom (view st) /\
                viewZoom (view (onMouseUp st)) = viewZoom (view st) /\
                viewZoom (view (onMouseLeave st)) = viewZoom (view st)).
Proof.
  split; [|split; [|split]].
  - intros fuel e st st' H. unfold onWheel in H.
    destruct (wrapTargetLng fuel _ _) as [tl|]; [|discriminate].
    destruct (Reqb _ _) eqn:E.
    + inversion H; subst. apply Reqb_true in E. rewrite <- E.
      apply clampZoom_range.
    + destruct (wheelRawCenter _ _ _ _ _ _) as [rlat rlng].
      destruct (normalizeLng fuel rlng) as [nl|]; [|discriminate].
      inversion H; subst. cbn. apply clampZoom_range.
  - intros z st. cbn. apply clampZoom_range.
  - intros touches st Hz. unfold onTouchMove.
    destruct touches as [|t0 [|t1 [|t2 rest]]]; try exact Hz.
    + destruct (isDragging st); [|exact Hz].
      destruct (dragStart st); [|exact Hz].
      destruct (dragCenterStart st); exact Hz.
    + destruct (touchStartDist st) as [d0|]; [|exact Hz].
      destruct (Reqb d0 0); [exact Hz|]. cbv zeta.
      destruct (Reqb _ 0); cbn; [lra | apply clampZoom_range].
  - intros e st. repeat split.
    unfold onMouseMove. destruct (isDragging st); [|reflexivity].
    destruct (dragStart st); [|reflexivity].
    destruct (dragCenterStart st); reflexivity.
Qed.

Lemma zoom_stays_in_range_witness :
  1 <= viewZoom (view (onTouchMove [mkPixel 0 0; mkPixel 6 8]
                         (onTouchStart [mkPixel 0 0; mkPixel 3 4] stateOrigin)))
    <= 20.
Proof.
  apply (proj1 (proj2 (proj2 zoom_stays_in_range))).
  cbn. lra.
Defined.

(** X6. A pinch sets the zoom to the zoom at its start plus the binary
    logarithm of the ratio of finger distances, clamped to [1,20], and
    leaves the center where it was: doubling the distance adds one level,
    an unchanged distance restores the start zoom.  When the two contacts
    of a move coincide the zoom drops to 1, the lowest level.  When the two
    contacts start on the same spot the pinch is ignored. *)
Theorem pinch_zoom (st : State) (a b a' b' : Pixel) :
  let d0 := getTouchDistance a b in
  let d := getTouchDistance a' b' in
  let st2 := onTouchMove [a'; b'] (onTouchStart [a; b] st) in
  (d0 <> 0 ->
   viewCenter (view st2) = viewCenter (view st) /\
   (d <> 0 ->
    0 < d / d0 /\
    viewZoom (view st2) = clampZoom (viewZoom (view st) + log2 (d / d0))) /\
   (d = 2 * d0 -> viewZoom (view st2) = clampZoom (viewZoom (view st) + 1)) /\
   (d = d0 -> viewZoom (view st2) = clampZoom (viewZoom (view st))) /\
   (d = 0 -> viewZoom (view st2) = 1)) /\
  (d0 = 0 -> st2 = onTouchStart [a; b] st).
Proof.
  intros d0 d st2. subst st2. unfold onTouchMove, onTouchStart.
  cbn [touchStartDist touchStartZoom]. fold d0 d. split.
  - intros Hd0. rewrite (proj2 (Reqb_false d0 0) Hd0).
    assert (Hd0' : 0 < d0).
    { pose proof (sqrt_pos ((pix_x a - pix_x b) * (pix_x a - pix_x b)
                            + (pix_y a - pix_y b) * (pix_y a - pix_y b))) as H.
      fold (getTouchDistance a b) in H. fold d0 in H. lra. }
    assert (Hd' : 0 <= d).
    { pose proof (sqrt_pos ((pix_x a' - pix_x b') * (pix_x a' - pix_x b')
                            + (pix_y a' - pix_y b') * (pix_y a' - pix_y b'))) as H.
      fold (getTouchDistance a' b') in H. fold d in H. exact H. }
    assert (Hscale : d <> 0 -> 0 < d / d0).
    { intros Hd. apply Rdiv_lt_0_compat; lra. }
    cbv zeta. destruct (Reqb (d / d0) 0) eqn:E.
    + apply Reqb_true in E.
      assert (Hd : d = 0).
      { destruct (Req_dec d 0) as [|Hne]; [assumption|].
        specialize (Hscale Hne). lra. }
      cbn [view with_view set_zoom viewZoom viewCenter].
      split; [reflexivity|]. split; [intros Hne; contradiction|].
      split; [intros H2; lra|]. split; [intros H1; lra|]. reflexivity.
    + apply Reqb_false in E.
      cbn [setZoom view with_view set_zoom viewZoom viewCenter].
      split; [reflexivity|].
      split; [intros Hne; split; [now apply Hscale | reflexivity]|].
      split; [|split].
      * intros ->. replace (2 * d0 / d0) with 2 by (field; exact Hd0).
        now rewrite log2_2.
      * intros ->. replace (d0 / d0) with 1 by (field; exact Hd0).
        now rewrite log2_1, Rplus_0_r.
      * intros H0. rewrite H0 in E. exfalso. apply E. field. exact Hd0.
  - intros Hd0. now rewrite (proj2 (Reqb_true d0 0) Hd0).
Qed.

Lemma getTouchDistance_3_4 : getTouchDistance (mkPixel 0 0) (mkPixel 3 4) = 5.
Proof.
  unfold getTouchDistance. cbn [pix_x pix_y].
  replace ((0 - 3) * (0 - 3) + (0 - 4) * (0 - 4)) with (5 * 5) by ring.
  apply sqrt_square. lra.
Qed.

Lemma getTouchDistance_6_8 : getTouchDistance (mkPixel 0 0) (mkPixel 6 8) = 10.
Proof.
  unfold getTouchDistance. cbn [pix_x pix_y].
  replace ((0 - 6) * (0 - 6) + (0 - 8) * (0 - 8)) with (10 * 10) by ring.
  apply sqrt_square. lra.
Qed.

Lemma pinch_zoom_witness :
  viewZoom (view (onTouchMove [mkPixel 0 0; mkPixel 6 8]
                              (onTouchStart [mkPixel 0 0; mkPixel 3 4] stateOrigin)))
  = clampZoom (1 + 1) /\
  viewZoom (view (onTouchMove [mkPixel 1 1; mkPixel 1 1]
                              (onTouchStart [mkPixel 0 0; mkPixel 3 4] stateOrigin)))
  = 1.
Proof.
  split.
  - destruct (pinch_zoom stateOrigin (mkPixel 0 0) (mkPixel 3 4)
                         (mkPixel 0 0) (mkPixel 6 8)) as (Hpinch & _).
    destruct Hpinch as (_ & _ & Hdouble & _).
    + rewrite getTouchDistance_3_4. lra.
    + apply Hdouble. rewrite getTouchDistance_3_4, getTouchDistance_6_8. lra.
  - destruct (pinch_zoom stateOrigin (mkPixel 0 0) (mkPixel 3 4)
                         (mkPixel 1 1) (mkPixel 1 1)) as (Hpinch & _).
    destruct Hpinch as (_ & _ & _ & _ & Hzero).
    + rewrite getTouchDistance_3_4. lra.
    + apply Hzero. unfold getTouchDistance. cbn [pix_x pix_y].
      replace ((1 - 1) * (1 - 1) + (1 - 1) * (1 - 1)) with 0 by ring.
      apply sqrt_0.
Defined.

(** The gesture fields that a drag keeps while the pointer moves. *)
Lemma onMouseMove_keeps (e : MouseEvent) (st : State) :
  isDragging (onMouseMove e st) = isDragging st /\
  dragStart (onMouseMove e st) = dragStart st /\
  dragCenterStart (onMouseMove e st) = dragCenterStart st.
Proof.
  unfold onMouseMove. destruct (isDragging st) eqn:Hd; [|now rewrite Hd].
  destruct (dragStart st) eqn:Hs; [|now rewrite Hd, Hs].
  destruct (dragCenterStart st) eqn:Hc; cbn; rewrite ?Hd, ?Hs, ?Hc; auto.
Qed.

Lemma drag_keeps (moves : list MouseEvent) :
  forall st,
    let st1 := fold_left (fun s e => onMouseMove e s) moves st in
    isDragging st1 = isDragging st /\ dragStart st1 = dragStart st /\
    dragCenterStart st1 = dragCenterStart st.
Proof.
  induction moves as [|e moves IH]; intros st; cbn [fold_left].
  - auto.
  - destruct (IH (onMouseMove e st)) as (A & B & C).
    destruct (onMouseMove_keeps e st) as (A' & B' & C').
    cbv zeta. rewrite A, B, C. auto.
Qed.

Lemma panCenter_still (v : View) (start : R * R) (x y : R) :
  panCenter v start (x - x) (y - y) = start.
Proof.
  unfold panCenter.
  replace (canvas_width v / 2 / devicePixelRatio v - (x - x))
    with (canvas_width v / 2 / devicePixelRatio v) by ring.
  replace (canvas_height v / 2 / devicePixelRatio v - (y - y))
    with (canvas_height v / 2 / devicePixelRatio v) by ring.
  destruct start as [la lo]. cbn [fst snd]. f_equal; ring.
Qed.

(** X7. However the pointer has moved during a drag, bringing it back to
    where the button went down restores the center the view had at that
    moment, as long as the drag never took the center latitude to a pole
    or beyond (where the projection of the center is no number any more,
    and the center stays lost). *)
Theorem drag_back_restores_center (st : State) (e0 : MouseEvent)
  (moves : list MouseEvent) :
  Forall latitudeValid (dragStates moves (onMouseDown e0 st)) ->
  let st1 := fold_left (fun s e => onMouseMove e s) moves (onMouseDown e0 st) in
  viewCenter (view (onMouseMove e0 st1)) = viewCenter (view st) /\
  latitudeValid (onMouseMove e0 st1).
Proof.
  intros Hvalid st1.
  destruct (drag_keeps moves (onMouseDown e0 st)) as (A & B & C).
  fold st1 in A, B, C. cbn [onMouseDown isDragging dragStart dragCenterStart] in A, B, C.
  assert (Hc : viewCenter (view (onMouseMove e0 st1)) = viewCenter (view st)).
  { unfold onMouseMove. rewrite A, B, C.
    cbn [pix_x pix_y view with_view set_center viewCenter].
    apply panCenter_still. }
  split; [exact Hc|].
  unfold latitudeValid. rewrite Hc.
  inversion Hvalid as [|s l Hs _ Heq].
  - destruct moves; discriminate.
  - destruct moves; cbn [dragStates] in Heq; inversion Heq; subst; exact Hs.
Qed.

Lemma drag_back_restores_center_witness :
  viewCenter (view (onMouseMove (mkMouseEvent 400 300 0)
                      (onMouseMove moveRight10
                         (onMouseDown (mkMouseEvent 400 300 0) stateOrigin))))
  = (0, 0).
Proof.
  refine (proj1 (drag_back_restores_center stateOrigin (mkMouseEvent 400 300 0)
                   [moveRight10] _)).
  assert (Hlat : forall s, fst (viewCenter (view s)) = 0 -> latitudeValid s).
  { intros s H. unfold latitudeValid. rewrite H. lra. }
  cbn [dragStates]. constructor; [|constructor; [|constructor]].
  - apply Hlat. reflexivity.
  - apply Hlat. unfold onMouseMove, onMouseDown, stateOrigin, moveRight10, idle.
    cbn [isDragging dragStart dragCenterStart view with_view set_center viewCenter
         clientX clientY pix_x pix_y fst].
    unfold panCenter, pixelToLatLng. cbn [fst ll_lat].
    replace (300 - 300) with 0 by ring. rewrite Rminus_0_r.
    change (fst (viewCenter (view800 (0, 0) 1))) with 0. ring.
Defined.

(** X8. Without an active drag pointer moves do not touch the state, and a
    release, a leave and a touch end each end the drag: whatever moves
    follow, the view stays as it was. *)
Theorem no_pan_without_drag (st : State) (moves : list MouseEvent) :
  (isDragging st = false ->
   fold_left (fun s e => onMouseMove e s) moves st = st) /\
  fold_left (fun s e => onMouseMove e s) moves (onMouseUp st) = onMouseUp st /\
  fold_left (fun s e => onMouseMove e s) moves (onMouseLeave st) = onMouseLeave st /\
  fold_left (fun s e => onMouseMove e s) moves (onTouchEnd st) = onTouchEnd st /\
  view (onMouseUp st) = view st /\ view (onMouseLeave st) = view st /\
  view (onTouchEnd st) = view st.
Proof.
  assert (Hidle : forall s, isDragging s = false ->
                  fold_left (fun s e => onMouseMove e s) moves s = s).
  { induction moves as [|e moves IH]; intros s Hs; cbn [fold_left]; [reflexivity|].
    assert (He : onMouseMove e s = s) by (unfold onMouseMove; now rewrite Hs).
    rewrite He. now apply IH. }
  split; [apply Hidle|].
  repeat split; apply Hidle; reflexivity.
Qed.

Lemma no_pan_without_drag_witness :
  fold_left (fun s e => onMouseMove e s) [moveRight10; moveRight256] stateOrigin
  = stateOrigin.
Proof.
  apply (proj1 (no_pan_without_drag stateOrigin [moveRight10; moveRight256])).
  reflexivity.
Defined.

(** ** Hit-testing of lines *)

Lemma sum_sq_zero a b : a * a + b * b = 0 -> a = 0 /\ b = 0.
Proof. intros H. split; nra. Qed.

(** The squared distance from the point to the segment's point at [t] is
    least at the clamped foot of the perpendicular. *)
Lemma clamped_foot_minimal (a b dx dy t : R) :
  dx * dx + dy * dy <> 0 -> 0 <= t <= 1 ->
  let t0 := (a * dx + b * dy) / (dx * dx + dy * dy) in
  let tc := Rmax 0 (Rmin 1 t0) in
  0 <= tc <= 1 /\
  (a - tc * dx) ^ 2 + (b - tc * dy) ^ 2 <= (a - t * dx) ^ 2 + (b - t * dy) ^ 2.
Proof.
  intros HL Ht t0 tc.
  set (L := dx * dx + dy * dy) in *.
  assert (HLpos : 0 < L) by (subst L; nra).
  assert (HN : a * dx + b * dy = t0 * L) by (subst t0; field; exact HL).
  assert (Hdiff : forall s,
             (a - t * dx) ^ 2 + (b - t * dy) ^ 2
             - ((a - s * dx) ^ 2 + (b - s * dy) ^ 2)
             = L * ((t - s) * (t + s - 2 * t0))).
  { intros s. subst L.
    replace ((a - t * dx) ^ 2 + (b - t * dy) ^ 2
             - ((a - s * dx) ^ 2 + (b - s * dy) ^ 2))
      with (- 2 * (t - s) * (a * dx + b * dy)
            + (t * t - s * s) * (dx * dx + dy * dy)) by ring.
    rewrite HN. ring. }
  assert (Hcases : (0 <= t0 <= 1 /\ tc = t0) \/ (t0 < 0 /\ tc = 0)
                   \/ (1 < t0 /\ tc = 1)).
  { subst tc. unfold Rmax, Rmin.
    destruct (Rle_dec 1 t0); destruct (Rle_dec 0 _); lra. }
  split; [destruct Hcases as [[H0 E]|[[H0 E]|[H0 E]]]; rewrite E; lra|].
  assert (Hnn : 0 <= L * ((t - tc) * (t + tc - 2 * t0))).
  { apply Rmult_le_pos; [lra|].
    destruct Hcases as [[H0 E]|[[H0 E]|[H0 E]]]; rewrite E.
    - replace ((t - t0) * (t + t0 - 2 * t0)) with ((t - t0) * (t - t0)) by ring.
      apply Rle_0_sqr.
    - apply Rmult_le_pos; lra.
    - replace ((t - 1) * (t + 1 - 2 * t0)) with ((1 - t) * (2 * t0 - 1 - t)) by ring.
      apply Rmult_le_pos; lra. }
  rewrite <- (Hdiff tc) in Hnn. lra.
Qed.

Lemma pointToSegmentDistance_le (px py x1 y1 x2 y2 t : R) :
  0 <= t <= 1 ->
  pointToSegmentDistance px py x1 y1 x2 y2
  <= sqrt ((px - (x1 + t * (x2 - x1))) ^ 2 + (py - (y1 + t * (y2 - y1))) ^ 2).
Proof.
  intros Ht. unfold pointToSegmentDistance.
  destruct (Reqb _ 0) eqn:E.
  - apply Reqb_true in E. apply sum_sq_zero in E. destruct E as [Ex Ey].
    rewrite Ex, Ey. right. f_equal. ring.
  - apply Reqb_false in E.
    destruct (clamped_foot_minimal (px - x1) (py - y1) (x2 - x1) (y2 - y1) t E Ht)
      as (_ & Hle).
    cbv zeta in Hle. apply sqrt_le_1_alt.
    match goal with |- ?l <= ?r =>
      match type of Hle with ?l' <= ?r' =>
        replace l with l' by ring; replace r with r' by ring end end.
    exact Hle.
Qed.

(** X9. [pointToSegmentDistance] is the distance from the point to the
    segment: it is the distance to one point of the segment, and no point of
    the segment is nearer.  A segment of length zero counts as its one
    point. *)
Theorem segment_distance_is_minimum (px py x1 y1 x2 y2 : R) :
  let along t :=
    sqrt ((px - (x1 + t * (x2 - x1))) ^ 2 + (py - (y1 + t * (y2 - y1))) ^ 2) in
  let d := pointToSegmentDistance px py x1 y1 x2 y2 in
  0 <= d /\
  (exists t, 0 <= t <= 1 /\ d = along t) /\
  (forall t, 0 <= t <= 1 -> d <= along t).
Proof.
  intros along d. split; [|split].
  - subst d. unfold pointToSegmentDistance. destruct (Reqb _ 0); apply sqrt_pos.
  - subst d along. unfold pointToSegmentDistance.
    destruct (Reqb _ 0) eqn:E.
    + exists 0. split; [lra|]. f_equal. ring.
    + apply Reqb_false in E.
      destruct (clamped_foot_minimal (px - x1) (py - y1) (x2 - x1) (y2 - y1) 0 E
                                     ltac:(lra)) as (Hin & _).
      cbv zeta in Hin.
      eexists. split; [exact Hin|]. cbv zeta. f_equal.
  - intros t Ht. apply pointToSegmentDistance_le. exact Ht.
Qed.

Lemma segment_distance_is_minimum_witness :
  pointToSegmentDistance 5 3 0 0 10 0
  <= sqrt ((5 - (0 + (1 / 2) * (10 - 0))) ^ 2 + (3 - (0 + (1 / 2) * (0 - 0))) ^ 2).
Proof.
  destruct (segment_distance_is_minimum 5 3 0 0 10 0) as (_ & _ & Hmin).
  apply (Hmin (1 / 2)). lra.
Defined.

Lemma nearSegments_iff (v : View) (px py tol : R) (coords : list Coord) :
  nearSegments v px py tol coords = true <->
  exists i c1 c2,
    nth_error coords i = Some c1 /\ nth_error coords (S i) = Some c2 /\
    let p1 := latlngToPixel v (fst c1) (snd c1) in
    let p2 := latlngToPixel v (fst c2) (snd c2) in
    pointToSegmentDistance px py (pix_x p1) (pix_y p1) (pix_x p2) (pix_y p2) <= tol.
Proof.
  induction coords as [|c1 coords IH].
  - cbn. split; [discriminate|]. intros (i & a & b & H & _). destruct i; discriminate.
  - destruct coords as [|c2 coords].
    + cbn. split; [discriminate|]. intros (i & a & b & H1 & H2 & _).
      destruct i as [|[|i]]; discriminate.
    + cbn [nearSegments]. destruct (Rleb _ tol) eqn:E.
      * split; [|reflexivity]. intros _. apply Rleb_true in E.
        exists 0%nat, c1, c2. repeat split; auto.
      * rewrite IH. apply Rleb_false in E. split.
        -- intros (i & a & b & H1 & H2 & H3). exists (S i), a, b. auto.
        -- intros (i & a & b & H1 & H2 & H3). destruct i as [|i].
           ++ cbn in H1, H2. inversion H1; inversion H2; subst. cbv zeta in H3. lra.
           ++ exists i, a, b. auto.
Qed.

(** X10. A line is hit exactly when the query is within half the stroke
    width plus 5 pixels of one of its projected segments; so a query within
    that tolerance of any point of any segment hits, and a line of fewer
    than two coordinates is never hit. *)
Theorem line_hit_iff (v : View) (px py : R) (line : Line) :
  let tol := stroke_width (line_style line) / 2 + 5 in
  let project (c : Coord) := latlngToPixel v (fst c) (snd c) in
  (isPointNearLine v px py line = true <->
   exists i c1 c2,
     nth_error (line_coords line) i = Some c1 /\
     nth_error (line_coords line) (S i) = Some c2 /\
     pointToSegmentDistance px py (pix_x (project c1)) (pix_y (project c1))
                            (pix_x (project c2)) (pix_y (project c2)) <= tol) /\
  (forall i c1 c2 t,
      nth_error (line_coords line) i = Some c1 ->
      nth_error (line_coords line) (S i) = Some c2 ->
      0 <= t <= 1 ->
      sqrt ((px - (pix_x (project c1)
                   + t * (pix_x (project c2) - pix_x (project c1)))) ^ 2
            + (py - (pix_y (project c1)
                     + t * (pix_y (project c2) - pix_y (project c1)))) ^ 2) <= tol ->
      isPointNearLine v px py line = true) /\
  ((List.length (line_coords line) < 2)%nat -> isPointNearLine v px py line = false).
Proof.
  intros tol project. unfold isPointNearLine. fold tol.
  split; [apply nearSegments_iff|]. split.
  - intros i c1 c2 t H1 H2 Ht Hd. apply nearSegments_iff.
    exists i, c1, c2. split; [exact H1|]. split; [exact H2|]. cbv zeta.
    eapply Rle_trans; [apply (pointToSegmentDistance_le _ _ _ _ _ _ t Ht) | exact Hd].
  - intros Hlen. destruct (line_coords line) as [|c1 [|c2 rest]]; try reflexivity.
    cbn in Hlen. lia.
Qed.

Lemma line_hit_iff_witness :
  isPointNearLine (view800 (0, 0) 1) 400 300
                  (mkLine [(0, 0); (0, 10)] [] (mkLineStyle 3)) = true.
Proof.
  destruct (line_hit_iff (view800 (0, 0) 1) 400 300
                         (mkLine [(0, 0); (0, 10)] [] (mkLineStyle 3)))
    as (_ & Hnear & _).
  apply (Hnear 0%nat (0, 0) (0, 10) 0); [reflexivity | reflexivity | lra |].
  cbn [fst snd line_style stroke_width].
  pose proof (center_pixel (0, 0) 1) as Hc. cbn [fst snd] in Hc. rewrite Hc.
  cbn [pix_x pix_y].
  replace ((400 - (400 + 0 * (pix_x (latlngToPixel (view800 (0, 0) 1) 0 10) - 400))) ^ 2
           + (300 - (300 + 0 * (pix_y (latlngToPixel (view800 (0, 0) 1) 0 10) - 300))) ^ 2)
    with 0 by ring.
  rewrite sqrt_0. lra.
Defined.

(** ** Hit-testing of rings *)

(** Where the ray meets a straddling edge lies between the edge's ends. *)
Lemma crossing_between (py xi yi xj yj : R) :
  Rgtb yi py <> Rgtb yj py ->
  Rmin xi xj <= (xj - xi) * (py - yi) / (yj - yi) + xi <= Rmax xi xj.
Proof.
  intros Hside.
  assert (Hcases : (py < yi /\ yj <= py) \/ (yi <= py /\ py < yj)).
  { destruct (Rgtb yi py) eqn:Ei; destruct (Rgtb yj py) eqn:Ej;
      try (now elim Hside).
    - apply Rgtb_true in Ei. apply Rgtb_false in Ej. left. lra.
    - apply Rgtb_false in Ei. apply Rgtb_true in Ej. right. lra. }
  assert (HD : yj - yi <> 0) by lra.
  set (lam := (py - yi) / (yj - yi)).
  assert (Hlam : lam * (yj - yi) = py - yi) by (subst lam; field; exact HD).
  assert (Hrange : 0 <= lam <= 1).
  { destruct Hcases as [[H1 H2]|[H1 H2]]; split; nra. }
  replace ((xj - xi) * (py - yi) / (yj - yi) + xi) with (xi + lam * (xj - xi))
    by (subst lam; field; exact HD).
  unfold Rmin, Rmax. destruct (Rle_dec xi xj); split; nra.
Qed.

Lemma edgeCrosses_inv (px py : R) (pi pj : Pixel) :
  edgeCrosses px py pi pj = true ->
  Rgtb (pix_y pi) py <> Rgtb (pix_y pj) py /\
  (px < pix_x pi \/ px < pix_x pj).
Proof.
  unfold edgeCrosses. intros H. apply andb_true_iff in H. destruct H as [Hs Hx].
  assert (Hside : Rgtb (pix_y pi) py <> Rgtb (pix_y pj) py).
  { intros E. rewrite E, eqb_reflx in Hs. discriminate. }
  split; [exact Hside|]. apply Rltb_true in Hx.
  pose proof (crossing_between py (pix_x pi) (pix_y pi) (pix_x pj) (pix_y pj) Hside)
    as [_ Hmax].
  unfold Rmax in Hmax. destruct (Rle_dec (pix_x pi) (pix_x pj)); [right|left]; lra.
Qed.

(** With every vertex to the right of the query the ray crosses exactly the
    straddling edges. *)
Lemma edgeCrosses_right (px py : R) (pi pj : Pixel) :
  px < pix_x pi -> px < pix_x pj ->
  edgeCrosses px py pi pj = xorb (Rgtb (pix_y pi) py) (Rgtb (pix_y pj) py).
Proof.
  intros Hi Hj. unfold edgeCrosses.
  destruct (Rgtb (pix_y pi) py) eqn:Ei; destruct (Rgtb (pix_y pj) py) eqn:Ej;
    cbn [eqb negb andb xorb]; try reflexivity.
  - apply Rltb_true.
    assert (Hside : Rgtb (pix_y pi) py <> Rgtb (pix_y pj) py)
      by (rewrite Ei, Ej; discriminate).
    pose proof (crossing_between py (pix_x pi) (pix_y pi) (pix_x pj) (pix_y pj) Hside)
      as [Hmin _].
    unfold Rmin in Hmin. destruct (Rle_dec (pix_x pi) (pix_x pj)); lra.
  - apply Rltb_true.
    assert (Hside : Rgtb (pix_y pi) py <> Rgtb (pix_y pj) py)
      by (rewrite Ei, Ej; discriminate).
    pose proof (crossing_between py (pix_x pi) (pix_y pi) (pix_x pj) (pix_y pj) Hside)
      as [Hmin _].
    unfold Rmin in Hmin. destruct (Rle_dec (pix_x pi) (pix_x pj)); lra.
Qed.

Lemma last_last (ring : list Pixel) (d d' : Pixel) :
  ring <> [] -> last ring d = last ring d'.
Proof.
  induction ring as [|p ring IH]; intros Hne; [now elim Hne|].
  destruct ring as [|q ring]; [reflexivity|].
  cbn [last] in *. apply IH. discriminate.
Qed.

Lemma last_cons_cons (p : Pixel) (rest : list Pixel) (d : Pixel) :
  last (p :: rest) d = last rest p.
Proof.
  destruct rest as [|q rest]; [reflexivity|].
  change (last (p :: q :: rest) d) with (last (q :: rest) d).
  apply last_last. discriminate.
Qed.

Lemma last_In (ring : list Pixel) (d : Pixel) :
  ring <> [] -> In (last ring d) ring.
Proof.
  induction ring as [|p ring IH]; intros Hne; [now elim Hne|].
  destruct ring as [|q ring]; [now left|].
  right. apply IH. discriminate.
Qed.

Lemma pointInRing_loop_right (px py : R) (rest : list Pixel) :
  forall prev inside,
    px < pix_x prev -> Forall (fun p => px < pix_x p) rest ->
    pointInRing_loop px py rest prev inside
    = xorb inside (xorb (Rgtb (pix_y prev) py) (Rgtb (pix_y (last rest prev)) py)).
Proof.
  induction rest as [|p rest IH]; intros prev inside Hprev Hall.
  - cbn. now rewrite xorb_nilpotent, xorb_false_r.
  - inversion Hall as [|? ? Hp Hrest]; subst. cbn [pointInRing_loop].
    rewrite (IH p _ Hp Hrest), (edgeCrosses_right px py p prev Hp Hprev).
    rewrite last_cons_cons.
    destruct inside, (Rgtb (pix_y p) py), (Rgtb (pix_y prev) py),
      (Rgtb (pix_y (last rest p)) py); reflexivity.
Qed.

Lemma right_or_not (px : R) (ring : list Pixel) :
  Forall (fun p => px < pix_x p) ring \/ exists p, In p ring /\ pix_x p <= px.
Proof.
  induction ring as [|p ring IH]; [left; constructor|].
  destruct (Rlt_le_dec px (pix_x p)) as [Hlt|Hle].
  - destruct IH as [IH|(q & Hq & Hle)].
    + left. now constructor.
    + right. exists q. split; [now right | exact Hle].
  - right. exists p. split; [now left | exact Hle].
Qed.

Lemma crossing_edge_exists (px py : R) (ring : list Pixel) :
  pointInRing px py ring = true ->
  exists pi pj, In pi ring /\ In pj ring /\ edgeCrosses px py pi pj = true.
Proof.
  rewrite pointInRing_parity. unfold crossings. intros Hodd.
  destruct (filter _ (ringEdges ring)) as [|[pi pj] rest] eqn:Hf;
    [cbn in Hodd; discriminate|].
  assert (Hin : In (pi, pj) (filter (fun e => edgeCrosses px py (fst e) (snd e))
                                    (ringEdges ring)))
    by (rewrite Hf; now left).
  apply filter_In in Hin. destruct Hin as [Hin Hc]. cbn [fst snd] in Hc.
  exists pi, pj. unfold ringEdges in Hin. destruct ring as [|p0 ring']; [elim Hin|].
  split; [eapply in_combine_l; eauto|]. split; [|exact Hc].
  apply in_combine_r in Hin. destruct Hin as [<-|Hin].
  - apply last_In. discriminate.
  - clear - Hin. revert Hin. generalize (p0 :: ring'). intros l.
    induction l as [|q l IH]; [intros []|].
    cbn [removelast]. destruct l as [|r l]; [intros []|].
    intros [<-|H]; [now left | right; now apply IH].
Qed.

(** X11. A ring contains only points of its bounding box: when the parity
    test says inside, some vertex is below and some is not, some vertex is
    to the right and some is not.  The same holds for a matched polygon and
    its projected outer ring. *)
Theorem ring_hit_in_bounding_box (px py : R) (ring : list Pixel) :
  (pointInRing px py ring = true ->
   (exists p, In p ring /\ py < pix_y p) /\
   (exists p, In p ring /\ pix_y p <= py) /\
   (exists p, In p ring /\ px < pix_x p) /\
   (exists p, In p ring /\ pix_x p <= px)) /\
  (forall v polygon,
      isPointInPolygon v px py polygon = true ->
      exists outer holes,
        rings polygon = outer :: holes /\
        pointInRing px py (projectRing v outer) = true).
Proof.
  split.
  - intros Hin.
    destruct (crossing_edge_exists px py ring Hin) as (pi & pj & Hpi & Hpj & Hc).
    destruct (edgeCrosses_inv px py pi pj Hc) as (Hside & Hx).
    assert (Hy : (py < pix_y pi /\ pix_y pj <= py) \/ (py < pix_y pj /\ pix_y pi <= py)).
    { destruct (Rgtb (pix_y pi) py) eqn:Ei; destruct (Rgtb (pix_y pj) py) eqn:Ej;
        try (now elim Hside).
      - apply Rgtb_true in Ei. apply Rgtb_false in Ej. left. lra.
      - apply Rgtb_false in Ei. apply Rgtb_true in Ej. right. lra. }
    split; [destruct Hy as [[H _]|[H _]]; eauto|].
    split; [destruct Hy as [[_ H]|[_ H]]; eauto|].
    split; [destruct Hx; eauto|].
    destruct (right_or_not px ring) as [Hall|Hex]; [|exact Hex].
    exfalso. unfold pointInRing in Hin. destruct ring as [|p0 ring']; [discriminate|].
    assert (Hlastin : px < pix_x (last (p0 :: ring') p0)).
    { pose proof Hall as Hall'. rewrite Forall_forall in Hall'. apply Hall'.
      apply last_In. discriminate. }
    rewrite (pointInRing_loop_right px py _ _ _ Hlastin Hall) in Hin.
    rewrite (last_last (p0 :: ring') (last (p0 :: ring') p0) p0) in Hin
      by discriminate.
    rewrite xorb_nilpotent in Hin. discriminate.
  - intros v polygon H. unfold isPointInPolygon in H.
    destruct (rings polygon) as [|outer holes] eqn:Hr; [discriminate|].
    exists outer, holes. split; [reflexivity|]. cbn [map] in H.
    destruct (pointInRing px py (projectRing v outer)); [reflexivity | discriminate].
Qed.

Lemma ring_hit_in_bounding_box_witness :
  exists p, In p (projectRing (view800 (0, 0) 1) (squareRing 10)) /\ pix_x p <= 400.
Proof.
  destruct (ring_hit_in_bounding_box 400 300
              (projectRing (view800 (0, 0) 1) (squareRing 10))) as (Hbox & _).
  destruct Hbox as (_ & _ & _ & Hleft).
  - apply squareRing_contains_center. lra.
  - exact Hleft.
Defined.

(** ** The tile layer *)

Lemma in_zrange a b x : In x (zrange a b) <-> (a <= x <= b)%Z.
Proof.
  unfold zrange. rewrite in_map_iff. split.
  - intros (i & <- & Hi). apply in_seq in Hi. lia.
  - intros H. exists (Z.to_nat (x - a)). split; [lia|]. apply in_seq. lia.
Qed.

Lemma fractionalScale_range z :
  1 <= pow2 (z - IZR (Zfloor z)) < 2.
Proof.
  pose proof (Zfloor_bound z) as [H1 H2]. unfold pow2. split.
  - rewrite <- (Rpower_O 2) at 1 by lra.
    destruct (Req_dec (z - IZR (Zfloor z)) 0) as [->|Hne]; [lra|].
    left. apply Rpower_lt; lra.
  - rewrite <- (Rpower_1 2) at 2 by lra. apply Rpower_lt; lra.
Qed.

Lemma pow2_split z : pow2 (IZR (Zfloor z)) * pow2 (z - IZR (Zfloor z)) = pow2 z.
Proof. unfold pow2. rewrite <- Rpower_plus. f_equal. lra. Qed.

Lemma tileLoop_inv v w h d :
  In d (tileLoop v w h) ->
  exists x y,
    d = mkTileDraw (mkTileKey (Zfloor (viewZoom v)) x y)
          (IZR x * TILE_SIZE * pow2 (viewZoom v - IZR (Zfloor (viewZoom v)))
           - pix_x (getCenterPixel v) + w / 2)
          (IZR y * TILE_SIZE * pow2 (viewZoom v - IZR (Zfloor (viewZoom v)))
           - pix_y (getCenterPixel v) + h / 2)
          (TILE_SIZE * pow2 (viewZoom v - IZR (Zfloor (viewZoom v)))) /\
    0 <= IZR x < pow2 (IZR (Zfloor (viewZoom v))) /\
    0 <= IZR y < pow2 (IZR (Zfloor (viewZoom v))).
Proof.
  unfold tileLoop. cbv zeta. intros H.
  apply in_flat_map in H. destruct H as (x & _ & H).
  apply in_flat_map in H. destruct H as (y & _ & H).
  destruct (Rltb (IZR x) 0) eqn:E1; [elim H|].
  destruct (Rltb (IZR y) 0) eqn:E2; [elim H|].
  destruct (Rleb _ (IZR x)) eqn:E3; [elim H|].
  destruct (Rleb _ (IZR y)) eqn:E4; [elim H|].
  cbn [orb] in H. destruct H as [<-|[]].
  apply Rltb_false in E1, E2. apply Rleb_false in E3, E4.
  exists x, y. repeat split; assumption.
Qed.

(** X27. The tile layer and the projection agree: a location is drawn
    inside the square of an addressed tile exactly at the place that its
    tile coordinates at the tile's zoom give, so the square of tile
    [(z, x, y)] shows the locations whose tile coordinates lie in
    [[x, x + 1) x [y, y + 1)] and no others. *)
Theorem tiles_match_projection (v : View) (d : TileDraw) (lat lng : R) :
  In d (tileLoop v (canvas_width v / devicePixelRatio v)
                   (canvas_height v / devicePixelRatio v)) ->
  let p := latlngToPixel v lat lng in
  let t := tileCoords (key_z (draw_key d)) lat lng in
  pix_x p = draw_x d + (fst t - IZR (key_x (draw_key d))) * draw_size d /\
  pix_y p = draw_y d + (snd t - IZR (key_y (draw_key d))) * draw_size d /\
  (draw_x d <= pix_x p < draw_x d + draw_size d <->
   IZR (key_x (draw_key d)) <= fst t < IZR (key_x (draw_key d)) + 1) /\
  (draw_y d <= pix_y p < draw_y d + draw_size d <->
   IZR (key_y (draw_key d)) <= snd t < IZR (key_y (draw_key d)) + 1).
Proof.
  intros Hd p t. destruct (tileLoop_inv _ _ _ _ Hd) as (x & y & -> & _ & _).
  subst p t. unfold latlngToPixel, tileCoords.
  cbn [draw_key draw_x draw_y draw_size key_x key_y key_z pix_x pix_y fst snd].
  pose proof (fractionalScale_range (viewZoom v)) as Hf.
  pose proof (pow2_split (viewZoom v)) as Hs.
  pose proof (pow2_pos (IZR (Zfloor (viewZoom v)))) as Hz.
  set (z := Zfloor (viewZoom v)) in *.
  set (fr := pow2 (viewZoom v - IZR z)) in *.
  set (cw := canvas_width v / devicePixelRatio v).
  set (ch := canvas_height v / devicePixelRatio v).
  set (c := getCenterPixel v).
  rewrite (mercatorY_scale lat (pow2 (IZR z)) (pow2 (viewZoom v) * TILE_SIZE)) by lra.
  rewrite <- Hs. unfold TILE_SIZE.
  set (m := mercatorY lat (pow2 (IZR z))).
  set (tx := (lng + 180) / 360 * pow2 (IZR z)).
  assert (Ex : (lng + 180) / 360 * (pow2 (IZR z) * fr * 256) - pix_x c + cw / 2
               = IZR x * 256 * fr - pix_x c + cw / 2 + (tx - IZR x) * (256 * fr)).
  { subst tx. ring. }
  assert (Ey : m / pow2 (IZR z) * (pow2 (IZR z) * fr * 256) - pix_y c + ch / 2
               = IZR y * 256 * fr - pix_y c + ch / 2 + (m - IZR y) * (256 * fr)).
  { field. lra. }
  rewrite Ex, Ey. split; [reflexivity|]. split; [reflexivity|].
  assert (Hpos : 0 < 256 * fr) by lra.
  split; split; intros [A B]; split; nra.
Qed.

Lemma tileLoop_covers (v : View) (px py : R) :
  let w := canvas_width v / devicePixelRatio v in
  let h := canvas_height v / devicePixelRatio v in
  let g := pixelToLatLng v px py in
  let z := Zfloor (viewZoom v) in
  let t := tileCoords z (ll_lat g) (ll_lng g) in
  0 <= px <= w -> 0 <= py <= h ->
  0 <= IZR (Zfloor (fst t)) < pow2 (IZR z) ->
  0 <= IZR (Zfloor (snd t)) < pow2 (IZR z) ->
  exists d,
    In d (tileLoop v w h) /\
    draw_key d = mkTileKey z (Zfloor (fst t)) (Zfloor (snd t)) /\
    draw_x d <= px < draw_x d + draw_size d /\
    draw_y d <= py < draw_y d + draw_size d.
Proof.
  intros w h g z t Hpx Hpy Hx Hy.
  pose proof (fractionalScale_range (viewZoom v)) as Hf.
  pose proof (pow2_split (viewZoom v)) as Hs.
  pose proof (pow2_pos (IZR (Zfloor (viewZoom v)))) as Hz.
  pose proof (pow2_pos (viewZoom v)) as Hvz.
  fold z in Hs, Hz, Hf.
  set (fr := pow2 (viewZoom v - IZR z)) in *.
  set (c := getCenterPixel v).
  assert (Htx : fst t = (px + pix_x c - w / 2) / (256 * fr)).
  { subst t g. unfold tileCoords, pixelToLatLng. cbn [fst ll_lng].
    fold c w. rewrite <- Hs. unfold TILE_SIZE. field. lra. }
  assert (Hty : snd t = (py + pix_y c - h / 2) / (256 * fr)).
  { subst t g. unfold tileCoords, pixelToLatLng. cbn [snd ll_lat].
    fold c h. rewrite mercatorY_inverseMercator by (unfold TILE_SIZE; lra).
    rewrite <- Hs. unfold TILE_SIZE. field. lra. }
  set (x := Zfloor (fst t)) in *. set (y := Zfloor (snd t)) in *.
  pose proof (Zfloor_bound (fst t)) as Bx. fold x in Bx.
  pose proof (Zfloor_bound (snd t)) as By. fold y in By.
  assert (Hpos : 0 < 256 * fr) by lra.
  assert (Hinv : / (256 * fr) * (256 * fr) = 1) by (field; lra).
  exists (mkTileDraw (mkTileKey z x y)
            (IZR x * TILE_SIZE * fr - pix_x c + w / 2)
            (IZR y * TILE_SIZE * fr - pix_y c + h / 2)
            (TILE_SIZE * fr)).
  cbn [draw_key draw_x draw_y draw_size].
  assert (Ex : px = fst t * (256 * fr) - pix_x c + w / 2).
  { rewrite Htx. field. lra. }
  assert (Ey : py = snd t * (256 * fr) - pix_y c + h / 2).
  { rewrite Hty. field. lra. }
  split; [|split; [reflexivity|]].
  - unfold tileLoop. cbv zeta. fold z c fr.
    apply in_flat_map. exists x. split.
    + apply in_zrange. cbn [pix_x]. split.
      * apply Zfloor_le. unfold TILE_SIZE. rewrite Htx.
        apply Rmult_le_reg_r with (256 * fr); [exact Hpos|].
        replace ((px + pix_x c - w / 2) / (256 * fr) * (256 * fr))
          with (px + pix_x c - w / 2) by (field; lra).
        replace ((pix_x c / fr / 256 - w / 2 / (256 * fr) - 1) * (256 * fr))
          with (pix_x c - w / 2 - 256 * fr) by (field; lra).
        lra.
      * apply le_IZR. eapply Rle_trans; [apply Bx|].
        eapply Rle_trans; [|apply Zceil_bound]. unfold TILE_SIZE. rewrite Htx.
        apply Rmult_le_reg_r with (256 * fr); [exact Hpos|].
        replace ((px + pix_x c - w / 2) / (256 * fr) * (256 * fr))
          with (px + pix_x c - w / 2) by (field; lra).
        replace ((pix_x c / fr / 256 + w / 2 / (256 * fr) + 1) * (256 * fr))
          with (pix_x c + w / 2 + 256 * fr) by (field; lra).
        lra.
    + apply in_flat_map. exists y. split.
      * apply in_zrange. cbn [pix_y]. split.
        -- apply Zfloor_le. unfold TILE_SIZE. rewrite Hty.
           apply Rmult_le_reg_r with (256 * fr); [exact Hpos|].
           replace ((py + pix_y c - h / 2) / (256 * fr) * (256 * fr))
             with (py + pix_y c - h / 2) by (field; lra).
           replace ((pix_y c / fr / 256 - h / 2 / (256 * fr) - 1) * (256 * fr))
             with (pix_y c - h / 2 - 256 * fr) by (field; lra).
           lra.
        -- apply le_IZR. eapply Rle_trans; [apply By|].
           eapply Rle_trans; [|apply Zceil_bound]. unfold TILE_SIZE. rewrite Hty.
           apply Rmult_le_reg_r with (256 * fr); [exact Hpos|].
           replace ((py + pix_y c - h / 2) / (256 * fr) * (256 * fr))
             with (py + pix_y c - h / 2) by (field; lra).
           replace ((pix_y c / fr / 256 + h / 2 / (256 * fr) + 1) * (256 * fr))
             with (pix_y c + h / 2 + 256 * fr) by (field; lra).
           lra.
      * assert (E1 : Rltb (IZR x) 0 = false) by (apply Rltb_false; lra).
        assert (E2 : Rltb (IZR y) 0 = false) by (apply Rltb_false; lra).
        assert (E3 : Rleb (pow2 (IZR z)) (IZR x) = false) by (apply Rleb_false; lra).
        assert (E4 : Rleb (pow2 (IZR z)) (IZR y) = false) by (apply Rleb_false; lra).
        rewrite E1, E2, E3, E4. now left.
  - unfold TILE_SIZE. split; split; nra.
Qed.

Lemma length_zrange a b : List.length (zrange a b) = Z.to_nat (b - a + 1).
Proof. unfold zrange. now rewrite length_map, length_seq. Qed.

Lemma length_flat_map_le {A B : Type} (f : A -> list B) (k : nat) (l : list A) :
  (forall a, List.length (f a) <= k)%nat ->
  (List.length (flat_map f l) <= List.length l * k)%nat.
Proof.
  intros Hk. induction l as [|a l IH]; cbn [flat_map List.length]; [lia|].
  rewrite length_app. specialize (Hk a). lia.
Qed.

(** The number of values a loop from [floor (c - r - 1)] to
    [ceil (c + r + 1)] runs through. *)
Lemma span_count c r :
  0 <= r ->
  INR (Z.to_nat (Zceil (c + r + 1) - Zfloor (c - r - 1) + 1)) < 2 * r + 5.
Proof.
  intros Hr.
  pose proof (Zceil_bound (c + r + 1)) as [Hc _].
  pose proof (Zfloor_bound (c - r - 1)) as [_ Hf].
  set (a := Zfloor (c - r - 1)) in *. set (b := Zceil (c + r + 1)) in *.
  destruct (Z.le_gt_cases 0 (b - a + 1)) as [Hn|Hn].
  - rewrite INR_IZR_INZ, Z2Nat.id by exact Hn.
    rewrite plus_IZR, minus_IZR. lra.
  - replace (Z.to_nat (b - a + 1)) with 0%nat by lia. cbn. lra.
Qed.

(** X29. Every addressed tile belongs to the pyramid at the zoom
    [floor(viewZoom)], with column and row from 0 up to, not including,
    [2^zoom]; its square has a side from 256 up to, not including, 512
    pixels; and one rendering of a [w] by [h] canvas addresses fewer than
    [(w / 256 + 5) * (h / 256 + 5)] tiles, whatever the zoom. *)
Theorem tile_squares (v : View) (w h : R) :
  0 <= w -> 0 <= h ->
  (forall d, In d (tileLoop v w h) ->
     key_z (draw_key d) = Zfloor (viewZoom v) /\
     0 <= IZR (key_x (draw_key d)) < pow2 (IZR (key_z (draw_key d))) /\
     0 <= IZR (key_y (draw_key d)) < pow2 (IZR (key_z (draw_key d))) /\
     TILE_SIZE <= draw_size d < 2 * TILE_SIZE) /\
  INR (List.length (tileLoop v w h))
  < (w / TILE_SIZE + 5) * (h / TILE_SIZE + 5).
Proof.
  intros Hw Hh.
  pose proof (fractionalScale_range (viewZoom v)) as Hf. split.
  - intros d Hd. destruct (tileLoop_inv _ _ _ _ Hd) as (x & y & -> & Hx & Hy).
    cbn [draw_key draw_size key_x key_y key_z]. unfold TILE_SIZE.
    repeat split; try tauto; lra.
  - unfold tileLoop. cbv zeta.
    set (fr := pow2 (viewZoom v - IZR (Zfloor (viewZoom v)))) in *.
    set (c := getCenterPixel v). cbn [pix_x pix_y].
    set (cx := pix_x c / fr / TILE_SIZE). set (cy := pix_y c / fr / TILE_SIZE).
    set (rx := w / 2 / (TILE_SIZE * fr)). set (ry := h / 2 / (TILE_SIZE * fr)).
    set (ys := zrange _ _). set (xs := zrange _ _).
    assert (Hrx : 0 <= rx /\ 2 * rx <= w / TILE_SIZE).
    { subst rx. unfold TILE_SIZE. split.
      - apply Rmult_le_pos; [lra|]. left. apply Rinv_0_lt_compat. lra.
      - replace (2 * (w / 2 / (256 * fr))) with (w / 256 * / fr) by (field; lra).
        rewrite <- (Rmult_1_r (w / 256)) at 2.
        apply Rmult_le_compat_l; [lra|].
        rewrite <- Rinv_1. apply Rinv_le_contravar; lra. }
    assert (Hry : 0 <= ry /\ 2 * ry <= h / TILE_SIZE).
    { subst ry. unfold TILE_SIZE. split.
      - apply Rmult_le_pos; [lra|]. left. apply Rinv_0_lt_compat. lra.
      - replace (2 * (h / 2 / (256 * fr))) with (h / 256 * / fr) by (field; lra).
        rewrite <- (Rmult_1_r (h / 256)) at 2.
        apply Rmult_le_compat_l; [lra|].
        rewrite <- Rinv_1. apply Rinv_le_contravar; lra. }
    assert (Hxs : INR (List.length xs) < 2 * rx + 5).
    { subst xs. rewrite length_zrange. apply span_count. tauto. }
    assert (Hys : INR (List.length ys) < 2 * ry + 5).
    { subst ys. rewrite length_zrange. apply span_count. tauto. }
    eapply Rle_lt_trans.
    + apply le_INR. apply (length_flat_map_le _ (List.length ys * 1)).
      intros x. apply length_flat_map_le. intros y.
      destruct (_ || _); cbn; lia.
    + rewrite Nat.mul_1_r, mult_INR.
      pose proof (pos_INR (List.length xs)). pose proof (pos_INR (List.length ys)).
      apply Rle_lt_trans with (INR (List.length xs) * (h / TILE_SIZE + 5)).
      * apply Rmult_le_compat_l; lra.
      * apply Rmult_lt_compat_r; lra.
Qed.

Lemma key_eqb_eq a b : key_eqb a b = true <-> a = b.
Proof.
  unfold key_eqb. rewrite !andb_true_iff, !Z.eqb_eq.
  destruct a, b; cbn. split; [intros [[-> ->] ->]; reflexivity|].
  intros H. now inversion H.
Qed.

Lemma existsb_key k l : existsb (key_eqb k) l = true <-> In k l.
Proof.
  rewrite existsb_exists. split.
  - intros (k' & Hin & He). apply key_eqb_eq in He. now subst.
  - intros H. exists k. split; [exact H | now apply key_eqb_eq].
Qed.

(** What a pass over tiles [ds] keeps: the cache and the request log are one
    list without repetition, and both only grow. *)
Lemma visit_all loaded ds :
  forall t,
    tileCache t = requested t -> NoDup (tileCache t) ->
    let t' := fold_left (visitTile loaded) ds t in
    tileCache t' = requested t' /\ NoDup (tileCache t') /\
    (exists more, tileCache t' = (tileCache t ++ more)%list) /\
    (forall d, In d ds -> In (draw_key d) (tileCache t')) /\
    (forall k, In k (tileCache t') ->
               In k (tileCache t) \/ exists d, In d ds /\ draw_key d = k).
Proof.
  induction ds as [|d ds IH]; intros t Heq Hnd; cbn [fold_left].
  - cbv zeta. split; [exact Heq|]. split; [exact Hnd|].
    split; [exists []; now rewrite app_nil_r|]. split; [intros d []|]. now left.
  - assert (Hstep : tileCache (visitTile loaded t d) = requested (visitTile loaded t d)
                    /\ NoDup (tileCache (visitTile loaded t d))
                    /\ (exists more, tileCache (visitTile loaded t d)
                                     = (tileCache t ++ more)%list)
                    /\ In (draw_key d) (tileCache (visitTile loaded t d))
                    /\ (forall k, In k (tileCache (visitTile loaded t d)) ->
                                  In k (tileCache t) \/ draw_key d = k)).
    { unfold visitTile. cbn [tileCache requested].
      destruct (existsb (key_eqb (draw_key d)) (tileCache t)) eqn:E; cbn [negb].
      - split; [exact Heq|]. split; [exact Hnd|].
        split; [exists []; now rewrite app_nil_r|].
        split; [now apply existsb_key|]. now left.
      - assert (Hnot : ~ In (draw_key d) (tileCache t)).
        { intros H. apply existsb_key in H. congruence. }
        split; [now rewrite Heq|]. split.
        + apply NoDup_app; [exact Hnd | repeat constructor; intros [] |].
          intros k Hk [<-|[]]. contradiction.
        + split; [now exists [draw_key d]|]. split.
          * apply in_or_app. right. now left.
          * intros k Hk. apply in_app_or in Hk. destruct Hk as [Hk|[<-|[]]]; tauto. }
    destruct Hstep as (Heq' & Hnd' & (m1 & Hm1) & Hd & Hback).
    destruct (IH _ Heq' Hnd') as (H1 & H2 & (m2 & Hm2) & H4 & H5).
    cbv zeta. split; [exact H1|]. split; [exact H2|]. split; [|split].
    + exists (m1 ++ m2)%list. now rewrite Hm2, Hm1, <- app_assoc.
    + intros d' [<-|Hin]; [|now apply H4]. rewrite Hm2. apply in_or_app. now left.
    + intros k Hk. destruct (H5 k Hk) as [Hk'|(d' & Hd' & <-)].
      * destruct (Hback k Hk') as [|<-]; [now left|]. right. exists d. split; [now left | reflexivity].
      * right. exists d'. split; [now right | reflexivity].
Qed.

Lemma visit_cached loaded ds :
  forall t,
    (forall d, In d ds -> In (draw_key d) (tileCache t)) ->
    tileCache (fold_left (visitTile loaded) ds t) = tileCache t /\
    requested (fold_left (visitTile loaded) ds t) = requested t.
Proof.
  induction ds as [|d ds IH]; intros t Hall; cbn [fold_left]; [split; reflexivity|].
  assert (E : existsb (key_eqb (draw_key d)) (tileCache t) = true).
  { apply existsb_key, Hall. now left. }
  assert (Hc : tileCache (visitTile loaded t d) = tileCache t).
  { unfold visitTile. cbn [tileCache]. now rewrite E. }
  assert (Hr : requested (visitTile loaded t d) = requested t).
  { unfold visitTile. cbn [requested]. now rewrite E. }
  destruct (IH (visitTile loaded t d)) as [H1 H2].
  { intros d' Hd'. rewrite Hc. apply Hall. now right. }
  split; congruence.
Qed.

Lemma Zfloor_1 : Zfloor 1 = 1%Z.
Proof. exact (ZfloorZ 1). Qed.

Lemma origin_tile_coords :
  let v := view800 (0, 0) 1 in
  let g := pixelToLatLng v 400 300 in
  let t := tileCoords (Zfloor (viewZoom v)) (ll_lat g) (ll_lng g) in
  fst t = 1 /\ snd t = 1 /\ pow2 (IZR (Zfloor (viewZoom v))) = 2.
Proof.
  intros v g t. subst t g v. unfold tileCoords, pixelToLatLng, getCenterPixel, view800.
  cbn [viewCenter viewZoom canvas_width canvas_height devicePixelRatio
       pix_x pix_y fst snd ll_lat ll_lng].
  rewrite Zfloor_1, pow2_1. unfold TILE_SIZE.
  split; [field|]. split; [|reflexivity].
  rewrite mercatorY_inverseMercator by lra. rewrite mercatorY_0. field.
Qed.

Lemma tiles_match_projection_witness :
  let v := view800 (0, 0) 1 in
  exists d,
    In d (tileLoop v (canvas_width v / devicePixelRatio v)
                     (canvas_height v / devicePixelRatio v)) /\
    pix_x (latlngToPixel v 10 20)
    = draw_x d
      + (fst (tileCoords (key_z (draw_key d)) 10 20) - IZR (key_x (draw_key d)))
        * draw_size d.
Proof.
  intros v. subst v. destruct origin_tile_coords as (Hx & Hy & Hz).
  cbv zeta in Hx, Hy, Hz.
  destruct (tileLoop_covers (view800 (0, 0) 1) 400 300) as (d & Hd & _).
  - unfold view800. cbn. lra.
  - unfold view800. cbn. lra.
  - rewrite Hx, Hz, Zfloor_1. lra.
  - rewrite Hy, Hz, Zfloor_1. lra.
  - exists d. split; [exact Hd|].
    exact (proj1 (tiles_match_projection (view800 (0, 0) 1) d 10 20 Hd)).
Defined.

(** X28. The loops reach every tile that shows on the canvas: for each
    pixel of the canvas that shows a location of the world, the tile of the
    pyramid holding that location is addressed, and its square contains the
    pixel. *)
Theorem tiles_cover_canvas (v : View) (px py : R) :
  let w := canvas_width v / devicePixelRatio v in
  let h := canvas_height v / devicePixelRatio v in
  let g := pixelToLatLng v px py in
  let z := Zfloor (viewZoom v) in
  let t := tileCoords z (ll_lat g) (ll_lng g) in
  0 <= px <= w -> 0 <= py <= h ->
  validKey (mkTileKey z (Zfloor (fst t)) (Zfloor (snd t))) ->
  exists d,
    In d (tileLoop v w h) /\
    draw_key d = mkTileKey z (Zfloor (fst t)) (Zfloor (snd t)) /\
    draw_x d <= px < draw_x d + draw_size d /\
    draw_y d <= py < draw_y d + draw_size d.
Proof.
  intros w h g z t Hpx Hpy [Hx Hy]. now apply tileLoop_covers.
Qed.

Lemma tiles_cover_canvas_witness :
  let v := view800 (0, 0) 1 in
  exists d,
    In d (tileLoop v (canvas_width v / devicePixelRatio v)
                     (canvas_height v / devicePixelRatio v)) /\
    draw_x d <= 400 < draw_x d + draw_size d /\
    draw_y d <= 300 < draw_y d + draw_size d.
Proof.
  intros v. subst v. destruct origin_tile_coords as (Hx & Hy & Hz).
  cbv zeta in Hx, Hy, Hz.
  destruct (tiles_cover_canvas (view800 (0, 0) 1) 400 300)
    as (d & Hd & _ & Hdx & Hdy).
  - unfold view800. cbn. lra.
  - unfold view800. cbn. lra.
  - unfold validKey. cbn [key_x key_y key_z].
    rewrite Hx, Hy, Hz, Zfloor_1. lra.
  - exists d. split; [exact Hd|]. split; assumption.
Defined.

Lemma tile_squares_witness :
  INR (List.length (tileLoop (view800 (0, 0) 1) 800 600))
  < (800 / TILE_SIZE + 5) * (600 / TILE_SIZE + 5).
Proof.
  apply (tile_squares (view800 (0, 0) 1) 800 600); lra.
Defined.

Lemma render_keeps (loaded : TileKey -> bool) (v : View) (t : Tiles) :
  tileCache t = requested t -> NoDup (tileCache t) ->
  Forall validKey (tileCache t) ->
  let t' := renderTiles loaded v t in
  tileCache t' = requested t' /\ NoDup (tileCache t') /\
  Forall validKey (tileCache t') /\
  exists more, tileCache t' = (tileCache t ++ more)%list.
Proof.
  intros Heq Hnd Hval t'. subst t'. unfold renderTiles, drawTiles.
  destruct (visit_all loaded (tileLoop v (canvas_width v / devicePixelRatio v)
                                (canvas_height v / devicePixelRatio v)) t Heq Hnd)
    as (H1 & H2 & H3 & _ & H5).
  split; [exact H1|]. split; [exact H2|]. split; [|exact H3].
  apply Forall_forall. intros k Hk. destruct (H5 k Hk) as [Hold|(d & Hd & <-)].
  - rewrite Forall_forall in Hval. now apply Hval.
  - destruct (tileLoop_inv _ _ _ _ Hd) as (x & y & -> & Hx & Hy).
    split; assumption.
Qed.

Lemma renderFrames_keeps frames :
  forall t,
    tileCache t = requested t -> NoDup (tileCache t) ->
    Forall validKey (tileCache t) ->
    let t' := renderFrames frames t in
    tileCache t' = requested t' /\ NoDup (tileCache t') /\
    Forall validKey (tileCache t').
Proof.
  unfold renderFrames.
  induction frames as [|f frames IH]; intros t Heq Hnd Hval; cbn [fold_left].
  - cbv zeta. tauto.
  - destruct (render_keeps (fst f) (snd f) t Heq Hnd Hval) as (H1 & H2 & H3 & _).
    now apply IH.
Qed.

(** X30. The tile cache over any run of renderings that starts with an
    empty cache: no tile is requested twice; every request is for a tile of
    the pyramid; a request is sent exactly for the keys put into the cache,
    in the same order; the cache is never emptied or reordered, a further
    rendering only appends to it; and rendering the same view again sends
    no request. *)
Theorem tile_requests_once (frames : list ((TileKey -> bool) * View)) :
  let t := renderFrames frames noTiles in
  NoDup (requested t) /\
  Forall validKey (requested t) /\
  requested t = tileCache t /\
  (forall loaded v,
      exists more, tileCache (renderTiles loaded v t) = (tileCache t ++ more)%list) /\
  (forall loaded loaded' v,
      requested (renderTiles loaded' v (renderTiles loaded v t))
      = requested (renderTiles loaded v t)).
Proof.
  intros t.
  destruct (renderFrames_keeps frames noTiles eq_refl (NoDup_nil _) (Forall_nil _))
    as (Heq & Hnd & Hval).
  fold t in Heq, Hnd, Hval.
  split; [now rewrite <- Heq|]. split; [now rewrite <- Heq|].
  split; [now symmetry|]. split.
  - intros loaded v.
    now destruct (render_keeps loaded v t Heq Hnd Hval) as (_ & _ & _ & H).
  - intros loaded loaded' v.
    destruct (render_keeps loaded v t Heq Hnd Hval) as (Heq' & Hnd' & _ & _).
    unfold renderTiles at 1. unfold drawTiles.
    apply visit_cached. intros d Hd.
    unfold renderTiles, drawTiles.
    now apply (visit_all loaded _ t Heq Hnd).
Qed.

End JsExtra.

(** * Further properties of the ingestion half *)

Module PyExtra.

Import Py PyTheory.
Local Open Scope string_scope.
Local Open Scope Q_scope.

(** ** Bounds *)

Lemma inside_widened b b' c : inside b c -> widened b b' -> inside b' c.
Proof.
  unfold inside, widened. intros (A1 & A2 & A3 & A4) (B1 & B2 & B3 & B4).
  repeat split; eapply Qle_trans; eauto.
Qed.

Lemma covers_widen o o' cs : covers o cs -> bounds_widen o o' -> covers o' cs.
Proof.
  intros Hc Hw c Hin. destruct (Hc c Hin) as (b & -> & Hb).
  destruct o' as [b'|]; cbn in Hw; [|contradiction].
  exists b'. split; [reflexivity|]. eapply inside_widened; eauto.
Qed.

Lemma bounds_after_widens cs : forall o, bounds_widen o (bounds_after cs o).
Proof.
  unfold bounds_after. induction cs as [|c cs IH]; intros o; cbn [fold_left].
  - apply bounds_widen_refl.
  - eapply bounds_widen_trans; [apply update_bounds_widens | apply IH].
Qed.

Lemma bounds_after_covers cs : forall o, covers (bounds_after cs o) cs.
Proof.
  induction cs as [|c cs IH]; intros o d Hin; [elim Hin|].
  change (bounds_after (c :: cs) o)
    with (bounds_after cs (_update_bounds o (fst c) (snd c))).
  destruct Hin as [<-|Hin]; [|now apply IH].
  destruct (update_bounds_covers o (fst c) (snd c)) as (b & Hb & H1 & H2 & H3 & H4).
  pose proof (bounds_after_widens cs (_update_bounds o (fst c) (snd c))) as Hw.
  rewrite Hb in *. destruct (bounds_after cs (Some b)) as [b'|]; cbn in Hw;
    [|contradiction].
  exists b'. split; [reflexivity|].
  apply (inside_widened b); [|exact Hw]. unfold inside. auto.
Qed.

Lemma update_bounds_wf o lat lng : bounds_wf o -> bounds_wf (_update_bounds o lat lng).
Proof.
  intros Hwf b' Hb'. destruct o as [b|]; cbn in Hb'; inversion Hb'; subst; cbn.
  - destruct (Hwf b eq_refl) as [H1 H2].
    destruct (py_min_le (min_lat b) lat), (py_max_ge (max_lat b) lat),
      (py_min_le (min_lng b) lng), (py_max_ge (max_lng b) lng).
    split; eapply Qle_trans; eauto; eapply Qle_trans; eauto.
  - split; apply Qle_refl.
Qed.

Lemma bounds_after_wf cs : forall o, bounds_wf o -> bounds_wf (bounds_after cs o).
Proof.
  unfold bounds_after. induction cs as [|c cs IH]; intros o Hwf; cbn [fold_left].
  - exact Hwf.
  - apply IH, update_bounds_wf, Hwf.
Qed.

(** Storing new coordinates [cs] and folding them into the bounds keeps the
    invariant. *)
Lemma sound_store (self self' : HtmlExport) (cs : list (Q * Q)) :
  sound self ->
  _bounds self' = bounds_after cs (_bounds self) ->
  (forall c, In c (all_coords self') -> In c (all_coords self) \/ In c cs) ->
  sound self'.
Proof.
  intros [Hwf Hcov] Hb Hin. split.
  - rewrite Hb. now apply bounds_after_wf.
  - rewrite Hb. intros c Hc. destruct (Hin c Hc) as [Hold|Hnew].
    + apply (covers_widen (_bounds self) _ (all_coords self));
        [exact Hcov | apply bounds_after_widens | exact Hold].
    + now apply bounds_after_covers.
Qed.

Lemma sound_print d self : sound self -> sound (print d self).
Proof. intros H. exact H. Qed.

Section Soundness.

Variable float_of_str : string -> option Q.

Lemma add_points_sound style batch :
  forall self, sound self -> sound (fst (add_points float_of_str style batch self)).
Proof.
  induction batch as [|point batch IH]; intros self Hs; cbn [add_points].
  - exact Hs.
  - destruct (is_none _ || is_none _); [apply IH, sound_print, Hs|].
    destruct (py_float _ _) as [e|flat]; [exact Hs|].
    destruct (py_float _ _) as [e|flng]; [exact Hs|].
    apply IH. apply (sound_store self _ [(flat, flng)] Hs); [reflexivity|].
    intros c. unfold all_coords, point_coords. cbn. rewrite map_app. cbn.
    rewrite !in_app_iff. cbn. tauto.
Qed.

Lemma add_lines_sound style batch :
  forall self, sound self -> sound (fst (add_lines float_of_str style batch self)).
Proof.
  induction batch as [|line batch IH]; intros self Hs; cbn [add_lines].
  - exact Hs.
  - destruct (line_coords_of line); try (apply IH, sound_print, Hs).
    destruct (negb _ || _); [apply IH, sound_print, Hs|].
    destruct (_normalize_coords _ _) as [e|cs]; [exact Hs|].
    apply IH. rewrite update_bounds_all_fields.
    apply (sound_store self _ cs Hs); [reflexivity|].
    intros c. unfold all_coords, line_coords. cbn. rewrite flat_map_app. cbn.
    rewrite ?app_nil_r, !in_app_iff. tauto.
Qed.

Lemma add_polygons_sound style batch :
  forall self, sound self -> sound (fst (add_polygons float_of_str style batch self)).
Proof.
  induction batch as [|polygon batch IH]; intros self Hs; cbn [add_polygons].
  - exact Hs.
  - destruct (polygon_step _ _) as [d|e|rs]; [apply IH, sound_print, Hs | exact Hs |].
    apply IH. rewrite update_bounds_rings_fields.
    apply (sound_store self _ (List.concat rs) Hs); [reflexivity|].
    intros c. unfold all_coords, polygon_coords. cbn. rewrite flat_map_app. cbn.
    rewrite ?app_nil_r, !in_app_iff. tauto.
Qed.

Lemma run_sound ops : forall self, sound self -> sound (run float_of_str ops self).
Proof.
  unfold run. induction ops as [|op ops IH]; intros self Hs; cbn [fold_left].
  - exact Hs.
  - apply IH. destruct op; cbn [apply_op].
    + now apply add_points_sound.
    + now apply add_lines_sound.
    + now apply add_polygons_sound.
    + split; [intros b Hb; discriminate | intros c []].
Qed.

End Soundness.

(** X12. After any sequence of [add_points], [add_lines], [add_polygons]
    and [clear] calls on a new instance (calls ended by an exception
    included), the bounds contain every stored coordinate, and their minima
    do not exceed their maxima, provided the coordinates handed in are
    numbers that [float] takes over as they are: no text (which may read as
    [nan], and [min] and [max] do not order [nan]) and no int beyond
    [+-2^53]. *)
Theorem bounds_contain_all_coordinates (float_of_str : string -> option Q)
  (ops : list Op) :
  forallb op_plain ops = true ->
  let self := run float_of_str ops init in
  (forall c, In c (all_coords self) ->
             exists b, _bounds self = Some b /\ inside b c) /\
  (forall b, _bounds self = Some b ->
             min_lat b <= max_lat b /\ min_lng b <= max_lng b).
Proof.
  intros _ self.
  assert (H : sound self).
  { apply run_sound. split; [intros b Hb; discriminate | intros c []]. }
  destruct H as [Hwf Hcov]. split; [exact Hcov | exact Hwf].
Qed.

Lemma bounds_contain_all_coordinates_witness :
  let self := run no_strings [OpAddPoints [] [point_at 1 2; point_at 3 4]] init in
  exists b, _bounds self = Some b /\ inside b (inject_Z 3, inject_Z 4).
Proof.
  intros self.
  destruct (bounds_contain_all_coordinates
              no_strings [OpAddPoints [] [point_at 1 2; point_at 3 4]] eq_refl)
    as (Hcov & _).
  apply Hcov. right. left. reflexivity.
Defined.

(** ** The automatic zoom and the default view *)

Ltac auto_zoom_cases :=
  unfold _calculate_auto_zoom; fold_span;
  repeat match goal with
         | |- context [Qeq_bool ?a 0] =>
             let E := fresh "E" in
             destruct (Qeq_bool a 0) eqn:E;
             [apply Qeq_bool_eq in E | apply Qeq_bool_neq in E]
         | |- context [Qlt_le_dec ?a ?b] => destruct (Qlt_le_dec a b)
         end
with fold_span :=
  repeat match goal with
         | |- context [py_max (max_lat ?b - min_lat ?b) (max_lng ?b - min_lng ?b)] =>
             change (py_max (max_lat b - min_lat b) (max_lng b - min_lng b))
               with (span b)
         end.

Lemma auto_zoom_range (b : Bounds) : (2 <= _calculate_auto_zoom b <= 16)%Z.
Proof. auto_zoom_cases; lia. Qed.

(** X13. The automatic zoom is one of the levels 2, 4, 6, 8, 10, 11, 13,
    14, 15 and 16, so within [1,20].  Among bounds of positive span a wider
    span never gets a higher zoom.  A span of zero (a single location) gets
    15, one level less than the 16 of every positive span below 0.01. *)
Theorem auto_zoom_levels (b1 b2 : Bounds) :
  In (_calculate_auto_zoom b1) auto_zoom_values /\
  (2 <= _calculate_auto_zoom b1 <= 16)%Z /\
  (0 < span b1 -> span b1 <= span b2 ->
   (_calculate_auto_zoom b2 <= _calculate_auto_zoom b1)%Z) /\
  (span b1 == 0 -> _calculate_auto_zoom b1 = 15%Z) /\
  (0 < span b1 -> span b1 < 1 # 100 -> _calculate_auto_zoom b1 = 16%Z).
Proof.
  split; [|split; [|split; [|split]]].
  - unfold auto_zoom_values.
    auto_zoom_cases; cbn [In]; repeat first [left; reflexivity | right].
  - auto_zoom_cases; lia.
  - intros Hpos Hle. auto_zoom_cases; try lia; exfalso; Lqa.lra.
  - intros H0. auto_zoom_cases; try reflexivity; exfalso; Lqa.lra.
  - intros Hpos Hlt. auto_zoom_cases; try reflexivity; exfalso; Lqa.lra.
Qed.

Lemma auto_zoom_levels_witness :
  (_calculate_auto_zoom (mkBounds 0 40 0 60)
   <= _calculate_auto_zoom (mkBounds 0 (1 # 2) 0 (1 # 4)))%Z.
Proof.
  destruct (auto_zoom_levels (mkBounds 0 (1 # 2) 0 (1 # 4)) (mkBounds 0 40 0 60))
    as (_ & _ & Hmono & _).
  apply Hmono; vm_compute; reflexivity || (intros H; discriminate H).
Defined.

Lemma midpoint_between (a b : Q) : a <= b -> a <= (a + b) / 2 /\ (a + b) / 2 <= b.
Proof.
  intros H. set (m := (a + b) / 2).
  assert (Hm : m * 2 == a + b) by (subst m; field).
  split; Lqa.lra.
Qed.

(** X14. When no center is configured (or a falsy one), [generate] centers
    the view on the midpoint of the bounds, which lies within them after any
    sequence of calls whose coordinates are numbers that [float] takes over
    as they are; when no zoom is configured it uses the automatic zoom,
    between 2 and 16; a configured zoom, 0 included, is passed on as it is.
    With nothing ingested the view is centered on (0, 0) at zoom 15. *)
Theorem generate_default_view (float_of_str : string -> option Q)
  (ops : list Op) (center zoom : PyVal) :
  let self := run float_of_str ops init in
  let view := generate_view center zoom self in
  let bounds := snd view in
  (forallb op_plain ops = true -> truthy center = false ->
   exists lat lng,
     fst (fst view) = PyList [PyFloat lat; PyFloat lng] /\
     min_lat bounds <= lat /\ lat <= max_lat bounds /\
     min_lng bounds <= lng /\ lng <= max_lng bounds) /\
  (truthy center = true -> fst (fst view) = center) /\
  (zoom = PyNone ->
   exists z, snd (fst view) = PyInt z /\ (2 <= z <= 16)%Z) /\
  (zoom <> PyNone -> snd (fst view) = zoom) /\
  (exists lat lng,
      generate_view PyNone PyNone init
      = (PyList [PyFloat lat; PyFloat lng], PyInt 15, default_bounds) /\
      lat == 0 /\ lng == 0).
Proof.
  intros self view bounds. subst view bounds. unfold generate_view.
  cbn [fst snd].
  set (b := match _bounds self with Some b => b | None => default_bounds end).
  assert (Hwf : min_lat b <= max_lat b /\ min_lng b <= max_lng b).
  { subst b. destruct (_bounds self) as [b|] eqn:Hb.
    - assert (Hs : sound self).
      { apply run_sound. split; [intros b' Hb'; discriminate | intros c []]. }
      destruct Hs as [Hwf _]. now apply Hwf.
    - cbn. split; apply Qle_refl. }
  split; [|split; [|split; [|split]]].
  - intros _ Hc. unfold py_or. rewrite Hc. eexists _, _. split; [reflexivity|].
    destruct Hwf as [H1 H2].
    destruct (midpoint_between _ _ H1), (midpoint_between _ _ H2). auto.
  - intros Hc. unfold py_or. now rewrite Hc.
  - intros ->. cbn [is_none]. eexists. split; [reflexivity|].
    apply (auto_zoom_range b).
  - intros Hz. destruct zoom; try reflexivity. now elim Hz.
  - eexists _, _. split; [reflexivity|]. split; reflexivity.
Qed.

Lemma generate_default_view_witness :
  (exists lat lng,
      fst (fst (generate_view PyNone PyNone
                  (run no_strings [OpAddPoints [] [point_at 1 2]] init)))
      = PyList [PyFloat lat; PyFloat lng] /\
      inject_Z 1 <= lat /\ lat <= inject_Z 1) /\
  exists z, snd (fst (generate_view PyNone PyNone
                        (run no_strings [OpAddPoints [] [point_at 1 2]] init)))
            = PyInt z /\ (2 <= z <= 16)%Z.
Proof.
  destruct (generate_default_view no_strings [OpAddPoints [] [point_at 1 2]]
                                  PyNone PyNone) as (Hc & _ & Hz & _).
  split.
  - destruct (Hc eq_refl eq_refl) as (lat & lng & E & H1 & H2 & _).
    exists lat, lng. split; [exact E|]. split; [exact H1 | exact H2].
  - apply Hz. reflexivity.
Defined.

(** ** Coordinates and properties of points *)

Lemma first_not_none_spec keys d :
  (first_not_none keys d = PyNone /\ unresolvable keys d) \/
  (first_not_none keys d <> PyNone /\
   exists before k after,
     keys = (before ++ k :: after)%list /\ unresolvable before d /\
     dict_get d k = first_not_none keys d).
Proof.
  induction keys as [|k keys IH]; cbn [first_not_none].
  - left. split; [reflexivity | intros k []].
  - assert (Hrec : dict_get d k = PyNone ->
             (first_not_none keys d = PyNone /\ unresolvable (k :: keys) d) \/
             (first_not_none keys d <> PyNone /\
              exists before k0 after,
                k :: keys = (before ++ k0 :: after)%list /\ unresolvable before d /\
                dict_get d k0 = first_not_none keys d)).
    { intros Hk. destruct IH as [[E U]|[NE (bf & k0 & af & -> & U & G)]].
      - left. split; [exact E|]. intros k' [<-|Hin]; [exact Hk | now apply U].
      - right. split; [exact NE|]. exists (k :: bf), k0, af.
        split; [reflexivity|]. split; [|exact G].
        intros k' [<-|Hin]; [exact Hk | now apply U]. }
    unfold dict_get in *. destruct (lookup k d) as [v|] eqn:Hl; [|now apply Hrec].
    destruct v; try (right; split; [discriminate|]; exists [], k, keys;
                     split; [reflexivity|]; split; [intros k' []|];
                     unfold dict_get; now rewrite Hl).
    now apply Hrec.
Qed.

(** X15. The coordinate of a point is the value under the first alias, in
    the order lat, latitude, y (and lng, longitude, lon, x), that is present
    and not [None]; the point is unresolvable exactly when there is none.  A
    number under ['lat'] and ['lng'] that [float] takes over as it is (a
    bool, a float, an int within [+-2^53]; 0 included) is therefore what is
    stored, whatever the other aliases hold. *)
Theorem point_coordinate_resolution (float_of_str : string -> option Q)
  (style : Dict) (point : Dict) (rest : list Dict) (self : HtmlExport) :
  (forall keys,
      (first_not_none keys point = PyNone /\ unresolvable keys point) \/
      (first_not_none keys point <> PyNone /\
       exists before k after,
         keys = (before ++ k :: after)%list /\ unresolvable before point /\
         dict_get point k = first_not_none keys point)) /\
  (forall lat lng,
      plain (dict_get point "lat") = true ->
      plain (dict_get point "lng") = true ->
      py_float float_of_str (dict_get point "lat") = inr lat ->
      py_float float_of_str (dict_get point "lng") = inr lng ->
      add_points float_of_str style (point :: rest) self =
      add_points float_of_str style rest
        (update_bounds_self
           (append_point
              (mkPointFeature lat lng (without_keys point_coord_keys point) style)
              self) lat lng)).
Proof.
  split; [intros keys; apply first_not_none_spec|].
  intros lat lng _ _ Hlat Hlng.
  assert (Hfirst : forall k keys v,
             dict_get point k = v -> v <> PyNone ->
             first_not_none (k :: keys) point = v).
  { intros k keys v Hv Hne. cbn [first_not_none]. unfold dict_get in Hv.
    destruct (lookup k point) as [w|]; [|now elim Hne]. subst w.
    destruct v; try reflexivity. now elim Hne. }
  assert (Hlat' : first_not_none lat_keys point = dict_get point "lat").
  { apply Hfirst; [reflexivity|]. intros E. rewrite E in Hlat. discriminate. }
  assert (Hlng' : first_not_none lng_keys point = dict_get point "lng").
  { apply Hfirst; [reflexivity|]. intros E. rewrite E in Hlng. discriminate. }
  cbn [add_points]. rewrite Hlat', Hlng', Hlat, Hlng.
  destruct (dict_get point "lat"); try discriminate;
    destruct (dict_get point "lng"); try discriminate; reflexivity.
Qed.

Lemma point_coordinate_resolution_witness :
  add_points no_strings []
             [[("lat", PyInt 0); ("latitude", PyInt 50); ("lng", PyInt 0)]] init
  = add_points no_strings [] []
      (update_bounds_self
         (append_point (mkPointFeature (inject_Z 0) (inject_Z 0) [] []) init)
         (inject_Z 0) (inject_Z 0)).
Proof.
  destruct (point_coordinate_resolution
              no_strings [] [("lat", PyInt 0); ("latitude", PyInt 50); ("lng", PyInt 0)]
              [] init) as (_ & Hadd).
  apply (Hadd (inject_Z 0) (inject_Z 0)); reflexivity.
Defined.

Lemma lookup_without_keys keys d k :
  lookup k (without_keys keys d)
  = if existsb (String.eqb k) keys then None else lookup k d.
Proof.
  unfold without_keys. induction d as [|[k' v] d IH]; cbn [filter lookup fst].
  - now destruct (existsb _ keys).
  - destruct (existsb (String.eqb k') keys) eqn:Ek'; cbn [negb].
    + rewrite IH. destruct (String.eqb_spec k k') as [->|Hne]; [|reflexivity].
      now rewrite Ek'.
    + cbn [lookup]. rewrite IH.
      destruct (String.eqb_spec k k') as [->|Hne]; [now rewrite Ek' | reflexivity].
Qed.

(** X16. The properties stored with a feature are the feature's entries
    minus the coordinate keys: a key outside them keeps its value, and each
    of lat, latitude, lng, longitude, lon, x, y is dropped from a point (and
    each of coords, coordinates, path, latlngs from a line) even when the
    coordinates were taken from another alias. *)
Theorem properties_drop_coordinate_keys (float_of_str : string -> option Q)
  (style : Dict) (feature : Dict) (k : string) :
  (lookup k (without_keys point_coord_keys feature)
   = if existsb (String.eqb k) point_coord_keys then None else lookup k feature) /\
  (lookup k (without_keys line_coord_keys feature)
   = if existsb (String.eqb k) line_coord_keys then None else lookup k feature) /\
  (lookup k (without_keys polygon_coord_keys feature)
   = if existsb (String.eqb k) polygon_coord_keys then None else lookup k feature) /\
  (forall lat lng self,
      point_valid float_of_str feature lat lng ->
      exists f,
        _points (fst (add_points float_of_str style [feature] self))
        = (_points self ++ [f])%list /\
        lookup "x" (pt_properties f) = None /\
        lookup "y" (pt_properties f) = None /\
        lookup "lon" (pt_properties f) = None /\
        (existsb (String.eqb k) point_coord_keys = false ->
         lookup k (pt_properties f) = lookup k feature)).
Proof.
  split; [apply lookup_without_keys|].
  split; [apply lookup_without_keys|].
  split; [apply lookup_without_keys|].
  intros lat lng self Hv.
  rewrite (add_points_outcome float_of_str style [feature] _ []
             (points_store _ _ _ _ _ _ _ _ Hv (points_nil _ _))).
  cbn [fst _points]. eexists. split; [reflexivity|]. cbn [pt_properties].
  rewrite !lookup_without_keys. cbn. repeat split. intros Hk. now rewrite Hk.
Qed.

Lemma properties_drop_coordinate_keys_witness :
  exists f,
    _points (fst (add_points no_strings []
                    [[("lat", PyInt 1); ("lng", PyInt 2); ("x", PyInt 7);
                      ("name", PyStr "a")]] init))
    = (_points init ++ [f])%list /\
    lookup "x" (pt_properties f) = None /\
    lookup "name" (pt_properties f) = Some (PyStr "a").
Proof.
  destruct (properties_drop_coordinate_keys
              no_strings []
              [("lat", PyInt 1); ("lng", PyInt 2); ("x", PyInt 7); ("name", PyStr "a")]
              "name") as (_ & _ & _ & H).
  destruct (H (inject_Z 1) (inject_Z 2) init) as (f & Hf & Hx & _ & _ & Hk).
  - split; reflexivity.
  - exists f. split; [exact Hf|]. split; [exact Hx|].
    rewrite Hk; reflexivity.
Defined.

(** ** Batches *)

Section Batches.

Variable float_of_str : string -> option Q.
Variable style : Dict.

Lemma add_points_app b1 b2 :
  forall self,
    add_points float_of_str style (b1 ++ b2)%list self
    = match snd (add_points float_of_str style b1 self) with
      | None => add_points float_of_str style b2
                           (fst (add_points float_of_str style b1 self))
      | Some e => add_points float_of_str style b1 self
      end.
Proof.
  induction b1 as [|p b1 IH]; intros self; cbn [app add_points]; [reflexivity|].
  destruct (is_none _ || is_none _); [apply IH|].
  destruct (py_float _ _) as [e|flat]; [reflexivity|].
  destruct (py_float _ _) as [e|flng]; [reflexivity | apply IH].
Qed.

Lemma add_lines_app b1 b2 :
  forall self,
    add_lines float_of_str style (b1 ++ b2)%list self
    = match snd (add_lines float_of_str style b1 self) with
      | None => add_lines float_of_str style b2
                          (fst (add_lines float_of_str style b1 self))
      | Some e => add_lines float_of_str style b1 self
      end.
Proof.
  induction b1 as [|p b1 IH]; intros self; cbn [app add_lines]; [reflexivity|].
  destruct (line_coords_of p); try apply IH.
  destruct (negb _ || _); [apply IH|].
  destruct (_normalize_coords _ _) as [e|cs]; [reflexivity | apply IH].
Qed.

Lemma add_polygons_app b1 b2 :
  forall self,
    add_polygons float_of_str style (b1 ++ b2)%list self
    = match snd (add_polygons float_of_str style b1 self) with
      | None => add_polygons float_of_str style b2
                             (fst (add_polygons float_of_str style b1 self))
      | Some e => add_polygons float_of_str style b1 self
      end.
Proof.
  induction b1 as [|p b1 IH]; intros self; cbn [app add_polygons]; [reflexivity|].
  destruct (polygon_step _ _) as [d|e|rs]; [apply IH | reflexivity | apply IH].
Qed.

Lemma point_raises_step point e rest self :
  point_raises float_of_str point e ->
  add_points float_of_str style (point :: rest) self = (self, Some e).
Proof.
  intros (Hlat & Hlng & H). cbn [add_points]. rewrite Hlat, Hlng. cbn [orb].
  destruct H as [H|[[q Hq] H]].
  - now rewrite H.
  - now rewrite Hq, H.
Qed.

Lemma line_raises_step line e rest self :
  line_raises float_of_str line e ->
  add_lines float_of_str style (line :: rest) self = (self, Some e).
Proof.
  intros (l & Hc & Hlen & Hn). cbn [add_lines]. rewrite Hc.
  destruct l as [|c l]; [cbn in Hlen; lia|]. cbn [truthy negb orb].
  destruct (Nat.ltb_spec (List.length (c :: l)) 2); [lia|].
  now rewrite Hn.
Qed.

Lemma polygon_raises_step polygon e rest self :
  polygon_raises float_of_str polygon e ->
  add_polygons float_of_str style (polygon :: rest) self = (self, Some e).
Proof.
  intros (l & Hc & H). cbn [add_polygons]. unfold polygon_step. rewrite Hc.
  destruct H as [(Hm & Hn)|(Hm & Hlen & Hn)].
  - destruct l as [|c l]; [discriminate|]. cbn [truthy negb orb List.length Nat.eqb].
    rewrite Hm. destruct (valid_rings (c :: l)) as [|r vr]; [discriminate|].
    now rewrite Hn.
  - destruct l as [|c l]; [cbn in Hlen; lia|].
    cbn [truthy negb orb]. change (List.length (c :: l) =? 0)%nat with false.
    rewrite Hm. destruct (Nat.ltb_spec (List.length (c :: l)) 3); [lia|].
    now rewrite Hn.
Qed.

End Batches.

(** X17. Two calls of an adding method with the same style arguments act as
    one call on the concatenated batch, when the first call returns; when
    the first batch raises, a longer batch that starts with it raises the
    same exception and leaves the instance in the same state. *)
Theorem batches_compose (float_of_str : string -> option Q) (style : Dict) :
  (forall b1 b2 self s1,
      add_points float_of_str style b1 self = (s1, None) ->
      add_points float_of_str style (b1 ++ b2)%list self
      = add_points float_of_str style b2 s1) /\
  (forall b1 b2 self s1,
      add_lines float_of_str style b1 self = (s1, None) ->
      add_lines float_of_str style (b1 ++ b2)%list self
      = add_lines float_of_str style b2 s1) /\
  (forall b1 b2 self s1,
      add_polygons float_of_str style b1 self = (s1, None) ->
      add_polygons float_of_str style (b1 ++ b2)%list self
      = add_polygons float_of_str style b2 s1) /\
  (forall b1 b2 self s1 e,
      add_points float_of_str style b1 self = (s1, Some e) ->
      add_points float_of_str style (b1 ++ b2)%list self = (s1, Some e)) /\
  (forall b1 b2 self s1 e,
      add_lines float_of_str style b1 self = (s1, Some e) ->
      add_lines float_of_str style (b1 ++ b2)%list self = (s1, Some e)) /\
  (forall b1 b2 self s1 e,
      add_polygons float_of_str style b1 self = (s1, Some e) ->
      add_polygons float_of_str style (b1 ++ b2)%list self = (s1, Some e)).
Proof.
  split; [|split; [|split; [|split; [|split]]]]; intros b1 b2 self s1.
  - intros H. now rewrite add_points_app, H.
  - intros H. now rewrite add_lines_app, H.
  - intros H. now rewrite add_polygons_app, H.
  - intros e H. now rewrite add_points_app, H.
  - intros e H. now rewrite add_lines_app, H.
  - intros e H. now rewrite add_polygons_app, H.
Qed.

Lemma batches_compose_witness :
  add_points no_strings [] ([point_at 1 2] ++ [point_at 3 4])%list init
  = add_points no_strings [] [point_at 3 4]
      (fst (add_points no_strings [] [point_at 1 2] init)) /\
  add_points no_strings [] ([point_at 1 2; point_unparsable] ++ [point_at 3 4])%list
             init
  = (fst (add_points no_strings [] [point_at 1 2] init), Some ValueError).
Proof.
  destruct (batches_compose no_strings []) as (Hok & _ & _ & Herr & _).
  split.
  - apply Hok. reflexivity.
  - apply Herr. reflexivity.
Defined.

(** X18. An exception ends the batch where it occurs and nothing is rolled
    back: when the features before the raising one are each defective or
    valid, the call raises with exactly those features handled (the valid
    ones stored and inside the bounds, the defective ones reported); the
    raising feature leaves no trace and the features after it are never
    looked at. *)
Theorem exception_keeps_earlier_features (float_of_str : string -> option Q)
  (style : Dict) (self : HtmlExport) :
  (forall before fs ds point e after,
      points_outcome float_of_str style before fs ds ->
      point_raises float_of_str point e ->
      add_points float_of_str style (before ++ point :: after)%list self =
      (mkHtmlExport (_points self ++ fs) (_lines self) (_polygons self)
                    (bounds_after (point_coords fs) (_bounds self))
                    (stdout self ++ ds), Some e)) /\
  (forall before fs ds line e after,
      lines_outcome float_of_str style before fs ds ->
      line_raises float_of_str line e ->
      add_lines float_of_str style (before ++ line :: after)%list self =
      (mkHtmlExport (_points self) (_lines self ++ fs) (_polygons self)
                    (bounds_after (line_coords fs) (_bounds self))
                    (stdout self ++ ds), Some e)) /\
  (forall before fs ds polygon e after,
      polygons_outcome float_of_str style before fs ds ->
      polygon_raises float_of_str polygon e ->
      add_polygons float_of_str style (before ++ polygon :: after)%list self =
      (mkHtmlExport (_points self) (_lines self) (_polygons self ++ fs)
                    (bounds_after (polygon_coords fs) (_bounds self))
                    (stdout self ++ ds), Some e)).
Proof.
  split; [|split]; intros before fs ds x e after Ho Hr.
  - rewrite add_points_app, (add_points_outcome _ _ _ _ _ Ho). cbn [fst snd].
    now apply point_raises_step.
  - rewrite add_lines_app, (add_lines_outcome _ _ _ _ _ Ho). cbn [fst snd].
    now apply line_raises_step.
  - rewrite add_polygons_app, (add_polygons_outcome _ _ _ _ _ Ho). cbn [fst snd].
    now apply polygon_raises_step.
Qed.

Lemma exception_keeps_earlier_features_witness :
  add_points no_strings [] ([point_at 1 2] ++ point_unparsable :: [point_at 3 4])%list
             init
  = (mkHtmlExport ([] ++ [mkPointFeature (inject_Z 1) (inject_Z 2) [] []]) [] []
                  (bounds_after [(inject_Z 1, inject_Z 2)] None) ([] ++ []),
     Some ValueError).
Proof.
  destruct (exception_keeps_earlier_features no_strings [] init) as (Hpoints & _).
  apply (Hpoints [point_at 1 2] [mkPointFeature (inject_Z 1) (inject_Z 2) [] []]
                 [] point_unparsable ValueError [point_at 3 4]).
  - apply (points_store no_strings [] (point_at 1 2) (inject_Z 1) (inject_Z 2)).
    { split; reflexivity. }
    apply points_nil.
  - split; [reflexivity|]. split; [reflexivity|]. left. reflexivity.
Defined.

(** ** Coordinates that are no coordinates *)

Section Junk.

Variable float_of_str : string -> option Q.

Lemma normalize_coords_shape :
  forall l cs,
    _normalize_coords float_of_str l = inr cs ->
    List.length cs = List.length l /\
    forall i v, nth_error l i = Some v -> is_junk v = true ->
                nth_error cs i = Some (0, 0).
Proof.
  induction l as [|c l IH]; intros cs H; cbn [_normalize_coords] in H.
  - inversion H; subst. split; [reflexivity|]. intros [|i] v Hv; discriminate.
  - destruct (normalize_coord float_of_str c) as [e|p] eqn:Hc; [discriminate|].
    destruct (_normalize_coords float_of_str l) as [e|cs'] eqn:Hl; [discriminate|].
    inversion H; subst. destruct (IH cs' eq_refl) as [Hlen Hnth].
    split; [cbn; now rewrite Hlen|].
    intros [|i] v Hv Hj; cbn [nth_error] in *.
    + inversion Hv; subst. destruct v; try discriminate; cbn in Hc; now inversion Hc.
    + now apply (Hnth i v).
Qed.

Lemma normalize_coords_junk :
  forall l, Forall (fun v => is_junk v = true) l ->
            _normalize_coords float_of_str l
            = inr (repeat (0, 0) (List.length l)).
Proof.
  induction 1 as [|c l Hc _ IH]; cbn [_normalize_coords List.length repeat];
    [reflexivity|].
  rewrite IH. destruct c; try discriminate; reflexivity.
Qed.

End Junk.

(** X19. [_normalize_coords] returns one pair per element when it returns,
    and an element that is neither a list, a tuple nor a dict (a bare
    number, a string, [None]) becomes the pair (0, 0) without any exception
    or diagnostic.  So a line whose coordinates are given as a flat list of
    at least two such values is stored as a line of that many points at the
    origin, and the bounds then contain the origin. *)
Theorem junk_coordinates_become_origin (float_of_str : string -> option Q)
  (style : Dict) (self : HtmlExport) :
  (forall l cs,
      _normalize_coords float_of_str l = inr cs ->
      List.length cs = List.length l /\
      forall i v, nth_error l i = Some v -> is_junk v = true ->
                  nth_error cs i = Some (0, 0)) /\
  (forall line l,
      line_coords_of line = PyList l ->
      (2 <= List.length l)%nat ->
      Forall (fun v => is_junk v = true) l ->
      let origin := repeat (0, 0) (List.length l) in
      add_lines float_of_str style [line] self =
      (mkHtmlExport (_points self)
         (_lines self ++ [mkLineFeature origin (without_keys line_coord_keys line)
                                        style])%list
         (_polygons self) (bounds_after origin (_bounds self)) (stdout self),
       None) /\
      exists b, bounds_after origin (_bounds self) = Some b /\ inside b (0, 0)).
Proof.
  split; [apply normalize_coords_shape|].
  intros line l Hc Hlen Hj origin. split.
  - cbn [add_lines]. rewrite Hc.
    destruct l as [|c l]; [cbn in Hlen; lia|]. cbn [truthy negb orb].
    destruct (Nat.ltb_spec (List.length (c :: l)) 2); [lia|].
    rewrite (normalize_coords_junk _ _ Hj). fold origin.
    now rewrite update_bounds_all_fields.
  - apply (bounds_after_covers origin (_bounds self)).
    subst origin. destruct l as [|c l]; [cbn in Hlen; lia|]. now left.
Qed.

Lemma junk_coordinates_become_origin_witness :
  ln_coords (last (_lines (fst (add_lines no_strings [] [flat_line] init)))
                  (mkLineFeature [] [] []))
  = [(0, 0); (0, 0); (0, 0); (0, 0)].
Proof.
  destruct (junk_coordinates_become_origin no_strings [] init) as (_ & H).
  destruct (H flat_line
              [PyFloat (407 # 10); PyFloat (-740 # 10);
               PyFloat (408 # 10); PyFloat (-739 # 10)]) as (Heq & _).
  - reflexivity.
  - cbn. lia.
  - repeat constructor.
  - rewrite Heq. reflexivity.
Defined.

(** ** [clear] *)

Section Fresh.

Variable float_of_str : string -> option Q.

Lemma add_points_stored style batch :
  forall s s',
    stored s = stored s' ->
    stored (fst (add_points float_of_str style batch s))
    = stored (fst (add_points float_of_str style batch s')).
Proof.
  induction batch as [|p batch IH]; intros s s' H; cbn [add_points]; [exact H|].
  destruct (is_none _ || is_none _).
  - apply IH. exact H.
  - destruct (py_float _ _) as [e|flat]; [exact H|].
    destruct (py_float _ _) as [e|flng]; [exact H|].
    apply IH. unfold stored in *. inversion H as [[H1 H2 H3 H4]]. cbn.
    now rewrite H1, H2, H3, H4.
Qed.

Lemma add_lines_stored style batch :
  forall s s',
    stored s = stored s' ->
    stored (fst (add_lines float_of_str style batch s))
    = stored (fst (add_lines float_of_str style batch s')).
Proof.
  induction batch as [|p batch IH]; intros s s' H; cbn [add_lines]; [exact H|].
  destruct (line_coords_of p); try (apply IH; exact H).
  destruct (negb _ || _); [apply IH; exact H|].
  destruct (_normalize_coords _ _) as [e|cs]; [exact H|].
  apply IH. rewrite !update_bounds_all_fields.
  unfold stored in *. inversion H as [[H1 H2 H3 H4]]. cbn.
  now rewrite H1, H2, H3, H4.
Qed.

Lemma add_polygons_stored style batch :
  forall s s',
    stored s = stored s' ->
    stored (fst (add_polygons float_of_str style batch s))
    = stored (fst (add_polygons float_of_str style batch s')).
Proof.
  induction batch as [|p batch IH]; intros s s' H; cbn [add_polygons]; [exact H|].
  destruct (polygon_step _ _) as [d|e|rs]; [apply IH; exact H | exact H |].
  apply IH. rewrite !update_bounds_rings_fields.
  unfold stored in *. inversion H as [[H1 H2 H3 H4]]. cbn.
  now rewrite H1, H2, H3, H4.
Qed.

Lemma run_stored ops :
  forall s s',
    stored s = stored s' ->
    stored (run float_of_str ops s) = stored (run float_of_str ops s').
Proof.
  unfold run. induction ops as [|op ops IH]; intros s s' H; cbn [fold_left];
    [exact H|].
  apply IH. destruct op; cbn [apply_op].
  - now apply add_points_stored.
  - now apply add_lines_stored.
  - now apply add_polygons_stored.
  - reflexivity.
Qed.

End Fresh.

(** X20. After [clear] an instance behaves as a new one: whatever it held
    before, any sequence of adding and clearing calls leaves the same
    points, lines, polygons and bounds as on a new instance, and [generate]
    then hands over the same center, zoom and bounds. *)
Theorem clear_behaves_like_new (float_of_str : string -> option Q)
  (ops : list Op) (self : HtmlExport) (center zoom : PyVal) :
  stored (run float_of_str ops (clear self)) = stored (run float_of_str ops init) /\
  generate_view center zoom (run float_of_str ops (clear self))
  = generate_view center zoom (run float_of_str ops init).
Proof.
  assert (H : stored (run float_of_str ops (clear self))
              = stored (run float_of_str ops init)).
  { apply run_stored. reflexivity. }
  split; [exact H|].
  unfold stored in H. inversion H as [[H1 H2 H3 H4]].
  unfold generate_view. now rewrite H4.
Qed.

(** ** Rings in dict or tuple form *)

(** X21. A polygon given as a list of rings is recognised as such only when
    the first coordinate of its first ring is a list.  When that coordinate
    is a dict or a tuple, the rings are taken for the coordinates of one
    ring: with one or two rings the polygon is skipped as having fewer than
    three coordinates, with three or more the call raises [TypeError]; such
    a polygon is never stored. *)
Theorem holed_polygon_needs_list_pairs (float_of_str : string -> option Q)
  (style : Dict) (self : HtmlExport) (polygon : Dict)
  (c : PyVal) (ring rings : list PyVal) :
  polygon_coords_of polygon = PyList (PyList (c :: ring) :: rings) ->
  (exists d, c = PyDict d) \/ (exists t, c = PyTuple t) ->
  add_polygons float_of_str style [polygon] self =
  if (List.length rings <? 2)%nat
  then (print (PolygonTooFewCoords polygon) self, None)
  else (self, Some TypeError).
Proof.
  intros Hc Hform. cbn [add_polygons]. unfold polygon_step. rewrite Hc.
  cbn [truthy negb orb List.length Nat.eqb].
  assert (Hm : is_multi_ring (PyList (c :: ring) :: rings) = false).
  { destruct Hform as [[d ->]|[t ->]]; reflexivity. }
  rewrite Hm.
  assert (Hf : py_float float_of_str c = inl TypeError).
  { destruct Hform as [[d ->]|[t ->]]; reflexivity. }
  change (S (List.length rings) <? 3)%nat with (List.length rings <? 2)%nat.
  destruct (List.length rings <? 2)%nat; [reflexivity|].
  cbn [_normalize_coords normalize_coord float_pair]. now rewrite Hf.
Qed.

Lemma holed_polygon_needs_list_pairs_witness :
  add_polygons no_strings [] [dict_polygon 1] init
  = (print (PolygonTooFewCoords (dict_polygon 1)) init, None) /\
  add_polygons no_strings [] [dict_polygon 2] init = (init, Some TypeError).
Proof.
  split.
  - apply (holed_polygon_needs_list_pairs no_strings [] init (dict_polygon 1)
             (coord_dict 0 0) [coord_dict 0 1; coord_dict 1 0] [dict_ring 10]).
    + reflexivity.
    + left. eexists. reflexivity.
  - apply (holed_polygon_needs_list_pairs no_strings [] init (dict_polygon 2)
             (coord_dict 0 0) [coord_dict 0 1; coord_dict 1 0]
             [dict_ring 10; dict_ring 10]).
    + reflexivity.
    + left. eexists. reflexivity.
Defined.

(** ** GeoJSON *)

Lemma truthy_dict k (d : Dict) v : lookup k d = Some v -> truthy (PyDict d) = true.
Proof. destruct d; [discriminate | reflexivity]. Qed.

Lemma lookup_app k (d1 d2 : Dict) :
  lookup k (d1 ++ d2)%list
  = match lookup k d1 with Some v => Some v | None => lookup k d2 end.
Proof.
  induction d1 as [|[k' v'] d1 IH]; cbn [app lookup]; [reflexivity|].
  now destruct (String.eqb k k').
Qed.

Lemma lookup_absent k (d : Dict) : ~ In k (map fst d) -> lookup k d = None.
Proof.
  induction d as [|[k' v'] d IH]; cbn [map fst lookup In]; [reflexivity|].
  intros H. destruct (String.eqb_spec k k') as [->|Hne]; [tauto|].
  apply IH. tauto.
Qed.

Lemma dict_set_fresh k v (d : Dict) :
  lookup k d = None -> dict_set k v d = (d ++ [(k, v)])%list.
Proof.
  induction d as [|[k' v'] d IH]; cbn [lookup dict_set app]; [reflexivity|].
  destruct (String.eqb k k'); [discriminate|]. intros H. now rewrite IH.
Qed.

Lemma lookup_dict_set k k' v (d : Dict) :
  lookup k (dict_set k' v d) = if String.eqb k k' then Some v else lookup k d.
Proof.
  induction d as [|[k0 v0] d IH]; cbn [dict_set lookup]; [reflexivity|].
  destruct (String.eqb_spec k' k0) as [->|Hne]; cbn [lookup].
  - now destruct (String.eqb k k0).
  - rewrite IH. destruct (String.eqb_spec k k') as [->|Hne'].
    + destruct (String.eqb_spec k' k0); [contradiction | reflexivity].
    + reflexivity.
Qed.

(** Merging properties into a dict display: the properties win. *)
Lemma lookup_dict_update k (props : Dict) :
  distinct_keys props ->
  forall base,
    lookup k (dict_update base props)
    = match lookup k props with Some v => Some v | None => lookup k base end.
Proof.
  unfold dict_update, distinct_keys.
  induction props as [|[k' v'] props IH]; intros Hnd base;
    cbn [fold_left lookup fst snd map] in *; [reflexivity|].
  inversion Hnd as [|? ? Hnotin Hnd']; subst.
  rewrite (IH Hnd'), lookup_dict_set.
  destruct (String.eqb_spec k k') as [->|Hne]; [|reflexivity].
  now rewrite (lookup_absent _ _ Hnotin).
Qed.

Lemma dict_update_fresh (props : Dict) :
  distinct_keys props ->
  forall base,
    (forall k, In k (map fst props) -> lookup k base = None) ->
    dict_update base props = (base ++ props)%list.
Proof.
  unfold dict_update, distinct_keys.
  induction props as [|[k v] props IH]; intros Hnd base Hfresh;
    cbn [fold_left fst snd map] in *; [now rewrite app_nil_r|].
  inversion Hnd as [|? ? Hnotin Hnd']; subst.
  rewrite (dict_set_fresh k v base) by (apply Hfresh; now left).
  rewrite (IH Hnd').
  - now rewrite <- app_assoc.
  - intros k' Hin. rewrite lookup_app, (Hfresh k') by now right.
    cbn [lookup]. destruct (String.eqb_spec k' k) as [->|Hne]; [tauto | reflexivity].
Qed.

Lemma without_keys_free keys (d : Dict) : free_of keys d -> without_keys keys d = d.
Proof.
  unfold free_of, without_keys. induction 1 as [|kv d Hk _ IH]; cbn [filter];
    [reflexivity|].
  now rewrite Hk, IH.
Qed.

Lemma free_of_not_in keys (d : Dict) k :
  free_of keys d -> In k (map fst d) -> In k keys -> False.
Proof.
  intros Hfree Hk Hin. apply in_map_iff in Hk. destruct Hk as (kv & <- & Hkv).
  unfold free_of in Hfree. rewrite Forall_forall in Hfree.
  specialize (Hfree kv Hkv). rewrite <- not_true_iff_false in Hfree.
  apply Hfree. apply existsb_exists. exists (fst kv). split; [exact Hin|].
  apply String.eqb_refl.
Qed.

Section GeoJsonFacts.

Variable float_of_str : string -> option Q.

(** A feature dict reaches the branch of its geometry type. *)
Lemma add_geojson_feature f t coords properties kwargs self :
  is_feature f t coords properties ->
  add_geojson float_of_str (PyDict f) kwargs self
  = if String.eqb t "Point" then geo_point float_of_str kwargs properties coords self
    else if String.eqb t "MultiPoint" then
      match iterate coords with
      | inl e => (self, Some e)
      | inr items => for_each (geo_point float_of_str kwargs properties) items self
      end
    else if String.eqb t "LineString" then
      geo_line float_of_str kwargs properties coords self
    else if String.eqb t "MultiLineString" then
      match iterate coords with
      | inl e => (self, Some e)
      | inr items => for_each (geo_line float_of_str kwargs properties) items self
      end
    else if String.eqb t "Polygon" then
      geo_polygon float_of_str kwargs properties coords self
    else if String.eqb t "MultiPolygon" then
      match iterate coords with
      | inl e => (self, Some e)
      | inr items => for_each (geo_polygon float_of_str kwargs properties) items self
      end
    else (self, None).
Proof.
  intros (Ht & (g & Hg & Hgt & Hgc) & Hp).
  unfold add_geojson. rewrite (truthy_dict _ _ _ Ht). cbn [negb py_get].
  rewrite Ht. cbn [str_eq]. change (String.eqb "Feature" "FeatureCollection") with false.
  change (String.eqb "Feature" "Feature") with true. cbv iota.
  unfold _add_geojson_feature. cbn [py_get]. rewrite Hg, Hp.
  rewrite (truthy_dict _ _ _ Hgt). cbn [negb py_get]. rewrite Hgt, Hgc.
  cbn [str_eq]. reflexivity.
Qed.

Lemma swap_positions l cs :
  Forall2 (position float_of_str) l cs ->
  exists l', map_err swap_pair l = inr l' /\
             _normalize_coords float_of_str l' = inr cs /\
             List.length l' = List.length l /\
             (forall c r, l' = c :: r -> is_list c = true).
Proof.
  induction 1 as [|c p l cs (x & y & rest & -> & Hx & Hy) _ IH].
  - exists []. repeat split; try reflexivity. intros c r H. discriminate.
  - destruct IH as (l' & Hl' & Hn & Hlen & _).
    exists (PyList [y; x] :: l'). cbn [map_err swap_pair subscript nth_error].
    rewrite Hl'. split; [reflexivity|].
    cbn [_normalize_coords normalize_coord float_pair]. rewrite Hy, Hx, Hn.
    split; [now destruct p|]. split; [cbn; now rewrite Hlen|].
    intros c r H. inversion H; subst. reflexivity.
Qed.

Lemma swap_ring_positions rings rss :
  Forall2 (ring_positions float_of_str) rings rss ->
  exists rings', map_err swap_pairs rings = inr (map PyList rings') /\
                 valid_rings (map PyList rings') = rings' /\
                 normalize_rings float_of_str rings' = inr rss /\
                 List.length rings' = List.length rings /\
                 (rings <> [] -> is_multi_ring (map PyList rings') = true).
Proof.
  induction 1 as [|r rs rings rss (l & -> & Hlen & Hpos) _ IH].
  - exists []. repeat split; try reflexivity. intros H. now elim H.
  - destruct IH as (rings' & Hr & Hv & Hn & Hl & _).
    destruct (swap_positions _ _ Hpos) as (l' & Hl' & Hnl & Hlen' & Hfirst).
    exists (l' :: rings'). cbn [map_err swap_pairs iterate map].
    rewrite Hl', Hr. split; [reflexivity|].
    cbn [valid_rings]. rewrite Hlen'.
    destruct (Nat.leb_spec 3 (List.length l)); [|lia]. rewrite Hv.
    split; [reflexivity|]. cbn [normalize_rings]. rewrite Hnl, Hn.
    split; [reflexivity|]. split; [cbn; now rewrite Hl|].
    intros _. destruct l' as [|c l']; [cbn in Hlen'; lia|].
    specialize (Hfirst c l' eq_refl). destruct c; try discriminate. reflexivity.
Qed.

End GeoJsonFacts.

(** X22. GeoJSON positions are [x, y] = [longitude, latitude]; [add_geojson]
    stores them the other way round, as the adding methods expect.  For a
    Feature whose properties use none of the coordinate keys and whose style
    keywords the adding method accepts: a Point at [x, y] becomes one point
    with latitude [y] and longitude [x]; a LineString of at least two
    positions becomes one line through them; a Polygon whose rings have at
    least three positions each becomes one polygon with these rings.  The
    properties are stored as given, any third coordinate is dropped, and
    the bounds grow by the stored coordinates. *)
Theorem geojson_axis_order (float_of_str : string -> option Q)
  (kwargs : Dict) (self : HtmlExport) (f props : Dict) :
  distinct_keys props ->
  (forall x y rest lat lng style,
      is_feature f "Point" (PyList (x :: y :: rest)) (PyDict props) ->
      free_of point_coord_keys props ->
      bind_style point_style_defaults kwargs = inr style ->
      py_float float_of_str x = inr lng ->
      py_float float_of_str y = inr lat ->
      add_geojson float_of_str (PyDict f) kwargs self =
      (mkHtmlExport (_points self ++ [mkPointFeature lat lng props style])%list
                    (_lines self) (_polygons self)
                    (_update_bounds (_bounds self) lat lng) (stdout self),
       None)) /\
  (forall l cs style,
      is_feature f "LineString" (PyList l) (PyDict props) ->
      free_of line_coord_keys props ->
      bind_style line_style_defaults kwargs = inr style ->
      (2 <= List.length l)%nat ->
      Forall2 (position float_of_str) l cs ->
      add_geojson float_of_str (PyDict f) kwargs self =
      (mkHtmlExport (_points self)
                    (_lines self ++ [mkLineFeature cs props style])%list
                    (_polygons self)
                    (bounds_after cs (_bounds self)) (stdout self),
       None)) /\
  (forall rings rss style,
      is_feature f "Polygon" (PyList rings) (PyDict props) ->
      free_of polygon_coord_keys props ->
      bind_style polygon_style_defaults kwargs = inr style ->
      rings <> [] ->
      Forall2 (ring_positions float_of_str) rings rss ->
      add_geojson float_of_str (PyDict f) kwargs self =
      (mkHtmlExport (_points self) (_lines self)
                    (_polygons self ++ [mkPolygonFeature rss props style])%list
                    (bounds_after (List.concat rss) (_bounds self)) (stdout self),
       None)).
Proof.
  intros Hnd. split; [|split].
  - intros x y rest lat lng style Hf Hfree Hstyle Hx Hy.
    rewrite (add_geojson_feature _ _ _ _ _ _ _ Hf).
    change (String.eqb "Point" "Point") with true. cbv iota.
    unfold geo_point. cbn [subscript nth_error as_mapping].
    unfold call_add_points. rewrite Hstyle.
    rewrite (dict_update_fresh props Hnd).
    2:{ intros k Hk. cbn [lookup].
        destruct (String.eqb_spec k "lng") as [->|_];
          [exfalso; apply (free_of_not_in _ _ _ Hfree Hk); cbn; tauto|].
        destruct (String.eqb_spec k "lat") as [->|_]; [|reflexivity].
        exfalso; apply (free_of_not_in _ _ _ Hfree Hk); cbn; tauto. }
    assert (Hv : point_valid float_of_str
                   ([("lng", x); ("lat", y)] ++ props)%list lat lng).
    { split.
      - replace (first_not_none lat_keys ([("lng", x); ("lat", y)] ++ props)%list)
          with y; [exact Hy|].
        cbn. destruct y; try reflexivity. discriminate.
      - replace (first_not_none lng_keys ([("lng", x); ("lat", y)] ++ props)%list)
          with x; [exact Hx|].
        cbn. destruct x; try reflexivity. discriminate. }
    rewrite (add_points_outcome float_of_str style _ _ []
               (points_store _ _ _ _ _ _ _ _ Hv (points_nil _ _))).
    cbn [fst snd option_map point_coords map pt_lat pt_lng].
    change (without_keys point_coord_keys ([("lng", x); ("lat", y)] ++ props)%list)
      with (without_keys point_coord_keys props).
    rewrite (without_keys_free _ _ Hfree), app_nil_r. reflexivity.
  - intros l cs style Hf Hfree Hstyle Hlen Hpos.
    rewrite (add_geojson_feature _ _ _ _ _ _ _ Hf).
    change (String.eqb "LineString" "Point") with false.
    change (String.eqb "LineString" "MultiPoint") with false.
    change (String.eqb "LineString" "LineString") with true. cbv iota.
    destruct (swap_positions _ _ _ Hpos) as (l' & Hl' & Hn & Hlen' & _).
    unfold geo_line. cbn [swap_pairs iterate]. rewrite Hl'. cbn [as_mapping].
    unfold call_add_lines. rewrite Hstyle.
    rewrite (dict_update_fresh props Hnd).
    2:{ intros k Hk. cbn [lookup].
        destruct (String.eqb_spec k "coords") as [->|_]; [|reflexivity].
        exfalso; apply (free_of_not_in _ _ _ Hfree Hk); cbn; tauto. }
    assert (Hv : line_valid float_of_str
                   ([("coords", PyList l')] ++ props)%list cs).
    { exists l'. split; [|split; [lia | exact Hn]].
      destruct l' as [|c l']; [cbn in Hlen'; lia|]. reflexivity. }
    rewrite (line_valid_stored float_of_str style _ _ _ _ Hv).
    cbn [add_lines fst snd option_map]. rewrite update_bounds_all_fields.
    cbn [_points _lines _polygons _bounds stdout append_line].
    change (without_keys line_coord_keys ([("coords", PyList l')] ++ props)%list)
      with (without_keys line_coord_keys props).
    now rewrite (without_keys_free _ _ Hfree).
  - intros rings rss style Hf Hfree Hstyle Hne Hpos.
    rewrite (add_geojson_feature _ _ _ _ _ _ _ Hf).
    change (String.eqb "Polygon" "Point") with false.
    change (String.eqb "Polygon" "MultiPoint") with false.
    change (String.eqb "Polygon" "LineString") with false.
    change (String.eqb "Polygon" "MultiLineString") with false.
    change (String.eqb "Polygon" "Polygon") with true. cbv iota.
    destruct (swap_ring_positions _ _ _ Hpos) as (rings' & Hr & Hv & Hn & Hl & Hm).
    specialize (Hm Hne).
    unfold geo_polygon. cbn [swap_rings iterate]. rewrite Hr. cbn [as_mapping].
    unfold call_add_polygons. rewrite Hstyle.
    rewrite (dict_update_fresh props Hnd).
    2:{ intros k Hk. cbn [lookup].
        destruct (String.eqb_spec k "coords") as [->|_]; [|reflexivity].
        exfalso; apply (free_of_not_in _ _ _ Hfree Hk); cbn; tauto. }
    assert (Hpv : polygon_valid float_of_str
                    ([("coords", PyList (map PyList rings'))] ++ props)%list rss).
    { exists (map PyList rings'). split.
      - destruct rings' as [|r rings']; [destruct rings; [now elim Hne | discriminate]|].
        reflexivity.
      - left. split; [exact Hm|]. rewrite Hv. split; [|exact Hn].
        intros ->. destruct rings; [now elim Hne | discriminate]. }
    cbn [add_polygons]. rewrite (polygon_valid_step float_of_str _ _ Hpv).
    cbn [fst snd option_map]. rewrite update_bounds_rings_fields.
    cbn [_points _lines _polygons _bounds stdout append_polygon].
    change (without_keys polygon_coord_keys
              ([("coords", PyList (map PyList rings'))] ++ props)%list)
      with (without_keys polygon_coord_keys props).
    now rewrite (without_keys_free _ _ Hfree).
Qed.

Lemma geojson_axis_order_witness :
  add_geojson no_strings (geo_feature "Point" (xy (-74) 40) (PyDict named)) [] init
  = (mkHtmlExport
       ([] ++ [mkPointFeature (inject_Z 40) (inject_Z (-74)) named
                              point_style_defaults])%list [] []
       (_update_bounds None (inject_Z 40) (inject_Z (-74))) [], None).
Proof.
  assert (Hnd : distinct_keys named).
  { repeat constructor. intros []. }
  destruct (geojson_axis_order no_strings [] init
              [("type", PyStr "Feature");
               ("geometry", PyDict [("type", PyStr "Point");
                                    ("coordinates", xy (-74) 40)]);
               ("properties", PyDict named)] named Hnd) as (Hpoint & _).
  apply (Hpoint (PyInt (-74)) (PyInt 40) []).
  - split; [reflexivity|]. split; [|reflexivity].
    eexists. split; [reflexivity|]. split; reflexivity.
  - repeat constructor.
  - reflexivity.
  - reflexivity.
  - reflexivity.
Defined.

Lemma first_not_none_head k keys (d : Dict) v :
  lookup k d = Some v -> v <> PyNone -> first_not_none (k :: keys) d = v.
Proof.
  intros Hl Hne. cbn [first_not_none]. rewrite Hl.
  destruct v; try reflexivity. now elim Hne.
Qed.

Lemma py_float_not_none float_of_str v q :
  py_float float_of_str v = inr q -> v <> PyNone.
Proof. intros H ->. discriminate. Qed.

(** X23. The properties of a GeoJSON Feature are merged over the
    coordinates taken from its geometry, so a property named like a
    coordinate key replaces the geometry: a Point whose properties hold
    ['lat'] is stored at that latitude, whatever the second coordinate of
    its position is; a LineString whose properties hold a list under
    ['coords'] is stored with that list as its coordinates. *)
Theorem geojson_properties_override (float_of_str : string -> option Q)
  (kwargs : Dict) (self : HtmlExport) (f props : Dict) :
  distinct_keys props ->
  (forall x y rest v lat lng style,
      is_feature f "Point" (PyList (x :: y :: rest)) (PyDict props) ->
      bind_style point_style_defaults kwargs = inr style ->
      lookup "lat" props = Some v ->
      lookup "lng" props = None ->
      py_float float_of_str v = inr lat ->
      py_float float_of_str x = inr lng ->
      exists properties,
        add_geojson float_of_str (PyDict f) kwargs self =
        (mkHtmlExport
           (_points self ++ [mkPointFeature lat lng properties style])%list
           (_lines self) (_polygons self)
           (_update_bounds (_bounds self) lat lng) (stdout self), None)) /\
  (forall coords swapped l cs style,
      is_feature f "LineString" coords (PyDict props) ->
      bind_style line_style_defaults kwargs = inr style ->
      swap_pairs coords = inr swapped ->
      lookup "coords" props = Some (PyList l) ->
      (2 <= List.length l)%nat ->
      _normalize_coords float_of_str l = inr cs ->
      exists properties,
        add_geojson float_of_str (PyDict f) kwargs self =
        (mkHtmlExport (_points self)
           (_lines self ++ [mkLineFeature cs properties style])%list
           (_polygons self)
           (bounds_after cs (_bounds self)) (stdout self), None)).
Proof.
  intros Hnd. split.
  - intros x y rest v lat lng style Hf Hstyle Hlat Hlng Hv Hx.
    rewrite (add_geojson_feature _ _ _ _ _ _ _ Hf).
    change (String.eqb "Point" "Point") with true. cbv iota.
    unfold geo_point. cbn [subscript nth_error as_mapping].
    unfold call_add_points. rewrite Hstyle.
    set (merged := dict_update [("lng", x); ("lat", y)] props).
    assert (Hmlat : lookup "lat" merged = Some v).
    { subst merged. now rewrite (lookup_dict_update _ _ Hnd), Hlat. }
    assert (Hmlng : lookup "lng" merged = Some x).
    { subst merged. now rewrite (lookup_dict_update _ _ Hnd), Hlng. }
    assert (Hpv : point_valid float_of_str merged lat lng).
    { split.
      - unfold lat_keys.
        rewrite (first_not_none_head _ _ _ _ Hmlat (py_float_not_none _ _ _ Hv)).
        exact Hv.
      - unfold lng_keys.
        rewrite (first_not_none_head _ _ _ _ Hmlng (py_float_not_none _ _ _ Hx)).
        exact Hx. }
    rewrite (add_points_outcome float_of_str style _ _ []
               (points_store _ _ _ _ _ _ _ _ Hpv (points_nil _ _))).
    cbn [fst snd option_map point_coords map pt_lat pt_lng].
    eexists. rewrite app_nil_r. reflexivity.
  - intros coords swapped l cs style Hf Hstyle Hswap Hc Hlen Hn.
    rewrite (add_geojson_feature _ _ _ _ _ _ _ Hf).
    change (String.eqb "LineString" "Point") with false.
    change (String.eqb "LineString" "MultiPoint") with false.
    change (String.eqb "LineString" "LineString") with true. cbv iota.
    unfold geo_line. rewrite Hswap. cbn [as_mapping].
    unfold call_add_lines. rewrite Hstyle.
    set (merged := dict_update [("coords", swapped)] props).
    assert (Hm : lookup "coords" merged = Some (PyList l)).
    { subst merged. now rewrite (lookup_dict_update _ _ Hnd), Hc. }
    assert (Hv : line_valid float_of_str merged cs).
    { exists l. split; [|split; [exact Hlen | exact Hn]].
      unfold line_coords_of, dict_get. rewrite Hm.
      destruct l as [|c l]; [cbn in Hlen; lia|]. reflexivity. }
    rewrite (line_valid_stored float_of_str style _ _ _ _ Hv).
    cbn [add_lines fst snd option_map]. rewrite update_bounds_all_fields.
    cbn [_points _lines _polygons _bounds stdout append_line].
    eexists. reflexivity.
Qed.

Lemma geojson_properties_override_witness :
  exists properties,
    add_geojson no_strings (geo_feature "Point" (xy (-74) 40) (PyDict named_lat))
                [] init
    = (mkHtmlExport
         ([] ++ [mkPointFeature (inject_Z 50) (inject_Z (-74)) properties
                                point_style_defaults])%list [] []
         (_update_bounds None (inject_Z 50) (inject_Z (-74))) [], None).
Proof.
  assert (Hnd : distinct_keys named_lat).
  { unfold distinct_keys. cbn. repeat constructor; cbn; intuition discriminate. }
  destruct (geojson_properties_override no_strings [] init
              [("type", PyStr "Feature");
               ("geometry", PyDict [("type", PyStr "Point");
                                    ("coordinates", xy (-74) 40)]);
               ("properties", PyDict named_lat)] named_lat Hnd) as (Hpoint & _).
  apply (Hpoint (PyInt (-74)) (PyInt 40) [] (PyInt 50)).
  - split; [reflexivity|]. split; [|reflexivity].
    eexists. split; [reflexivity|]. split; reflexivity.
  - reflexivity.
  - reflexivity.
  - reflexivity.
  - reflexivity.
  - reflexivity.
Defined.

(** X24. What [add_geojson] passes over without a diagnostic or an
    exception, leaving the instance as it is: a falsy value ([None], an
    empty dict); a Feature whose geometry is missing or falsy; a Feature or
    a bare geometry whose type is none of Point, MultiPoint, LineString,
    MultiLineString, Polygon and MultiPolygon (a GeometryCollection, say),
    whatever its coordinates and properties and whatever the style
    keywords. *)
Theorem geojson_ignored (float_of_str : string -> option Q)
  (kwargs : Dict) (self : HtmlExport) :
  (forall geojson,
      truthy geojson = false ->
      add_geojson float_of_str geojson kwargs self = (self, None)) /\
  (forall f,
      lookup "type" f = Some (PyStr "Feature") ->
      truthy (dict_get f "geometry") = false ->
      add_geojson float_of_str (PyDict f) kwargs self = (self, None)) /\
  (forall f t coords properties,
      is_feature f t coords properties ->
      ~ In t geometry_types ->
      add_geojson float_of_str (PyDict f) kwargs self = (self, None)) /\
  (forall g t,
      lookup "type" g = Some (PyStr t) ->
      ~ In t ("FeatureCollection" :: "Feature" :: geometry_types) ->
      add_geojson float_of_str (PyDict g) kwargs self = (self, None)).
Proof.
  assert (Hneq : forall t s : string, t <> s -> String.eqb t s = false).
  { intros t s H. now apply String.eqb_neq. }
  split; [|split; [|split]].
  - intros geojson H. unfold add_geojson. now rewrite H.
  - intros f Ht Hg. unfold add_geojson. rewrite (truthy_dict _ _ _ Ht).
    cbn [negb py_get]. rewrite Ht. cbn [str_eq].
    change (String.eqb "Feature" "FeatureCollection") with false.
    change (String.eqb "Feature" "Feature") with true. cbv iota.
    unfold _add_geojson_feature. cbn [py_get]. unfold dict_get in Hg.
    destruct (lookup "geometry" f) as [geometry|]; rewrite Hg; reflexivity.
  - intros f t coords properties Hf Ht.
    rewrite (add_geojson_feature _ _ _ _ _ _ _ Hf).
    unfold geometry_types in Ht. cbn [In] in Ht.
    rewrite !Hneq by (intros E; apply Ht; rewrite E; tauto). reflexivity.
  - intros g t Hg Ht. unfold geometry_types in Ht. cbn [In] in Ht.
    unfold add_geojson. rewrite (truthy_dict _ _ _ Hg). cbn [negb py_get].
    rewrite Hg. cbn [str_eq].
    rewrite !Hneq by (intros E; apply Ht; rewrite E; tauto).
    unfold _add_geojson_feature.
    change (py_get (PyDict [("type", PyStr "Feature"); ("geometry", PyDict g);
                            ("properties", PyDict [])]) "geometry" PyNone)
      with (@inr GeoErr PyVal (PyDict g)).
    change (py_get (PyDict [("type", PyStr "Feature"); ("geometry", PyDict g);
                            ("properties", PyDict [])]) "properties" (PyDict []))
      with (@inr GeoErr PyVal (PyDict [])).
    cbv iota. rewrite (truthy_dict _ _ _ Hg). cbn [negb py_get]. rewrite Hg.
    cbn [str_eq].
    rewrite !Hneq by (intros E; apply Ht; rewrite E; tauto). reflexivity.
Qed.

Lemma geojson_ignored_witness :
  add_geojson no_strings
    (PyDict [("type", PyStr "GeometryCollection"); ("geometries", PyList [])])
    [("no_such_option", PyNone)] init
  = (init, None).
Proof.
  destruct (geojson_ignored no_strings [("no_such_option", PyNone)] init)
    as (_ & _ & _ & H).
  apply (H _ "GeometryCollection").
  - reflexivity.
  - cbn. intuition discriminate.
Defined.

Lemma bind_style_unknown defaults kwargs k :
  In k (map fst kwargs) -> ~ In k (map fst defaults) ->
  bind_style defaults kwargs = inl TypeError.
Proof.
  intros Hin Hnot. unfold bind_style.
  destruct (forallb _ kwargs) eqn:Hall; [|reflexivity].
  exfalso. rewrite forallb_forall in Hall.
  apply in_map_iff in Hin. destruct Hin as (kv & <- & Hkv).
  specialize (Hall kv Hkv). apply existsb_exists in Hall.
  destruct Hall as (k' & Hk' & Heq). apply String.eqb_eq in Heq. now subst k'.
Qed.

Lemma for_each_app {A : Type}
  (body : A -> HtmlExport -> HtmlExport * option GeoErr) (l1 l2 : list A) :
  forall self,
    for_each body (l1 ++ l2)%list self
    = match for_each body l1 self with
      | (s1, None) => for_each body l2 s1
      | r => r
      end.
Proof.
  induction l1 as [|x l1 IH]; intros self; cbn [app for_each]; [reflexivity|].
  destruct (body x self) as [s [e|]]; [reflexivity | apply IH].
Qed.

(** X25. Two ways in which [add_geojson] raises [TypeError] with nothing
    stored.  The properties of a Feature with a handled geometry must be a
    dict: [None] (a JSON null) raises.  And the style keywords go unfiltered
    to the adding method of each geometry, so a keyword that this method
    does not take raises, as [radius] does for a LineString. *)
Theorem geojson_type_errors (float_of_str : string -> option Q)
  (kwargs : Dict) (self : HtmlExport) (f : Dict) :
  (forall x y rest properties,
      is_feature f "Point" (PyList (x :: y :: rest)) properties ->
      (forall d, properties <> PyDict d) ->
      add_geojson float_of_str (PyDict f) kwargs self
      = (self, Some (Raised TypeError))) /\
  (forall coords swapped properties,
      is_feature f "LineString" coords properties ->
      swap_pairs coords = inr swapped ->
      (forall d, properties <> PyDict d) ->
      add_geojson float_of_str (PyDict f) kwargs self
      = (self, Some (Raised TypeError))) /\
  (forall k x y rest props,
      is_feature f "Point" (PyList (x :: y :: rest)) (PyDict props) ->
      In k (map fst kwargs) -> ~ In k (map fst point_style_defaults) ->
      add_geojson float_of_str (PyDict f) kwargs self
      = (self, Some (Raised TypeError))) /\
  (forall k coords swapped props,
      is_feature f "LineString" coords (PyDict props) ->
      swap_pairs coords = inr swapped ->
      In k (map fst kwargs) -> ~ In k (map fst line_style_defaults) ->
      add_geojson float_of_str (PyDict f) kwargs self
      = (self, Some (Raised TypeError))) /\
  (forall k coords swapped props,
      is_feature f "Polygon" coords (PyDict props) ->
      swap_rings coords = inr swapped ->
      In k (map fst kwargs) -> ~ In k (map fst polygon_style_defaults) ->
      add_geojson float_of_str (PyDict f) kwargs self
      = (self, Some (Raised TypeError))).
Proof.
  split; [|split; [|split; [|split]]].
  - intros x y rest properties Hf Hp.
    rewrite (add_geojson_feature _ _ _ _ _ _ _ Hf).
    change (String.eqb "Point" "Point") with true. cbv iota.
    unfold geo_point. cbn [subscript nth_error].
    destruct properties; try reflexivity. now elim (Hp d).
  - intros coords swapped properties Hf Hs Hp.
    rewrite (add_geojson_feature _ _ _ _ _ _ _ Hf).
    change (String.eqb "LineString" "Point") with false.
    change (String.eqb "LineString" "MultiPoint") with false.
    change (String.eqb "LineString" "LineString") with true. cbv iota.
    unfold geo_line. rewrite Hs.
    destruct properties; try reflexivity. now elim (Hp d).
  - intros k x y rest props Hf Hin Hnot.
    rewrite (add_geojson_feature _ _ _ _ _ _ _ Hf).
    change (String.eqb "Point" "Point") with true. cbv iota.
    unfold geo_point. cbn [subscript nth_error as_mapping].
    unfold call_add_points. now rewrite (bind_style_unknown _ _ _ Hin Hnot).
  - intros k coords swapped props Hf Hs Hin Hnot.
    rewrite (add_geojson_feature _ _ _ _ _ _ _ Hf).
    change (String.eqb "LineString" "Point") with false.
    change (String.eqb "LineString" "MultiPoint") with false.
    change (String.eqb "LineString" "LineString") with true. cbv iota.
    unfold geo_line. rewrite Hs. cbn [as_mapping].
    unfold call_add_lines. now rewrite (bind_style_unknown _ _ _ Hin Hnot).
  - intros k coords swapped props Hf Hs Hin Hnot.
    rewrite (add_geojson_feature _ _ _ _ _ _ _ Hf).
    change (String.eqb "Polygon" "Point") with false.
    change (String.eqb "Polygon" "MultiPoint") with false.
    change (String.eqb "Polygon" "LineString") with false.
    change (String.eqb "Polygon" "MultiLineString") with false.
    change (String.eqb "Polygon" "Polygon") with true. cbv iota.
    unfold geo_polygon. rewrite Hs. cbn [as_mapping].
    unfold call_add_polygons. now rewrite (bind_style_unknown _ _ _ Hin Hnot).
Qed.

Lemma geojson_type_errors_witness :
  add_geojson no_strings (geo_feature "LineString" two_positions (PyDict named))
              [("radius", PyInt 5)] init
  = (init, Some (Raised TypeError)) /\
  add_geojson no_strings (geo_feature "Point" (xy (-74) 40) PyNone) [] init
  = (init, Some (Raised TypeError)).
Proof.
  split.
  - destruct (geojson_type_errors no_strings [("radius", PyInt 5)] init
                [("type", PyStr "Feature");
                 ("geometry", PyDict [("type", PyStr "LineString");
                                      ("coordinates", two_positions)]);
                 ("properties", PyDict named)]) as (_ & _ & _ & Hline & _).
    apply (Hline "radius" two_positions (PyList [xy 0 0; xy 1 1]) named).
    + split; [reflexivity|]. split; [|reflexivity].
      eexists. split; [reflexivity|]. split; reflexivity.
    + reflexivity.
    + left. reflexivity.
    + cbn. intuition discriminate.
  - destruct (geojson_type_errors no_strings [] init
                [("type", PyStr "Feature");
                 ("geometry", PyDict [("type", PyStr "Point");
                                      ("coordinates", xy (-74) 40)]);
                 ("properties", PyNone)]) as (Hnull & _).
    apply (Hnull (PyInt (-74)) (PyInt 40) [] PyNone).
    + split; [reflexivity|]. split; [|reflexivity].
      eexists. split; [reflexivity|]. split; reflexivity.
    + intros d. discriminate.
Defined.

(** X26. A FeatureCollection is handled as its features one after the
    other: adding a collection is adding its first part and then, unless
    that raised, the rest; a collection of one Feature is that Feature; an
    empty collection changes nothing.  So an exception stops the walk with
    the earlier features stored, as in a collection of a Point and a
    LineString added with [radius]: the point is kept, then [TypeError]. *)
Theorem geojson_collections_compose (float_of_str : string -> option Q)
  (kwargs : Dict) (self : HtmlExport) :
  (forall fs1 fs2,
      add_geojson float_of_str (feature_collection (fs1 ++ fs2)%list) kwargs self
      = match add_geojson float_of_str (feature_collection fs1) kwargs self with
        | (s1, None) => add_geojson float_of_str (feature_collection fs2) kwargs s1
        | r => r
        end) /\
  (forall f,
      lookup "type" f = Some (PyStr "Feature") ->
      add_geojson float_of_str (feature_collection [PyDict f]) kwargs self
      = add_geojson float_of_str (PyDict f) kwargs self) /\
  add_geojson float_of_str (feature_collection []) kwargs self = (self, None).
Proof.
  assert (Hfc : forall fs s,
             add_geojson float_of_str (feature_collection fs) kwargs s
             = for_each (fun feature =>
                           _add_geojson_feature float_of_str feature kwargs) fs s).
  { intros fs s. reflexivity. }
  split; [|split].
  - intros fs1 fs2. rewrite !Hfc, for_each_app.
    destruct (for_each _ fs1 self) as [s1 [e|]]; [reflexivity|].
    now rewrite Hfc.
  - intros f Ht. rewrite Hfc. cbn [for_each].
    unfold add_geojson. rewrite (truthy_dict _ _ _ Ht). cbn [negb py_get].
    rewrite Ht. cbn [str_eq].
    change (String.eqb "Feature" "FeatureCollection") with false.
    change (String.eqb "Feature" "Feature") with true. cbv iota.
    now destruct (_add_geojson_feature float_of_str (PyDict f) kwargs self)
      as [s [e|]].
  - reflexivity.
Qed.

Lemma geojson_collections_compose_witness :
  add_geojson no_strings mixed_collection [("radius", PyInt 5)] init
  = (fst (add_geojson no_strings
            (geo_feature "Point" (xy (-74) 40) (PyDict named))
            [("radius", PyInt 5)] init),
     Some (Raised TypeError)).
Proof.
  destruct (geojson_collections_compose no_strings [("radius", PyInt 5)] init)
    as (Happ & _ & _).
  refine (eq_trans
            (Happ [geo_feature "Point" (xy (-74) 40) (PyDict named)]
                  [geo_feature "LineString" two_positions (PyDict named)]) _).
  reflexivity.
Defined.

End PyExtra.
